(** * DiceConfigManager: a shallow embedding of the configuration manager

    The development follows [src/DiceConfigManager.h] and
    [src/DiceConfigManager.cpp].  The target is the ESP32 (the header names
    it, and the code uses the ESP32 Arduino core: [LittleFS.begin(bool)],
    [Serial.printf]): a little-endian ILP32 machine on which [uint16_t] is
    2-aligned and [float] and [uint32_t] are 4-aligned.

    Conventions.
    - Integers of the C program are [Z] with the conversion written out
      ([uint8_t], [uint16_t], [uint32_t], [int8_t] below).
    - A C string is the [string] of its characters before the terminator;
      a [char] buffer of fixed size is the [list ascii] of all its cells.
    - [float] is the IEEE-754 binary32 bit pattern, decoded to the
      Standard Library's [spec_float] for comparisons.
    - The functions of the C library the code calls ([strtoul], [atoi],
      [atof], [sscanf], [printf], [strncpy], ...) are modelled as the C
      standard and newlib, the library of the ESP32 toolchain, define them.
    - Console output ([Serial.print...] under [_verbose]) is not modelled:
      it changes no state of the manager.
    - The properties of the floating-point conversions are proved in exact
      rational arithmetic ([Q]). *)

From Stdlib Require Import ZArith List String Ascii Bool Lia.
From Stdlib Require Import Floats.SpecFloat.
From Stdlib Require Import QArith Qpower Qabs Lqa.
Import ListNotations.
Local Open Scope Z_scope.

(* ================================================================== *)
(** ** C scalar conversions *)

Definition uint8_t (z : Z) : Z := z mod 256.
Definition uint16_t (z : Z) : Z := z mod 65536.
Definition uint32_t (z : Z) : Z := z mod 4294967296.
Definition int8_t (z : Z) : Z := (z + 128) mod 256 - 128.

Definition ULONG_MAX : Z := 4294967295.
Definition LONG_MAX : Z := 2147483647.
Definition LONG_MIN : Z := -2147483648.

Definition is_byte (z : Z) : Prop := 0 <= z < 256.

(** The character code of a [char], as an unsigned byte. *)
Definition code (c : ascii) : Z := Z.of_N (N_of_ascii c).

Definition NUL : ascii := Ascii.zero.

(* ================================================================== *)
(** ** IEEE-754 binary32 *)

Definition float32 := Z.

Definition f32_sign (b : float32) : bool := Z.testbit b 31.
Definition f32_exp (b : float32) : Z := Z.land (Z.shiftr b 23) 255.
Definition f32_frac (b : float32) : Z := Z.land b 8388607.

Definition f32_decode (b : float32) : spec_float :=
  let s := f32_sign b in
  let e := f32_exp b in
  let m := f32_frac b in
  if e =? 0 then
    (if m =? 0 then S754_zero s else S754_finite s (Z.to_pos m) (-149))
  else if e =? 255 then
    (if m =? 0 then S754_infinity s else S754_nan)
  else S754_finite s (Z.to_pos (m + 8388608)) (e - 150).

(** [x <= 0] and [x > 0] on a [float], the [int] constant converted to
    [0.0f]. *)
Definition f32_le_zero (x : float32) : bool :=
  SFleb (f32_decode x) (S754_zero false).
Definition f32_gt_zero (x : float32) : bool :=
  SFltb (S754_zero false) (f32_decode x).

(** Some constants: 2.5f, 0.0f, 0.01f and a quiet NaN. *)
Definition f32_2_5 : float32 := 0x40200000.
Definition f32_zero : float32 := 0.
Definition f32_0_01 : float32 := 0x3C23D70A.
Definition f32_nan : float32 := 0x7FC00000.

(* ================================================================== *)
(** ** The configuration structure ([struct DiceConfig]) *)

Record DiceConfig := mkDiceConfig {
  diceId : list ascii;          (* char diceId[16] *)
  deviceA_mac : list Z;         (* uint8_t deviceA_mac[6] *)
  deviceB1_mac : list Z;        (* uint8_t deviceB1_mac[6] *)
  deviceB2_mac : list Z;        (* uint8_t deviceB2_mac[6] *)
  x_background : Z;             (* uint16_t *)
  y_background : Z;             (* uint16_t *)
  z_background : Z;             (* uint16_t *)
  entang_ab1_color : Z;         (* uint16_t *)
  entang_ab2_color : Z;         (* uint16_t *)
  rssiLimit : Z;                (* int8_t *)
  isSMD : bool;
  isNano : bool;
  alwaysSeven : bool;
  randomSwitchPoint : Z;        (* uint8_t *)
  tumbleConstant : float32;     (* float *)
  deepSleepTimeout : Z;         (* uint32_t *)
  checksum : Z                  (* uint8_t *)
}.

(** Member assignment, one function per member. *)
Definition set_diceId (v : list ascii) (c : DiceConfig) : DiceConfig :=
  mkDiceConfig v (deviceA_mac c) (deviceB1_mac c) (deviceB2_mac c)
    (x_background c) (y_background c) (z_background c)
    (entang_ab1_color c) (entang_ab2_color c) (rssiLimit c)
    (isSMD c) (isNano c) (alwaysSeven c) (randomSwitchPoint c)
    (tumbleConstant c) (deepSleepTimeout c) (checksum c).
Definition set_deviceA_mac (v : list Z) (c : DiceConfig) : DiceConfig :=
  mkDiceConfig (diceId c) v (deviceB1_mac c) (deviceB2_mac c)
    (x_background c) (y_background c) (z_background c)
    (entang_ab1_color c) (entang_ab2_color c) (rssiLimit c)
    (isSMD c) (isNano c) (alwaysSeven c) (randomSwitchPoint c)
    (tumbleConstant c) (deepSleepTimeout c) (checksum c).
Definition set_deviceB1_mac (v : list Z) (c : DiceConfig) : DiceConfig :=
  mkDiceConfig (diceId c) (deviceA_mac c) v (deviceB2_mac c)
    (x_background c) (y_background c) (z_background c)
    (entang_ab1_color c) (entang_ab2_color c) (rssiLimit c)
    (isSMD c) (isNano c) (alwaysSeven c) (randomSwitchPoint c)
    (tumbleConstant c) (deepSleepTimeout c) (checksum c).
Definition set_deviceB2_mac (v : list Z) (c : DiceConfig) : DiceConfig :=
  mkDiceConfig (diceId c) (deviceA_mac c) (deviceB1_mac c) v
    (x_background c) (y_background c) (z_background c)
    (entang_ab1_color c) (entang_ab2_color c) (rssiLimit c)
    (isSMD c) (isNano c) (alwaysSeven c) (randomSwitchPoint c)
    (tumbleConstant c) (deepSleepTimeout c) (checksum c).
Definition set_x_background (v : Z) (c : DiceConfig) : DiceConfig :=
  mkDiceConfig (diceId c) (deviceA_mac c) (deviceB1_mac c) (deviceB2_mac c)
    v (y_background c) (z_background c)
    (entang_ab1_color c) (entang_ab2_color c) (rssiLimit c)
    (isSMD c) (isNano c) (alwaysSeven c) (randomSwitchPoint c)
    (tumbleConstant c) (deepSleepTimeout c) (checksum c).
Definition set_y_background (v : Z) (c : DiceConfig) : DiceConfig :=
  mkDiceConfig (diceId c) (deviceA_mac c) (deviceB1_mac c) (deviceB2_mac c)
    (x_background c) v (z_background c)
    (entang_ab1_color c) (entang_ab2_color c) (rssiLimit c)
    (isSMD c) (isNano c) (alwaysSeven c) (randomSwitchPoint c)
    (tumbleConstant c) (deepSleepTimeout c) (checksum c).
Definition set_z_background (v : Z) (c : DiceConfig) : DiceConfig :=
  mkDiceConfig (diceId c) (deviceA_mac c) (deviceB1_mac c) (deviceB2_mac c)
    (x_background c) (y_background c) v
    (entang_ab1_color c) (entang_ab2_color c) (rssiLimit c)
    (isSMD c) (isNano c) (alwaysSeven c) (randomSwitchPoint c)
    (tumbleConstant c) (deepSleepTimeout c) (checksum c).
Definition set_entang_ab1_color (v : Z) (c : DiceConfig) : DiceConfig :=
  mkDiceConfig (diceId c) (deviceA_mac c) (deviceB1_mac c) (deviceB2_mac c)
    (x_background c) (y_background c) (z_background c)
    v (entang_ab2_color c) (rssiLimit c)
    (isSMD c) (isNano c) (alwaysSeven c) (randomSwitchPoint c)
    (tumbleConstant c) (deepSleepTimeout c) (checksum c).
Definition set_entang_ab2_color (v : Z) (c : DiceConfig) : DiceConfig :=
  mkDiceConfig (diceId c) (deviceA_mac c) (deviceB1_mac c) (deviceB2_mac c)
    (x_background c) (y_background c) (z_background c)
    (entang_ab1_color c) v (rssiLimit c)
    (isSMD c) (isNano c) (alwaysSeven c) (randomSwitchPoint c)
    (tumbleConstant c) (deepSleepTimeout c) (checksum c).
Definition set_rssiLimit (v : Z) (c : DiceConfig) : DiceConfig :=
  mkDiceConfig (diceId c) (deviceA_mac c) (deviceB1_mac c) (deviceB2_mac c)
    (x_background c) (y_background c) (z_background c)
    (entang_ab1_color c) (entang_ab2_color c) v
    (isSMD c) (isNano c) (alwaysSeven c) (randomSwitchPoint c)
    (tumbleConstant c) (deepSleepTimeout c) (checksum c).
Definition set_isSMD (v : bool) (c : DiceConfig) : DiceConfig :=
  mkDiceConfig (diceId c) (deviceA_mac c) (deviceB1_mac c) (deviceB2_mac c)
    (x_background c) (y_background c) (z_background c)
    (entang_ab1_color c) (entang_ab2_color c) (rssiLimit c)
    v (isNano c) (alwaysSeven c) (randomSwitchPoint c)
    (tumbleConstant c) (deepSleepTimeout c) (checksum c).
Definition set_isNano (v : bool) (c : DiceConfig) : DiceConfig :=
  mkDiceConfig (diceId c) (deviceA_mac c) (deviceB1_mac c) (deviceB2_mac c)
    (x_background c) (y_background c) (z_background c)
    (entang_ab1_color c) (entang_ab2_color c) (rssiLimit c)
    (isSMD c) v (alwaysSeven c) (randomSwitchPoint c)
    (tumbleConstant c) (deepSleepTimeout c) (checksum c).
Definition set_alwaysSeven (v : bool) (c : DiceConfig) : DiceConfig :=
  mkDiceConfig (diceId c) (deviceA_mac c) (deviceB1_mac c) (deviceB2_mac c)
    (x_background c) (y_background c) (z_background c)
    (entang_ab1_color c) (entang_ab2_color c) (rssiLimit c)
    (isSMD c) (isNano c) v (randomSwitchPoint c)
    (tumbleConstant c) (deepSleepTimeout c) (checksum c).
Definition set_randomSwitchPoint (v : Z) (c : DiceConfig) : DiceConfig :=
  mkDiceConfig (diceId c) (deviceA_mac c) (deviceB1_mac c) (deviceB2_mac c)
    (x_background c) (y_background c) (z_background c)
    (entang_ab1_color c) (entang_ab2_color c) (rssiLimit c)
    (isSMD c) (isNano c) (alwaysSeven c) v
    (tumbleConstant c) (deepSleepTimeout c) (checksum c).
Definition set_tumbleConstant (v : float32) (c : DiceConfig) : DiceConfig :=
  mkDiceConfig (diceId c) (deviceA_mac c) (deviceB1_mac c) (deviceB2_mac c)
    (x_background c) (y_background c) (z_background c)
    (entang_ab1_color c) (entang_ab2_color c) (rssiLimit c)
    (isSMD c) (isNano c) (alwaysSeven c) (randomSwitchPoint c)
    v (deepSleepTimeout c) (checksum c).
Definition set_deepSleepTimeout (v : Z) (c : DiceConfig) : DiceConfig :=
  mkDiceConfig (diceId c) (deviceA_mac c) (deviceB1_mac c) (deviceB2_mac c)
    (x_background c) (y_background c) (z_background c)
    (entang_ab1_color c) (entang_ab2_color c) (rssiLimit c)
    (isSMD c) (isNano c) (alwaysSeven c) (randomSwitchPoint c)
    (tumbleConstant c) v (checksum c).
Definition set_checksum (v : Z) (c : DiceConfig) : DiceConfig :=
  mkDiceConfig (diceId c) (deviceA_mac c) (deviceB1_mac c) (deviceB2_mac c)
    (x_background c) (y_background c) (z_background c)
    (entang_ab1_color c) (entang_ab2_color c) (rssiLimit c)
    (isSMD c) (isNano c) (alwaysSeven c) (randomSwitchPoint c)
    (tumbleConstant c) (deepSleepTimeout c) v.

(** The values a [DiceConfig] object can hold: every member within the
    range of its C type. *)
Record wf_config (c : DiceConfig) : Prop := {
  wf_diceId : List.length (diceId c) = 16%nat;
  wf_macA_len : List.length (deviceA_mac c) = 6%nat;
  wf_macB1_len : List.length (deviceB1_mac c) = 6%nat;
  wf_macB2_len : List.length (deviceB2_mac c) = 6%nat;
  wf_macA : Forall is_byte (deviceA_mac c);
  wf_macB1 : Forall is_byte (deviceB1_mac c);
  wf_macB2 : Forall is_byte (deviceB2_mac c);
  wf_x : 0 <= x_background c < 65536;
  wf_y : 0 <= y_background c < 65536;
  wf_z : 0 <= z_background c < 65536;
  wf_e1 : 0 <= entang_ab1_color c < 65536;
  wf_e2 : 0 <= entang_ab2_color c < 65536;
  wf_rssi : -128 <= rssiLimit c < 128;
  wf_rsp : 0 <= randomSwitchPoint c < 256;
  wf_tumble : 0 <= tumbleConstant c < 4294967296;
  wf_sleep : 0 <= deepSleepTimeout c < 4294967296;
  wf_checksum : 0 <= checksum c < 256
}.

(* ================================================================== *)
(** ** Object representation

    [calculateChecksum] reads the object through a [uint8_t*], so the
    model needs the bytes of a [DiceConfig] as they lie in memory: the
    members in declaration order, each at the next offset that is a multiple
    of its alignment, and the object padded to a multiple of the largest
    alignment.  The contents of padding bytes are given by [pad], a function
    of the offset: no statement of the program writes them. *)

Module Layout.

Record member := Member { m_align : nat; m_bytes : list Z }.

Definition gap (off align : nat) : nat :=
  ((align - off mod align) mod align)%nat.

Definition padding (pad : nat -> Z) (off n : nat) : list Z :=
  map pad (seq off n).

Fixpoint place (pad : nat -> Z) (off : nat) (ms : list member) : list Z :=
  match ms with
  | [] => []
  | m :: ms' =>
      let g := gap off (m_align m) in
      (padding pad off g ++ m_bytes m
         ++ place pad (off + g + List.length (m_bytes m)) ms')%list
  end.

Definition struct_align (ms : list member) : nat :=
  fold_right Nat.max 1%nat (map m_align ms).

Definition object_repr (pad : nat -> Z) (ms : list member) : list Z :=
  let body := place pad 0 ms in
  (body ++ padding pad (List.length body)
             (gap (List.length body) (struct_align ms)))%list.

(** The same computation on sizes alone gives [sizeof]. *)
Fixpoint end_offset (off : nat) (decl : list (nat * nat)) : nat :=
  match decl with
  | [] => off
  | (size, align) :: decl' =>
      end_offset (off + gap off align + size) decl'
  end.

Definition sizeof_struct (decl : list (nat * nat)) : nat :=
  let e := end_offset 0 decl in
  (e + gap e (fold_right Nat.max 1%nat (map snd decl)))%nat.

(** Offset of the member number [k]. *)
Fixpoint offsetof (off : nat) (decl : list (nat * nat)) (k : nat) : nat :=
  match decl with
  | [] => off
  | (size, align) :: decl' =>
      match k with
      | O => (off + gap off align)%nat
      | S k' => offsetof (off + gap off align + size) decl' k'
      end
  end.

End Layout.

(** Little-endian bytes of an [n]-byte scalar. *)
Definition le_bytes (n : nat) (z : Z) : list Z :=
  map (fun i => (z / 2 ^ (8 * Z.of_nat i)) mod 256) (seq 0 n).

(** (size, alignment) of the members of [struct DiceConfig], in
    declaration order. *)
Definition DiceConfig_decl : list (nat * nat) :=
  [ (16, 1); (6, 1); (6, 1); (6, 1);
    (2, 2); (2, 2); (2, 2); (2, 2); (2, 2);
    (1, 1); (1, 1); (1, 1); (1, 1); (1, 1);
    (4, 4); (4, 4); (1, 1) ]%nat.

Definition sizeof_DiceConfig : nat := Layout.sizeof_struct DiceConfig_decl.

Definition members (c : DiceConfig) : list Layout.member :=
  [ Layout.Member 1 (map code (diceId c));
    Layout.Member 1 (deviceA_mac c);
    Layout.Member 1 (deviceB1_mac c);
    Layout.Member 1 (deviceB2_mac c);
    Layout.Member 2 (le_bytes 2 (x_background c));
    Layout.Member 2 (le_bytes 2 (y_background c));
    Layout.Member 2 (le_bytes 2 (z_background c));
    Layout.Member 2 (le_bytes 2 (entang_ab1_color c));
    Layout.Member 2 (le_bytes 2 (entang_ab2_color c));
    Layout.Member 1 [uint8_t (rssiLimit c)];
    Layout.Member 1 [Z.b2z (isSMD c)];
    Layout.Member 1 [Z.b2z (isNano c)];
    Layout.Member 1 [Z.b2z (alwaysSeven c)];
    Layout.Member 1 [randomSwitchPoint c];
    Layout.Member 4 (le_bytes 4 (tumbleConstant c));
    Layout.Member 4 (le_bytes 4 (deepSleepTimeout c));
    Layout.Member 1 [checksum c] ].

(** [(uint8_t* )&config]: the bytes of the object. *)
Definition object_bytes (pad : nat -> Z) (c : DiceConfig) : list Z :=
  Layout.object_repr pad (members c).

(* ================================================================== *)
(** ** Integrity checker *)

(** [calculateChecksum]: the loop of the source, [sum] a [uint8_t]. *)
Definition calculateChecksum (pad : nat -> Z) (config : DiceConfig)
  : DiceConfig :=
  let ptr := object_bytes pad config in
  let sum :=
    fold_left (fun sum i => uint8_t (Z.lxor sum (nth i ptr 0)))
              (seq 0 (sizeof_DiceConfig - 1)) 0 in
  set_checksum sum config.

(** [validateChecksum]: [temp] is a copy of the object (a structure copy
    carries the whole representation, so [temp] has the padding of
    [config]). *)
Definition validateChecksum (pad : nat -> Z) (config : DiceConfig) : bool :=
  let temp := config in
  let originalChecksum := checksum temp in
  let temp := calculateChecksum pad temp in
  checksum temp =? originalChecksum.

(** The guarded check as both callers ([load], [validate]) write it:
    [config.checksum != 0 && !validateChecksum(config)] is the failure. *)
Definition checksum_accepted (pad : nat -> Z) (config : DiceConfig) : bool :=
  negb (negb (checksum config =? 0) && negb (validateChecksum pad config)).

(** What the specification describes: the XOR of the bytes of every member
    but [checksum], in declaration order. *)
Definition field_bytes (c : DiceConfig) : list Z :=
  (map code (diceId c) ++ deviceA_mac c ++ deviceB1_mac c ++ deviceB2_mac c
   ++ le_bytes 2 (x_background c) ++ le_bytes 2 (y_background c)
   ++ le_bytes 2 (z_background c) ++ le_bytes 2 (entang_ab1_color c)
   ++ le_bytes 2 (entang_ab2_color c)
   ++ [uint8_t (rssiLimit c)]
   ++ [Z.b2z (isSMD c)] ++ [Z.b2z (isNano c)] ++ [Z.b2z (alwaysSeven c)]
   ++ [randomSwitchPoint c]
   ++ le_bytes 4 (tumbleConstant c) ++ le_bytes 4 (deepSleepTimeout c))%list.

Definition xor_fold (l : list Z) : Z := fold_left Z.lxor l 0.

Definition spec_checksum (c : DiceConfig) : Z := xor_fold (field_bytes c).

(** The padding bytes the loop of [calculateChecksum] passes over. *)
Definition pad_xor (pad : nat -> Z) : Z :=
  xor_fold [pad 49%nat; pad 50%nat; pad 51%nat; pad 61%nat; pad 62%nat].

Definition zero_pad : nat -> Z := fun _ => 0.

(* ================================================================== *)
(** ** Default policy *)

Definition chars (s : string) : list ascii := list_ascii_of_string s.

(** [strcpy(dst, src)] into a buffer: the characters of [src] and the
    terminator overwrite the first cells, the others keep their contents. *)
Definition strcpy (dst : list ascii) (src : string) : list ascii :=
  let s := (chars src ++ [NUL])%list in
  (s ++ skipn (List.length s) dst)%list.

Definition initDefaultConfig (c : DiceConfig) : DiceConfig :=
  let c := set_diceId (strcpy (diceId c) "DEFAULT") c in
  let c := set_deviceA_mac (repeat 0 6) c in
  let c := set_deviceB1_mac (repeat 0 6) c in
  let c := set_deviceB2_mac (repeat 0 6) c in
  let c := set_x_background 0xF800 c in
  let c := set_y_background 0x07E0 c in
  let c := set_z_background 0x001F c in
  let c := set_entang_ab1_color 0xFFFF c in
  let c := set_entang_ab2_color 0x0000 c in
  let c := set_rssiLimit (-70) c in
  let c := set_isSMD false c in
  let c := set_isNano false c in
  let c := set_alwaysSeven false c in
  let c := set_randomSwitchPoint 50 c in
  let c := set_tumbleConstant f32_2_5 c in
  let c := set_deepSleepTimeout 300000 c in
  set_checksum 0 c.

(** The member object of a manager before its constructor has run: static
    storage, all bytes zero. *)
Definition zero_config : DiceConfig :=
  mkDiceConfig (repeat NUL 16) (repeat 0 6) (repeat 0 6) (repeat 0 6)
    0 0 0 0 0 0 false false false 0 0 0 0.

Definition default_config : DiceConfig := initDefaultConfig zero_config.

(* ================================================================== *)
(** ** Characters and C strings *)

Local Open Scope string_scope.
Local Open Scope Z_scope.

Definition LF : ascii := ascii_of_nat 10.
Definition CR : ascii := ascii_of_nat 13.

(** [isspace] in the "C" locale: space, and [\t \n \v \f \r]. *)
Definition isspace (c : ascii) : bool :=
  (code c =? 32) || ((9 <=? code c) && (code c <=? 13)).

Definition tolower (c : ascii) : ascii :=
  if (65 <=? code c) && (code c <=? 90)
  then ascii_of_N (N_of_ascii c + 32) else c.

(** The C string held in a buffer: the characters before the first
    terminator. *)
Fixpoint c_str (buf : list ascii) : string :=
  match buf with
  | [] => ""
  | c :: buf' => if Ascii.eqb c NUL then "" else String c (c_str buf')
  end.

Definition strlen (buf : list ascii) : nat := String.length (c_str buf).

(** [strncpy(dst, src, n)] followed by [dst[n] = '\0'] on a buffer of
    [n + 1] cells: at most [n] characters of [src], the rest filled with
    terminators. *)
Definition strncpy_buf (n : nat) (src : string) : list ascii :=
  let s := firstn n (chars src) in
  (s ++ repeat NUL (n - List.length s) ++ [NUL])%list.

(** The same copy seen as a C string: the first [n] characters. *)
Fixpoint truncate (n : nat) (s : string) : string :=
  match n, s with
  | S n', String c s' => String c (truncate n' s')
  | _, _ => ""
  end.

Fixpoint lstrip (s : string) : string :=
  match s with
  | String c s' => if isspace c then lstrip s' else s
  | "" => ""
  end.

Fixpoint rstrip (s : string) : string :=
  match s with
  | "" => ""
  | String c s' =>
      match rstrip s' with
      | "" => if isspace c then "" else String c ""
      | r => String c r
      end
  end.

(** [trim]: leading white space is removed by the [memmove]; the backward
    loop stops at the first cell ([end > str]), so the first character left
    is never removed. *)
Definition trim (str : string) : string :=
  match lstrip str with
  | "" => ""
  | String c r => String c (rstrip r)
  end.

(** [strchr(line, '=')] and the split that follows it: the text before the
    first ['='] and the text after it. *)
Fixpoint split_eq (line : string) : option (string * string) :=
  match line with
  | "" => None
  | String c s' =>
      if Ascii.eqb c "=" then Some ("", s')
      else match split_eq s' with
           | Some (k, v) => Some (String c k, v)
           | None => None
           end
  end.

Definition strcmp_eq (a b : string) : bool := String.eqb a b.

Fixpoint lower (s : string) : string :=
  match s with
  | "" => ""
  | String c s' => String (tolower c) (lower s')
  end.

Definition strcasecmp_eq (a b : string) : bool :=
  String.eqb (lower a) (lower b).

(* ================================================================== *)
(** ** Integer conversions of the C library *)

(** Value of a digit in the given base, when it is one. *)
Definition digit_val (base : Z) (c : ascii) : option Z :=
  let n := code c in
  let d := if (48 <=? n) && (n <=? 57) then n - 48
           else if (97 <=? n) && (n <=? 122) then n - 87
           else if (65 <=? n) && (n <=? 90) then n - 55
           else 36 in
  if d <? base then Some d else None.

(** The digits at the head of [s] accumulated onto [acc]. *)
Fixpoint accum (base : Z) (s : string) (acc : Z) : Z :=
  match s with
  | "" => acc
  | String c s' =>
      match digit_val base c with
      | Some d => accum base s' (acc * base + d)
      | None => acc
      end
  end.

(** What follows the digits at the head of [s]. *)
Fixpoint skip_digits (base : Z) (s : string) : string :=
  match s with
  | "" => ""
  | String c s' =>
      match digit_val base c with
      | Some _ => skip_digits base s'
      | None => s
      end
  end.

Definition starts_with_digit (base : Z) (s : string) : bool :=
  match s with
  | String c _ => match digit_val base c with Some _ => true | None => false end
  | "" => false
  end.

(** An optional sign: [(negative, rest)]. *)
Definition read_sign (s : string) : bool * string :=
  match s with
  | String "-" s' => (true, s')
  | String "+" s' => (false, s')
  | _ => (false, s)
  end.

(** A ["0x"] or ["0X"] prefix. *)
Definition hex_prefix (s : string) : option string :=
  match s with
  | String "0" (String "x" s') => Some s'
  | String "0" (String "X" s') => Some s'
  | _ => None
  end.

(** [strtoul(s, NULL, 0)]: white space, sign, base from the prefix (16
    after ["0x"], 8 after a ['0'], the only digit of "base 1", 10
    otherwise), digits; a value out of range is [ULONG_MAX]; a minus sign
    negates modulo 2^32; no digits give 0. *)
Definition strtoul0 (s : string) : Z :=
  let (neg, s) := read_sign (lstrip s) in
  let (base, s) :=
    match hex_prefix s with
    | Some s' => (16, s')
    | None => if starts_with_digit 1 s then (8, s) else (10, s)
    end in
  let v := accum base s 0 in
  if ULONG_MAX <? v then ULONG_MAX
  else if neg then uint32_t (- v) else v.

(** [atoi(s)], that is [(int)strtol(s, NULL, 10)]: the value saturates at
    [LONG_MIN] and [LONG_MAX]. *)
Definition atoi (s : string) : Z :=
  let (neg, s) := read_sign (lstrip s) in
  let v := accum 10 s 0 in
  if neg then (if - LONG_MIN <? v then LONG_MIN else - v)
  else (if LONG_MAX <? v then LONG_MAX else v).

(** One [%x] directive of [sscanf]: white space, sign, optional prefix, at
    least one hexadecimal digit.  The result is the value stored in the
    [int] and the rest of the input; [None] is a matching failure. *)
Definition scan_hex (s : string) : option (Z * string) :=
  let (neg, s) := read_sign (lstrip s) in
  let s := match hex_prefix s with
           | Some s' => if starts_with_digit 16 s' then s' else s
           | None => s
           end in
  if starts_with_digit 16 s then
    let v := accum 16 s 0 in
    let v := if ULONG_MAX <? v then ULONG_MAX
             else if neg then uint32_t (- v) else v in
    Some (v, skip_digits 16 s)
  else None.

(** A literal [':'] of the format. *)
Definition scan_colon (s : string) : option string :=
  match s with
  | String ":" s' => Some s'
  | _ => None
  end.

(** [sscanf(str, "%x:%x:%x:%x:%x:%x", ...)]: the values converted before
    the first failure, at most [n + 1] of them. *)
Fixpoint sscanf_mac (n : nat) (str : string) : list Z :=
  match scan_hex str with
  | None => []
  | Some (v, rest) =>
      match n with
      | O => [v]
      | S n' =>
          match scan_colon rest with
          | Some rest' => v :: sscanf_mac n' rest'
          | None => [v]
          end
      end
  end.

(** [parseMacAddress]: the new contents of [mac] when six values were
    converted, [None] (and [mac] untouched) otherwise. *)
Definition parseMacAddress (str : string) : option (list Z) :=
  let values := sscanf_mac 5 str in
  if (List.length values =? 6)%nat then Some (map uint8_t values) else None.

Definition parseBool (str : string) : bool :=
  if strcasecmp_eq str "true" || strcmp_eq str "1" then true else false.

(* ================================================================== *)
(** ** Integer formatting of the C library *)

Definition digit_char (d : Z) : ascii := ascii_of_N (Z.to_N (48 + d)).

(** Upper-case hexadecimal digit, as [%X] prints it. *)
Definition hex_char (d : Z) : ascii :=
  if d <? 10 then digit_char d else ascii_of_N (Z.to_N (55 + d)).

(** The decimal digits of [n], most significant first, in front of [acc]. *)
Fixpoint digits_onto (fuel : nat) (n : Z) (acc : string) : string :=
  match fuel with
  | O => acc
  | S fuel' =>
      let acc' := String (digit_char (n mod 10)) acc in
      if n <? 10 then acc' else digits_onto fuel' (n / 10) acc'
  end.

(** [%u]. *)
Definition print_uint (n : Z) : string :=
  digits_onto (S (Z.to_nat (Z.log2 n))) n "".

(** [%d]. *)
Definition print_int (n : Z) : string :=
  if n <? 0 then String "-" (print_uint (- n)) else print_uint n.

(** [%02X] of a byte. *)
Definition print_hex2 (b : Z) : string :=
  String (hex_char (b / 16)) (String (hex_char (b mod 16)) "").

(* ================================================================== *)
(** ** Floating-point conversions of the C library *)

(** The integer nearest to [p / q], ties to even ([0 <= p], [0 < q]). *)
Definition round_half_even (p q : Z) : Z :=
  let d := p / q in
  let r := p mod q in
  if 2 * r <? q then d
  else if q <? 2 * r then d + 1
  else if Z.even d then d else d + 1.

(** [q * 2^k <= p], for any sign of [k]. *)
Definition ge_pow2 (p q k : Z) : bool :=
  if 0 <=? k then q * 2 ^ k <=? p else q <=? p * 2 ^ (- k).

(** The value of the binary format of precision [prec] and exponent bound
    [emax] nearest to the rational [p / q] ([0 < p], [0 < q]), with the
    sign [s]: round to nearest, ties to even, gradual underflow, overflow
    to infinity. *)
Definition round_binary (prec emax : Z) (s : bool) (p q : Z) : spec_float :=
  let emin := 3 - emax - prec in
  let l := Z.log2 p - Z.log2 q in
  let fl := if ge_pow2 p q l then l else l - 1 in
  let e := Z.max (fl - prec + 1) emin in
  let m := if 0 <=? e then round_half_even p (q * 2 ^ e)
           else round_half_even (p * 2 ^ (- e)) q in
  let (m, e) := if m =? 2 ^ prec then (2 ^ (prec - 1), e + 1) else (m, e) in
  if m =? 0 then S754_zero s
  else if emax <? e + prec then S754_infinity s
  else S754_finite s (Z.to_pos m) e.

(** The bits of a binary32 value.  [spec_float] has a single NaN: the sign
    bit of a NaN is given beside it, and the NaN is the quiet one (the
    conversion of a [double] NaN to [float] keeps its sign). *)
Definition f32_encode (nan_sign : bool) (f : spec_float) : float32 :=
  let sign (s : bool) := if s then 0x80000000 else 0 in
  match f with
  | S754_zero s => sign s
  | S754_infinity s => sign s + 0x7F800000
  | S754_nan => sign nan_sign + f32_nan
  | S754_finite s m e =>
      if Z.pos m <? 8388608 then sign s + Z.pos m
      else sign s + (e + 150) * 8388608 + (Z.pos m - 8388608)
  end.

(** Conversion of a [double] to [float]. *)
Definition double_to_float (d : spec_float) : spec_float :=
  match d with
  | S754_finite s m e =>
      if 0 <=? e then round_binary 24 128 s (Z.pos m * 2 ^ e) 1
      else round_binary 24 128 s (Z.pos m) (2 ^ (- e))
  | _ => d
  end.

Definition digit_count (base : Z) (s : string) : Z :=
  Z.of_nat (String.length s - String.length (skip_digits base s)).

(** An exponent part: the letter [mark] (either case), an optional sign and
    at least one decimal digit; 0 when there is none. *)
Definition read_exponent (mark : ascii) (s : string) : Z :=
  match s with
  | String c s' =>
      if Ascii.eqb (tolower c) mark then
        let (neg, s'') := read_sign s' in
        if starts_with_digit 10 s'' then
          (if neg then - accum 10 s'' 0 else accum 10 s'' 0)
        else 0
      else 0
  | "" => 0
  end.

(** The rational [n * base ^ k] rounded to [double]. *)
Definition scaled_double (s : bool) (n base k : Z) : spec_float :=
  if n =? 0 then S754_zero s
  else if 0 <=? k then round_binary 53 1024 s (n * base ^ k) 1
  else round_binary 53 1024 s n (base ^ (- k)).

(** A mantissa in the given base: digits, an optional point, digits.
    [Some (n, k, rest)]: the digits read as one integer [n], the number [k]
    of them after the point, and what follows; [None] without any digit. *)
Definition read_mantissa (base : Z) (s : string)
  : option (Z * Z * string) :=
  let n1 := accum base s 0 in
  let k1 := digit_count base s in
  let r1 := skip_digits base s in
  match r1 with
  | String "." r2 =>
      let k2 := digit_count base r2 in
      if (k1 =? 0) && (k2 =? 0) then None
      else Some (accum base r2 n1, k2, skip_digits base r2)
  | _ => if k1 =? 0 then None else Some (n1, 0, r1)
  end.

(** [strtod(s, NULL)]: white space, sign, then an infinity, a NaN, a
    hexadecimal or a decimal floating constant.  Without a subject sequence
    of one of these forms no conversion is performed and the result is
    zero.  After a minus sign the result is negated, a NaN too ("-nan" has
    the sign bit set): the result is the value and the sign bit of a
    NaN.  The NaN is the default one: the characters an n-char-sequence
    may add after "nan" are not looked at. *)
Definition strtod (s : string) : spec_float * bool :=
  let (neg, s) := read_sign (lstrip s) in
  if String.prefix "inf" (lower s) then (S754_infinity neg, neg)
  else if String.prefix "nan" (lower s) then (S754_nan, neg)
  else
    match match hex_prefix s with
          | Some s' => read_mantissa 16 s'
          | None => None
          end with
    | Some (n, k, rest) =>
        (scaled_double neg n 2 (read_exponent "p" rest - 4 * k), neg)
    | None =>
        match read_mantissa 10 s with
        | Some (n, k, rest) =>
            (scaled_double neg n 10 (read_exponent "e" rest - k), neg)
        | None => (S754_zero false, false)
        end
    end.

(** [atof(value)] assigned to a [float]. *)
Definition atof (s : string) : float32 :=
  let (d, nan_sign) := strtod s in
  f32_encode nan_sign (double_to_float d).

(** [%.2f] of a [float] (promoted to [double], which is exact). *)
Definition printf_2f (x : float32) : string :=
  let sign := if f32_sign x then "-" else "" in
  match f32_decode x with
  | S754_nan => sign ++ "nan"
  | S754_infinity _ => sign ++ "inf"
  | S754_zero _ => sign ++ "0.00"
  | S754_finite _ m e =>
      let n := if 0 <=? e then Z.pos m * 2 ^ e * 100
               else round_half_even (Z.pos m * 100) (2 ^ (- e)) in
      sign ++ print_uint (n / 100) ++ "."
        ++ String (digit_char (n / 10 mod 10))
             (String (digit_char (n mod 10)) "")
  end.

(* ================================================================== *)
(** ** The backing store (LittleFS) and the manager *)

Record FileSystem := mkFileSystem {
  fs_mount : bool -> bool;            (* LittleFS.begin(formatOnFail) *)
  fs_root_opens : bool;               (* LittleFS.open("/") gives a file *)
  fs_root_isDirectory : bool;         (* root.isDirectory() *)
  fs_names : list string;             (* file.name() of the entries of "/" *)
  fs_read : string -> option string;  (* open(filename, "r"): the content *)
  fs_writable : string -> bool        (* open(filename, "w") gives a file *)
}.

(** The store after a file has been written and closed. *)
Definition fs_write (fs : FileSystem) (filename text : string) : FileSystem :=
  mkFileSystem (fs_mount fs) (fs_root_opens fs) (fs_root_isDirectory fs)
    (fs_names fs)
    (fun f => if String.eqb f filename then Some text else fs_read fs f)
    (fs_writable fs).

(** The private members of [DiceConfigManager].  [_config_padding] holds
    the padding bytes of the member object [_config]. *)
Record Manager := mkManager {
  _config : DiceConfig;
  _config_padding : nat -> Z;
  _configPath : string;               (* char _configPath[64] *)
  _lastError : string;                (* char _lastError[128] *)
  _verbose : bool
}.

Definition set_config (c : DiceConfig) (m : Manager) : Manager :=
  mkManager c (_config_padding m) (_configPath m) (_lastError m) (_verbose m).
Definition set_configPath (p : string) (m : Manager) : Manager :=
  mkManager (_config m) (_config_padding m) p (_lastError m) (_verbose m).

Definition setError (error : string) (m : Manager) : Manager :=
  mkManager (_config m) (_config_padding m) (_configPath m)
    (truncate 127 error) (_verbose m).

Definition setDefaults (m : Manager) : Manager :=
  set_config (initDefaultConfig (_config m)) m.

(** The constructor, on an object whose storage holds [mem] and [pad]. *)
Definition DiceConfigManager (mem : DiceConfig) (pad : nat -> Z) : Manager :=
  mkManager (initDefaultConfig mem) pad "/config.txt" "" false.

(* ------------------------------------------------------------------ *)
(** *** load *)

(** [Stream::readBytesUntil('\n', buffer, length)]: the bytes stored and
    what is left of the stream; the terminator is consumed, not stored. *)
Fixpoint readBytesUntil (length : nat) (s : string) : string * string :=
  match length with
  | O => ("", s)
  | S n =>
      match s with
      | "" => ("", "")
      | String c s' =>
          if Ascii.eqb c LF then ("", s')
          else let (b, r) := readBytesUntil n s' in (String c b, r)
      end
  end.

(** [if (len > 0 && line[len - 1] == '\r') line[len - 1] = '\0';] *)
Fixpoint strip_cr (buf : string) : string :=
  match buf with
  | "" => ""
  | String c "" => if Ascii.eqb c CR then "" else buf
  | String c s' => String c (strip_cr s')
  end.

(** The key dispatch of [load]. *)
Definition assign (key value : string) (c : DiceConfig) : DiceConfig :=
  if strcmp_eq key "diceId" then
    set_diceId (strncpy_buf 15 value) c
  else if strcmp_eq key "deviceA_mac" then
    match parseMacAddress value with
    | Some mac => set_deviceA_mac mac c
    | None => c
    end
  else if strcmp_eq key "deviceB1_mac" then
    match parseMacAddress value with
    | Some mac => set_deviceB1_mac mac c
    | None => c
    end
  else if strcmp_eq key "deviceB2_mac" then
    match parseMacAddress value with
    | Some mac => set_deviceB2_mac mac c
    | None => c
    end
  else if strcmp_eq key "x_background" then
    set_x_background (uint16_t (strtoul0 value)) c
  else if strcmp_eq key "y_background" then
    set_y_background (uint16_t (strtoul0 value)) c
  else if strcmp_eq key "z_background" then
    set_z_background (uint16_t (strtoul0 value)) c
  else if strcmp_eq key "entang_ab1_color" then
    set_entang_ab1_color (uint16_t (strtoul0 value)) c
  else if strcmp_eq key "entang_ab2_color" then
    set_entang_ab2_color (uint16_t (strtoul0 value)) c
  else if strcmp_eq key "rssiLimit" then
    set_rssiLimit (int8_t (atoi value)) c
  else if strcmp_eq key "isSMD" then
    set_isSMD (parseBool value) c
  else if strcmp_eq key "isNano" then
    set_isNano (parseBool value) c
  else if strcmp_eq key "alwaysSeven" then
    set_alwaysSeven (parseBool value) c
  else if strcmp_eq key "randomSwitchPoint" then
    set_randomSwitchPoint (uint8_t (atoi value)) c
  else if strcmp_eq key "tumbleConstant" then
    set_tumbleConstant (atof value) c
  else if strcmp_eq key "deepSleepTimeout" then
    set_deepSleepTimeout (strtoul0 value) c
  else if strcmp_eq key "checksum" then
    set_checksum (uint8_t (atoi value)) c
  else c.

(** The body of the [while] loop of [load] on the bytes [buf] that
    [readBytesUntil] stored in [line]. *)
Definition load_line (buf : string) (c : DiceConfig) : DiceConfig :=
  let line := trim (c_str (chars (strip_cr buf))) in
  match line with
  | "" => c
  | String "#" _ => c
  | _ =>
      match split_eq line with
      | None => c
      | Some (key, value) => assign (trim key) (trim value) c
      end
  end.

(** The [while (file.available())] loop.  Every iteration consumes at
    least one byte, so [fuel] = number of bytes left is enough. *)
Fixpoint load_loop (fuel : nat) (rest : string) (c : DiceConfig)
  : DiceConfig :=
  match fuel with
  | O => c
  | S fuel' =>
      match rest with
      | "" => c
      | _ =>
          let (buf, rest') := readBytesUntil 127 rest in
          load_loop fuel' rest' (load_line buf c)
      end
  end.

(** The text codec's decode: the record after the loop. *)
Definition decode (content : string) (c : DiceConfig) : DiceConfig :=
  load_loop (String.length content) content c.

Definition load (fs : FileSystem) (m : Manager) (filename : string)
  : bool * Manager :=
  match fs_read fs filename with
  | None => (false, setError "Failed to open config file" m)
  | Some content =>
      let m := set_config (decode content (_config m)) m in
      if negb (checksum (_config m) =? 0) then
        if negb (validateChecksum (_config_padding m) (_config m))
        then (false, setError "Checksum validation failed" m)
        else (true, m)
      else (true, m)
  end.

(* ------------------------------------------------------------------ *)
(** *** save *)

Definition nl : string := String LF "".
Definition crlf : string := String CR (String LF "").

(** [file.println(s)] and [file.printf("...\n", ...)]. *)
Definition println (s : string) : string := s ++ crlf.
Definition printfln (s : string) : string := s ++ nl.

Definition macToString (mac : list Z) : string :=
  print_hex2 (nth 0 mac 0) ++ ":" ++ print_hex2 (nth 1 mac 0) ++ ":"
  ++ print_hex2 (nth 2 mac 0) ++ ":" ++ print_hex2 (nth 3 mac 0) ++ ":"
  ++ print_hex2 (nth 4 mac 0) ++ ":" ++ print_hex2 (nth 5 mac 0).

Definition print_bool (b : bool) : string := if b then "true" else "false".

(** The text codec's encode: everything [save] writes to the file. *)
Definition encode (c : DiceConfig) : string :=
  println "# Dice Configuration File"
  ++ println "# Auto-generated - Edit with care"
  ++ println ""
  ++ println "# Device Identification"
  ++ printfln ("diceId=" ++ c_str (diceId c))
  ++ println ""
  ++ println "# Device MAC Addresses (format: AA:BB:CC:DD:EE:FF)"
  ++ printfln ("deviceA_mac=" ++ macToString (deviceA_mac c))
  ++ printfln ("deviceB1_mac=" ++ macToString (deviceB1_mac c))
  ++ printfln ("deviceB2_mac=" ++ macToString (deviceB2_mac c))
  ++ println ""
  ++ println "# Display Colors (16-bit RGB565 format)"
  ++ printfln ("x_background=" ++ print_uint (x_background c))
  ++ printfln ("y_background=" ++ print_uint (y_background c))
  ++ printfln ("z_background=" ++ print_uint (z_background c))
  ++ printfln ("entang_ab1_color=" ++ print_uint (entang_ab1_color c))
  ++ printfln ("entang_ab2_color=" ++ print_uint (entang_ab2_color c))
  ++ println ""
  ++ println "# RSSI Settings"
  ++ printfln ("rssiLimit=" ++ print_int (rssiLimit c))
  ++ println ""
  ++ println "# Hardware Configuration"
  ++ printfln ("isSMD=" ++ print_bool (isSMD c))
  ++ printfln ("isNano=" ++ print_bool (isNano c))
  ++ printfln ("alwaysSeven=" ++ print_bool (alwaysSeven c))
  ++ println ""
  ++ println "# Operational Parameters"
  ++ printfln ("randomSwitchPoint=" ++ print_uint (randomSwitchPoint c))
  ++ printfln ("tumbleConstant=" ++ printf_2f (tumbleConstant c))
  ++ printfln ("deepSleepTimeout=" ++ print_uint (deepSleepTimeout c))
  ++ println ""
  ++ println "# Checksum (auto-calculated)"
  ++ printfln ("checksum=" ++ print_uint (checksum c)).

Definition save (fs : FileSystem) (m : Manager) (filename : string)
  : bool * Manager * FileSystem :=
  let m := set_config (calculateChecksum (_config_padding m) (_config m)) m in
  if negb (fs_writable fs filename)
  then (false, setError "Failed to open config file for writing" m, fs)
  else (true, m, fs_write fs filename (encode (_config m))).

(* ------------------------------------------------------------------ *)
(** *** validate *)

Definition validate (m : Manager) : bool :=
  let c := _config m in
  let valid := true in
  let valid := if (strlen (diceId c) =? 0)%nat then false else valid in
  let valid := if 100 <? randomSwitchPoint c then false else valid in
  let valid := if f32_le_zero (tumbleConstant c) then false else valid in
  let valid :=
    if negb (checksum c =? 0) && negb (validateChecksum (_config_padding m) c)
    then false else valid in
  valid.

(* ------------------------------------------------------------------ *)
(** *** findConfigFile and begin *)

(** [String::endsWith]. *)
Definition endsWith (s suffix : string) : bool :=
  let n := String.length s in
  let k := String.length suffix in
  if (n <? k)%nat then false
  else String.eqb (substring (n - k) k s) suffix.

(** The scan of the directory: [(matchCount, firstMatch)] after the loop;
    [firstMatch] is a buffer of 64 bytes. *)
Definition scan_step (st : Z * string) (filename : string) : Z * string :=
  let (matchCount, firstMatch) := st in
  if endsWith filename "_config.txt" then
    let matchCount := matchCount + 1 in
    (matchCount,
     if matchCount =? 1 then truncate 63 filename else firstMatch)
  else st.

(** [findConfigFile(foundPath, maxLen)]: the text stored in [foundPath]
    when the result is [true], [None] when it is [false]. *)
Definition findConfigFile (fs : FileSystem) (m : Manager) (maxLen : nat)
  : option string * Manager :=
  if negb (fs_root_opens fs) then (None, m)
  else if negb (fs_root_isDirectory fs) then (None, m)
  else
    let (matchCount, firstMatch) := fold_left scan_step (fs_names fs) (0, "") in
    if matchCount =? 1 then
      match firstMatch with
      | String "/" _ => (Some (truncate (maxLen - 1) firstMatch), m)
      | _ => (Some (truncate (maxLen - 1) ("/" ++ firstMatch)), m)
      end
    else if matchCount =? 0 then
      (None, setError "No *_config.txt file found" m)
    else
      (None, setError "Multiple *_config.txt files found" m).

(** [begin(configPath, formatOnFail)]; [None] is the [nullptr] default. *)
Definition begin (fs : FileSystem) (m : Manager) (configPath : option string)
                 (formatOnFail : bool) : bool * Manager :=
  if negb (fs_mount fs formatOnFail)
  then (false, setError "LittleFS mount failed" m)
  else
    let try_load (m : Manager) : bool * Manager :=
      let (loaded, m) := load fs m (_configPath m) in
      if negb loaded then (true, setDefaults m) else (true, m) in
    match configPath with
    | None =>
        match findConfigFile fs m 64 with
        | (Some foundPath, m) => try_load (set_configPath foundPath m)
        | (None, m) => (true, setDefaults (set_configPath "/config.txt" m))
        end
    | Some path => try_load (set_configPath (truncate 63 path) m)
    end.

(** A manager holding the record [c], with zeroed padding. *)
Definition manager_of (c : DiceConfig) : Manager :=
  mkManager c zero_pad "/config.txt" "" false.

(* ------------------------------------------------------------------ *)
(** *** The other public methods *)

(** [load()] and [save()] without argument use [_configPath]. *)
Definition load_current (fs : FileSystem) (m : Manager) : bool * Manager :=
  load fs m (_configPath m).

Definition save_current (fs : FileSystem) (m : Manager)
  : bool * Manager * FileSystem :=
  save fs m (_configPath m).

Definition getConfig (m : Manager) : DiceConfig := _config m.
Definition getLastError (m : Manager) : string := _lastError m.
Definition getConfigPath (m : Manager) : string := _configPath m.

Definition setVerbose (enabled : bool) (m : Manager) : Manager :=
  mkManager (_config m) (_config_padding m) (_configPath m) (_lastError m)
    enabled.

(** [setDiceId]: [strncpy] of 15 bytes and a terminator in the last cell. *)
Definition setDiceId (id : string) (m : Manager) : Manager :=
  set_config (set_diceId (strncpy_buf 15 id) (_config m)) m.

(** [memcpy(_config.deviceA_mac, mac, 6)]: the first six bytes of the
    caller's array. *)
Definition setDeviceAMac (mac : list Z) (m : Manager) : Manager :=
  set_config (set_deviceA_mac (firstn 6 mac) (_config m)) m.
Definition setDeviceB1Mac (mac : list Z) (m : Manager) : Manager :=
  set_config (set_deviceB1_mac (firstn 6 mac) (_config m)) m.
Definition setDeviceB2Mac (mac : list Z) (m : Manager) : Manager :=
  set_config (set_deviceB2_mac (firstn 6 mac) (_config m)) m.

Definition setRssiLimit (limit : Z) (m : Manager) : Manager :=
  set_config (set_rssiLimit limit (_config m)) m.
Definition setIsSMD (value : bool) (m : Manager) : Manager :=
  set_config (set_isSMD value (_config m)) m.
Definition setIsNano (value : bool) (m : Manager) : Manager :=
  set_config (set_isNano value (_config m)) m.
Definition setAlwaysSeven (value : bool) (m : Manager) : Manager :=
  set_config (set_alwaysSeven value (_config m)) m.

(* ================================================================== *)
(** ** Definitions used in the statements *)

(** Sample stores: an empty one on which every file can be created, *)
Definition fs_empty : FileSystem :=
  mkFileSystem (fun _ => true) true true [] (fun _ => None) (fun _ => true).

(** one on which nothing can be opened for writing, *)
Definition fs_read_only : FileSystem :=
  mkFileSystem (fun _ => true) true true [] (fun _ => None) (fun _ => false).

(** The store after the default record has been saved. *)
Definition fs_saved_default : FileSystem :=
  mkFileSystem (fun _ => true) true true ["a_config.txt"]
    (fun _ => Some (encode (set_checksum 212 default_config)))
    (fun _ => true).

(** The test of the loop of [findConfigFile]. *)
Definition is_config_name (filename : string) : bool :=
  endsWith filename "_config.txt".

(** The path the specification describes: the name, with a ["/"] in front
    unless it has one. *)
Definition normalized (name : string) : string :=
  match name with
  | String "/" _ => name
  | _ => "/" ++ name
  end.

(** A name of 63 characters ending in ["_config.txt"], and a store whose
    root holds only that entry. *)
Definition long_name : string :=
  "aaaaaaaaaaaaaaaaaaaaaaaaaaaaaaaaaaaaaaaaaaaaaaaaaaaa_config.txt".

Definition fs_long_name : FileSystem :=
  mkFileSystem (fun _ => true) true true [long_name]
    (fun _ => None) (fun _ => true).

(** A root with one matching name among others, and one with two. *)
Definition fs_one_config : FileSystem :=
  mkFileSystem (fun _ => true) true true ["notes.txt"; "a_config.txt"]
    (fun _ => None) (fun _ => true).

(** The output of the default policy, member by member ([diceId] as the
    C string it holds). *)
Definition default_values (c : DiceConfig) : Prop :=
  c_str (diceId c) = "DEFAULT"
  /\ deviceA_mac c = [0; 0; 0; 0; 0; 0]
  /\ deviceB1_mac c = [0; 0; 0; 0; 0; 0]
  /\ deviceB2_mac c = [0; 0; 0; 0; 0; 0]
  /\ x_background c = 0xF800
  /\ y_background c = 0x07E0
  /\ z_background c = 0x001F
  /\ entang_ab1_color c = 0xFFFF
  /\ entang_ab2_color c = 0
  /\ rssiLimit c = -70
  /\ isSMD c = false /\ isNano c = false /\ alwaysSeven c = false
  /\ randomSwitchPoint c = 50
  /\ tumbleConstant c = f32_2_5
  /\ deepSleepTimeout c = 300000
  /\ checksum c = 0.

(** A record is an output of the default policy: [initDefaultConfig] left
    it so, and hence it holds the default values. *)
Definition is_default_output (c : DiceConfig) : Prop :=
  (exists c0, c = initDefaultConfig c0) /\ default_values c.

(** The manager with which [begin] reaches its call of [load], if it does:
    the path given, or the one discovered, stored in [_configPath]. *)
Definition load_attempt (fs : FileSystem) (m : Manager)
                        (configPath : option string) : option Manager :=
  match configPath with
  | None =>
      match findConfigFile fs m 64 with
      | (Some foundPath, m') => Some (set_configPath foundPath m')
      | (None, _) => None
      end
  | Some path => Some (set_configPath (truncate 63 path) m)
  end.

Definition fs_two_configs : FileSystem :=
  mkFileSystem (fun _ => true) true true ["a_config.txt"; "b_config.txt"]
    (fun _ => None) (fun _ => true).

Inductive Field :=
| F_diceId | F_deviceA_mac | F_deviceB1_mac | F_deviceB2_mac
| F_x_background | F_y_background | F_z_background
| F_entang_ab1_color | F_entang_ab2_color | F_rssiLimit
| F_isSMD | F_isNano | F_alwaysSeven | F_randomSwitchPoint
| F_tumbleConstant | F_deepSleepTimeout | F_checksum.

(** Two records hold the same value in the member [f]. *)
Definition same_field (f : Field) (c1 c2 : DiceConfig) : Prop :=
  match f with
  | F_diceId => diceId c1 = diceId c2
  | F_deviceA_mac => deviceA_mac c1 = deviceA_mac c2
  | F_deviceB1_mac => deviceB1_mac c1 = deviceB1_mac c2
  | F_deviceB2_mac => deviceB2_mac c1 = deviceB2_mac c2
  | F_x_background => x_background c1 = x_background c2
  | F_y_background => y_background c1 = y_background c2
  | F_z_background => z_background c1 = z_background c2
  | F_entang_ab1_color => entang_ab1_color c1 = entang_ab1_color c2
  | F_entang_ab2_color => entang_ab2_color c1 = entang_ab2_color c2
  | F_rssiLimit => rssiLimit c1 = rssiLimit c2
  | F_isSMD => isSMD c1 = isSMD c2
  | F_isNano => isNano c1 = isNano c2
  | F_alwaysSeven => alwaysSeven c1 = alwaysSeven c2
  | F_randomSwitchPoint => randomSwitchPoint c1 = randomSwitchPoint c2
  | F_tumbleConstant => tumbleConstant c1 = tumbleConstant c2
  | F_deepSleepTimeout => deepSleepTimeout c1 = deepSleepTimeout c2
  | F_checksum => checksum c1 = checksum c2
  end.

(** The member that [assign key value] writes, if it writes one. *)
Definition assigned_member (key value : string) : option Field :=
  let mac (f : Field) :=
    match parseMacAddress value with Some _ => Some f | None => None end in
  if strcmp_eq key "diceId" then Some F_diceId
  else if strcmp_eq key "deviceA_mac" then mac F_deviceA_mac
  else if strcmp_eq key "deviceB1_mac" then mac F_deviceB1_mac
  else if strcmp_eq key "deviceB2_mac" then mac F_deviceB2_mac
  else if strcmp_eq key "x_background" then Some F_x_background
  else if strcmp_eq key "y_background" then Some F_y_background
  else if strcmp_eq key "z_background" then Some F_z_background
  else if strcmp_eq key "entang_ab1_color" then Some F_entang_ab1_color
  else if strcmp_eq key "entang_ab2_color" then Some F_entang_ab2_color
  else if strcmp_eq key "rssiLimit" then Some F_rssiLimit
  else if strcmp_eq key "isSMD" then Some F_isSMD
  else if strcmp_eq key "isNano" then Some F_isNano
  else if strcmp_eq key "alwaysSeven" then Some F_alwaysSeven
  else if strcmp_eq key "randomSwitchPoint" then Some F_randomSwitchPoint
  else if strcmp_eq key "tumbleConstant" then Some F_tumbleConstant
  else if strcmp_eq key "deepSleepTimeout" then Some F_deepSleepTimeout
  else if strcmp_eq key "checksum" then Some F_checksum
  else None.

(** The key and the value [load_line] passes to the dispatch, if the line
    gets there. *)
Definition line_key_value (buf : string) : option (string * string) :=
  let line := trim (c_str (chars (strip_cr buf))) in
  match line with
  | "" => None
  | String "#" _ => None
  | _ =>
      match split_eq line with
      | None => None
      | Some (key, value) => Some (trim key, trim value)
      end
  end.

Definition line_member (buf : string) : option Field :=
  match line_key_value buf with
  | Some (key, value) => assigned_member key value
  | None => None
  end.

(** The members written by the lines of a file, read as [load_loop]
    reads them. *)
Fixpoint assigned_loop (fuel : nat) (rest : string) : list Field :=
  match fuel with
  | O => []
  | S fuel' =>
      match rest with
      | "" => []
      | _ =>
          let (buf, rest') := readBytesUntil 127 rest in
          match line_member buf with
          | Some f => f :: assigned_loop fuel' rest'
          | None => assigned_loop fuel' rest'
          end
      end
  end.

Definition assigned_members (content : string) : list Field :=
  assigned_loop (String.length content) content.

(** A file that sets one key only, and a store holding it. *)
Definition partial_file : string := "# only one key" ++ nl ++ "rssiLimit=-55" ++ nl.

Definition fs_partial : FileSystem :=
  mkFileSystem (fun _ => true) true true ["a_config.txt"]
    (fun _ => Some partial_file) (fun _ => true).

(** Every character of [s] satisfies [p]. *)
Fixpoint all_chars (p : ascii -> bool) (s : string) : bool :=
  match s with
  | "" => true
  | String c s' => p c && all_chars p s'
  end.

Definition not_LF (c : ascii) : bool := negb (Ascii.eqb c LF).
Definition not_NUL (c : ascii) : bool := negb (Ascii.eqb c NUL).
Definition not_space (c : ascii) : bool := negb (isspace c).
(** Neither white space nor the terminator. *)
Definition plain (c : ascii) : bool := not_space c && not_NUL c.

(** The keys for which [load_line] is studied: no white space, no ['='],
    no terminator, and not a comment. *)
Definition key_char (c : ascii) : bool :=
  plain c && negb (Ascii.eqb c "=").

Definition clean_key (key : string) : bool :=
  match key with
  | "" => false
  | String c _ => negb (Ascii.eqb c "#") && all_chars key_char key
  end.

(** The default record with an identifier that begins with a space. *)
Definition spaced_id_config : DiceConfig :=
  set_diceId (strncpy_buf 15 " A") default_config.




(** The string of [n] characters [c]. *)
Fixpoint replicate (n : nat) (c : ascii) : string :=
  match n with
  | O => ""
  | S n' => String c (replicate n' c)
  end.

(** The text buffers of the manager hold what fits in them: 63 characters
    in [_configPath], 127 in [_lastError]. *)
Definition buffers_fit (m : Manager) : Prop :=
  (String.length (_configPath m) <= 63)%nat
  /\ (String.length (_lastError m) <= 127)%nat.

(** A comment of 127 bytes: as long as the line buffer of [load]. *)
Definition comment_127 : string := String "#" (replicate 126 "-").

(** A store whose root holds one configuration file and another file. *)
Definition fs_one_file : FileSystem :=
  mkFileSystem (fun _ => true) true true ["readme.txt"; "dice_config.txt"]
    (fun f => if String.eqb f "/dice_config.txt"
              then Some ("diceId=BART1" ++ nl ++ "rssiLimit=-55" ++ nl)
              else None)
    (fun _ => true).

(** A file without any assignment, and a store holding it. *)
Definition idle_file : string :=
  "# a comment" ++ nl ++ crlf ++ "colour=red" ++ nl ++ "no separator" ++ nl
  ++ "deviceA_mac=not:an:address" ++ nl.

Definition fs_idle : FileSystem :=
  mkFileSystem (fun _ => true) true true ["a_config.txt"]
    (fun _ => Some idle_file) (fun _ => true).

(** [p / q < 2 ^ k], for any sign of [k], in integers. *)
Definition below_pow2 (p q k : Z) : Prop :=
  if 0 <=? k then p < q * 2 ^ k else p * 2 ^ (- k) < q.

(** Powers of two as rationals, for the properties of the roundings. *)
Definition Q2 (e : Z) : Q := (2 ^ e)%Q.

(** The rational [p / q], through its defining equation. *)
Definition ratio (p q : Z) (P : Q) : Prop := (P * inject_Z q == inject_Z p)%Q.

(** The magnitude of a finite number. *)
Definition SFabs (f : spec_float) : Q :=
  match f with
  | S754_finite _ m e => inject_Z (Z.pos m) * Q2 e
  | _ => 0
  end.

(** A zero or a finite number of the format, of sign [s], in the
    representation the format has for it. *)
Definition canonical (prec emax : Z) (s : bool) (f : spec_float) : Prop :=
  match f with
  | S754_zero s' => s' = s
  | S754_finite s' m e =>
      s' = s /\ Z.pos m < 2 ^ prec
      /\ 3 - emax - prec <= e <= emax - prec
      /\ (2 ^ (prec - 1) <= Z.pos m \/ e = 3 - emax - prec)
  | _ => False
  end.

(** The value of a finite [float] in units of 2^-149, the smallest
    positive value of the format: an integer. *)
Definition f32_units (x : float32) : option Z :=
  match f32_decode x with
  | S754_zero _ => Some 0
  | S754_finite s m e =>
      Some ((if s then -1 else 1) * (Z.pos m * 2 ^ (e + 149)))
  | _ => None
  end.

(** [|x - y| <= 1/100] for finite [x] and [y]; an infinity or a NaN is near
    the same bit pattern only. *)
Definition f32_near_hundredth (x y : float32) : bool :=
  match f32_units x, f32_units y with
  | Some a, Some b => 100 * Z.abs (a - b) <=? 2 ^ 149
  | None, None => x =? y
  | _, _ => false
  end.

(** The text of a list of decimal digits, and the number obtained by
    writing them after the digits of [a]. *)
Fixpoint digits_text (ds : list Z) : string :=
  match ds with
  | [] => ""
  | d :: ds' => String (digit_char d) (digits_text ds')
  end.

Definition append_digits (a : Z) (ds : list Z) : Z :=
  fold_left (fun acc d => acc * 10 + d) ds a.

Definition is_digit (d : Z) : Prop := 0 <= d < 10.

Definition sign_text (neg : bool) : string := if neg then "-" else "".

(** The decimal [n * 10 ^ (- k)] with the sign [neg], converted as [atof]
    converts: rounded to [double], then to [float]. *)
Definition decimal_float (neg : bool) (n k : Z) : float32 :=
  f32_encode neg (double_to_float (scaled_double neg n 10 (- k))).

(** Any decimal digit. *)
Definition digit_ch (c : ascii) : bool :=
  match digit_val 10 c with Some _ => true | None => false end.


(** A file with a wrong checksum line: with [entang_ab2_color] at 212 the
    members of the default record other than [checksum] XOR to 0, and the
    file says 99.  A store holding that file. *)
Definition wrong_checksum_file : string :=
  "entang_ab2_color=212" ++ nl ++ "checksum=99" ++ nl.

Definition fs_wrong_checksum : FileSystem :=
  mkFileSystem (fun _ => true) true true ["a_config.txt"]
    (fun f => if String.eqb f "/a_config.txt"
              then Some wrong_checksum_file else None)
    (fun _ => true).

(* ================================================================== *)
(** * Properties *)

(** ** Bytes and XOR *)

Lemma lxor_is_byte (a b : Z) : is_byte a -> is_byte b -> is_byte (Z.lxor a b).
Proof.
  unfold is_byte. intros Ha Hb.
  assert (H0 : 0 <= Z.lxor a b) by (apply Z.lxor_nonneg; lia).
  split; [exact H0|].
  destruct (Z.eq_dec (Z.lxor a b) 0) as [E|E]; [lia|].
  apply (Z.log2_lt_pow2 _ 8); [lia|].
  eapply Z.le_lt_trans; [apply Z.log2_lxor; lia|].
  apply Z.max_lub_lt.
  - destruct (Z.eq_dec a 0) as [->|]; [simpl; lia|].
    apply Z.log2_lt_pow2; lia.
  - destruct (Z.eq_dec b 0) as [->|]; [simpl; lia|].
    apply Z.log2_lt_pow2; lia.
Qed.

Lemma uint8_t_id (z : Z) : is_byte z -> uint8_t z = z.
Proof. unfold is_byte, uint8_t. intros. apply Z.mod_small. lia. Qed.

(** On bytes, the [uint8_t] accumulator never truncates. *)
Lemma fold_xor8 (l : list Z) :
  Forall is_byte l -> forall a, is_byte a ->
  fold_left (fun s b => uint8_t (Z.lxor s b)) l a = fold_left Z.lxor l a.
Proof.
  induction 1 as [|x l Hx Hl IH]; intros a Ha; simpl; [reflexivity|].
  rewrite uint8_t_id by (apply lxor_is_byte; assumption).
  apply IH. apply lxor_is_byte; assumption.
Qed.

Lemma firstn_snoc_nth {A} (d : A) (l : list A) :
  forall n, (n < List.length l)%nat ->
  firstn (S n) l = (firstn n l ++ [nth n l d])%list.
Proof.
  induction l as [|x l IH]; intros n Hn; simpl in Hn; [lia|].
  destruct n as [|n]; [reflexivity|].
  change (firstn (S (S n)) (x :: l)) with (x :: firstn (S n) l).
  rewrite IH by lia. reflexivity.
Qed.

(** An indexed [for] loop over the first [n] cells is a fold over them. *)
Lemma loop_firstn {A B} (f : B -> A -> B) (d : A) (l : list A) :
  forall n a, (n <= List.length l)%nat ->
  fold_left (fun s i => f s (nth i l d)) (seq 0 n) a
  = fold_left f (firstn n l) a.
Proof.
  induction n as [|n IH]; intros a Hn; [reflexivity|].
  rewrite seq_S, fold_left_app, (firstn_snoc_nth d) by lia.
  rewrite fold_left_app. simpl. rewrite IH by lia. reflexivity.
Qed.

Lemma xor_fold_from (l : list Z) :
  forall a, fold_left Z.lxor l a = Z.lxor a (xor_fold l).
Proof.
  unfold xor_fold. induction l as [|x l IH]; intros a; simpl.
  - now rewrite Z.lxor_0_r.
  - rewrite IH, (IH x), Z.lxor_assoc. reflexivity.
Qed.

Lemma xor_fold_app (l1 l2 : list Z) :
  xor_fold (l1 ++ l2) = Z.lxor (xor_fold l1) (xor_fold l2).
Proof. unfold xor_fold at 1. rewrite fold_left_app. apply xor_fold_from. Qed.

Lemma xor_fold_cons (x : Z) (l : list Z) :
  xor_fold (x :: l) = Z.lxor x (xor_fold l).
Proof. change (x :: l) with ([x] ++ l)%list. now rewrite xor_fold_app. Qed.

Lemma le_bytes_is_byte (n : nat) (z : Z) : Forall is_byte (le_bytes n z).
Proof.
  unfold le_bytes. apply Forall_forall. intros x Hx.
  apply in_map_iff in Hx as [i [<- _]].
  unfold is_byte. apply Z.mod_pos_bound. lia.
Qed.

Lemma code_is_byte (c : ascii) : is_byte (code c).
Proof.
  unfold is_byte, code. pose proof (N_ascii_bounded c). lia.
Qed.

Lemma b2z_is_byte (b : bool) : is_byte (Z.b2z b).
Proof. destruct b; unfold is_byte; simpl; lia. Qed.

(** ** The layout of [DiceConfig] *)

(** [sizeof(DiceConfig)] is 64, and [checksum] is not the last byte of
    the object: it sits at offset 60, before three bytes of tail padding;
    three more padding bytes precede [tumbleConstant]. *)
Lemma sizeof_DiceConfig_64 : sizeof_DiceConfig = 64%nat.
Proof. reflexivity. Qed.

Lemma offsetof_tumbleConstant : Layout.offsetof 0 DiceConfig_decl 14 = 52%nat.
Proof. reflexivity. Qed.

Lemma offsetof_checksum : Layout.offsetof 0 DiceConfig_decl 16 = 60%nat.
Proof. reflexivity. Qed.

Ltac explicit_list H :=
  repeat match type of H with
         | List.length ?l = S _ =>
             destruct l; simpl in H; [discriminate H|];
             apply Nat.succ_inj in H
         | List.length ?l = O =>
             destruct l; simpl in H; [clear H|discriminate H]
         end.

Lemma object_bytes_layout (pad : nat -> Z) (c : DiceConfig) :
  wf_config c ->
  object_bytes pad c
  = (firstn 49 (field_bytes c)
     ++ [pad 49%nat; pad 50%nat; pad 51%nat]
     ++ skipn 49 (field_bytes c)
     ++ [checksum c]
     ++ [pad 61%nat; pad 62%nat; pad 63%nat])%list.
Proof.
  intros [Hid HA HB1 HB2 _ _ _ _ _ _ _ _ _ _ _ _ _].
  destruct c as [id mA mB1 mB2 x y z e1 e2 rl smd nano seven rsp tc dst ck].
  simpl in Hid, HA, HB1, HB2.
  explicit_list Hid. explicit_list HA. explicit_list HB1. explicit_list HB2.
  reflexivity.
Qed.

Lemma field_bytes_length (c : DiceConfig) :
  wf_config c -> List.length (field_bytes c) = 57%nat.
Proof.
  intros [Hid HA HB1 HB2 _ _ _ _ _ _ _ _ _ _ _ _ _].
  unfold field_bytes. repeat rewrite length_app. rewrite length_map.
  rewrite Hid, HA, HB1, HB2. reflexivity.
Qed.

Lemma field_bytes_is_byte (c : DiceConfig) :
  wf_config c -> Forall is_byte (field_bytes c).
Proof.
  intros Hwf. unfold field_bytes.
  repeat (apply Forall_app; split);
    try apply le_bytes_is_byte;
    try (apply Forall_cons; [|apply Forall_nil]);
    try apply b2z_is_byte;
    try (destruct Hwf; assumption).
  - apply Forall_forall. intros x Hx. apply in_map_iff in Hx as [a [<- _]].
    apply code_is_byte.
  - unfold is_byte, uint8_t. apply Z.mod_pos_bound. lia.
Qed.

(** What the loop of [calculateChecksum] computes: the XOR of the bytes of
    the other members, of five padding bytes, and of the [checksum] member
    as it was on entry. *)
Lemma calculateChecksum_value (pad : nat -> Z) (c : DiceConfig) :
  wf_config c -> (forall i, is_byte (pad i)) ->
  checksum (calculateChecksum pad c)
  = Z.lxor (Z.lxor (spec_checksum c) (pad_xor pad)) (checksum c).
Proof.
  intros Hwf Hpad.
  unfold calculateChecksum. cbn [checksum set_checksum].
  pose proof (field_bytes_length c Hwf) as Hlen.
  pose proof (field_bytes_is_byte c Hwf) as Hfb.
  rewrite sizeof_DiceConfig_64. change (64 - 1)%nat with 63%nat.
  assert (Hobj : List.length (object_bytes pad c) = 64%nat).
  { rewrite object_bytes_layout by assumption.
    repeat rewrite length_app. rewrite length_firstn, length_skipn, Hlen.
    reflexivity. }
  rewrite (loop_firstn (fun s b => uint8_t (Z.lxor s b))) by (rewrite Hobj; lia).
  rewrite object_bytes_layout by assumption.
  set (A := firstn 49 (field_bytes c)).
  set (B := skipn 49 (field_bytes c)).
  assert (HA : List.length A = 49%nat)
    by (unfold A; rewrite length_firstn, Hlen; reflexivity).
  assert (HB : List.length B = 8%nat)
    by (unfold B; rewrite length_skipn, Hlen; reflexivity).
  assert (Hcut :
    firstn 63 (A ++ [pad 49%nat; pad 50%nat; pad 51%nat] ++ B ++ [checksum c]
                 ++ [pad 61%nat; pad 62%nat; pad 63%nat])
    = (A ++ [pad 49%nat; pad 50%nat; pad 51%nat] ++ B ++ [checksum c]
         ++ [pad 61%nat; pad 62%nat])%list).
  { replace 63%nat
      with (List.length A
            + (List.length [pad 49%nat; pad 50%nat; pad 51%nat]
               + (List.length B + (List.length [checksum c] + 2))))%nat
      by (rewrite HA, HB; reflexivity).
    repeat rewrite firstn_app_2. reflexivity. }
  rewrite Hcut.
  assert (HfAB : Forall is_byte (A ++ B))
    by (unfold A, B; rewrite firstn_skipn; exact Hfb).
  apply Forall_app in HfAB as [HfA HfB].
  rewrite fold_xor8.
  - fold (xor_fold (A ++ [pad 49%nat; pad 50%nat; pad 51%nat] ++ B
                      ++ [checksum c] ++ [pad 61%nat; pad 62%nat])).
    assert (Hspec : spec_checksum c = Z.lxor (xor_fold A) (xor_fold B)).
    { unfold spec_checksum. rewrite <- xor_fold_app. unfold A, B.
      now rewrite firstn_skipn. }
    rewrite Hspec. unfold pad_xor.
    repeat rewrite xor_fold_app. repeat rewrite xor_fold_cons.
    change (xor_fold []) with 0.
    repeat rewrite Z.lxor_0_r.
    generalize (xor_fold A) (xor_fold B) (pad 49%nat) (pad 50%nat)
      (pad 51%nat) (pad 61%nat) (pad 62%nat) (checksum c).
    intros a b p1 p2 p3 p4 p5 k.
    apply Z.bits_inj'. intros n Hn.
    repeat rewrite Z.lxor_spec.
    destruct (Z.testbit a n), (Z.testbit b n), (Z.testbit p1 n),
      (Z.testbit p2 n), (Z.testbit p3 n), (Z.testbit p4 n),
      (Z.testbit p5 n), (Z.testbit k n); reflexivity.
  - repeat (apply Forall_app; split); try assumption;
      repeat (apply Forall_cons; [first [apply Hpad | destruct Hwf; unfold is_byte; lia]|]);
      apply Forall_nil.
  - unfold is_byte. lia.
Qed.

Lemma lxor_cancel_iff (x k : Z) : Z.lxor x k = k <-> x = 0.
Proof.
  split; intros H.
  - assert (E : x = Z.lxor (Z.lxor x k) k)
      by (now rewrite Z.lxor_assoc, Z.lxor_nilpotent, Z.lxor_0_r).
    rewrite H, Z.lxor_nilpotent in E. exact E.
  - subst x. apply Z.lxor_0_l.
Qed.

(** The result of [validateChecksum] does not depend on the stored
    checksum at all: it holds exactly when the other bytes XOR to zero. *)
Lemma validateChecksum_iff (pad : nat -> Z) (c : DiceConfig) :
  wf_config c -> (forall i, is_byte (pad i)) ->
  validateChecksum pad c = true
  <-> Z.lxor (spec_checksum c) (pad_xor pad) = 0.
Proof.
  intros Hwf Hpad. unfold validateChecksum.
  rewrite Z.eqb_eq, calculateChecksum_value by assumption.
  apply lxor_cancel_iff.
Qed.

(** The escape hatch of the callers: a stored checksum of 0 is accepted
    whatever the other members hold. *)
Lemma checksum_zero_accepted (pad : nat -> Z) (c : DiceConfig) :
  checksum c = 0 -> checksum_accepted pad c = true.
Proof. intros H. unfold checksum_accepted. now rewrite H. Qed.

Lemma wf_default_config : wf_config default_config.
Proof.
  split; simpl; try reflexivity; try (unfold f32_2_5; lia);
    repeat (apply Forall_cons; [unfold is_byte; lia|]); apply Forall_nil.
Qed.

Lemma xor_fold_is_byte (l : list Z) :
  Forall is_byte l -> is_byte (xor_fold l).
Proof.
  induction 1 as [|x l Hx Hl IH].
  - unfold is_byte, xor_fold. simpl. lia.
  - rewrite xor_fold_cons. now apply lxor_is_byte.
Qed.

Lemma spec_checksum_set_checksum (v : Z) (c : DiceConfig) :
  spec_checksum (set_checksum v c) = spec_checksum c.
Proof. reflexivity. Qed.

Lemma wf_calculateChecksum (pad : nat -> Z) (c : DiceConfig) :
  wf_config c -> (forall i, is_byte (pad i)) ->
  wf_config (calculateChecksum pad c).
Proof.
  intros Hwf Hpad.
  pose proof (calculateChecksum_value pad c Hwf Hpad) as Hv.
  assert (Hb : is_byte (checksum (calculateChecksum pad c))).
  { rewrite Hv. apply lxor_is_byte; [apply lxor_is_byte|].
    - apply xor_fold_is_byte, field_bytes_is_byte, Hwf.
    - unfold pad_xor. apply xor_fold_is_byte.
      repeat (apply Forall_cons; [apply Hpad|]). apply Forall_nil.
    - destruct Hwf as [_ _ _ _ _ _ _ _ _ _ _ _ _ _ _ _ Hck]. exact Hck. }
  destruct Hwf. split; assumption.
Qed.

(** After [calculateChecksum], [validateChecksum] succeeds only on the
    records whose other bytes happen to XOR to zero. *)
Lemma validateChecksum_after_calculate (pad : nat -> Z) (c : DiceConfig) :
  wf_config c -> (forall i, is_byte (pad i)) ->
  validateChecksum pad (calculateChecksum pad c) = true
  <-> Z.lxor (spec_checksum c) (pad_xor pad) = 0.
Proof.
  intros Hwf Hpad.
  rewrite validateChecksum_iff by (try apply wf_calculateChecksum; assumption).
  unfold calculateChecksum. now rewrite spec_checksum_set_checksum.
Qed.

(** The default record, saved and loaded again: [save] succeeds, [load]
    reports a checksum failure. *)
Lemma saved_default_is_rejected :
  let '(saved, m1, fs1) :=
    save fs_empty (manager_of default_config) "/dice_config.txt" in
  saved = true
  /\ checksum (_config m1) = 212
  /\ load fs1 (manager_of default_config) "/dice_config.txt"
     = (false, setError "Checksum validation failed" m1).
Proof. vm_compute. repeat split. Qed.

(** ** C1, C2: the integrity checker *)

(** C1 (code defect): [validateChecksum] rejects the record obtained from
    the default record by storing the checksum that [calculateChecksum]
    computes for it.  The loop runs over [sizeof(DiceConfig) - 1] = 63
    bytes, and the [checksum] member is byte 60, so the stored value is
    folded into the recomputed one. *)
Theorem C1_computed_checksum_is_rejected :
  let r := default_config in
  let r' := set_checksum (checksum (calculateChecksum zero_pad r)) r in
  checksum r' = 212
  /\ validateChecksum zero_pad r' = false
  /\ checksum_accepted zero_pad r' = false.
Proof. repeat split; vm_compute; reflexivity. Qed.

(** C2 (code defect): on the default record carrying the checksum 212 of
    its other members, [calculateChecksum] stores 0, while the XOR of the
    bytes of those other members is 212. *)
Theorem C2_checksum_folds_its_own_byte :
  let r := set_checksum 212 default_config in
  spec_checksum r = 212
  /\ checksum (calculateChecksum zero_pad r) = 0.
Proof. split; vm_compute; reflexivity. Qed.

(** ** C10: save stores the checksum before it opens the file *)



(** On that input the checksum member goes from 0 to 212 although nothing
    is written. *)
Lemma save_failure_changes_checksum :
  let '(ok, m', _) :=
    save fs_read_only (manager_of default_config) "/config.txt" in
  ok = false /\ checksum (_config m') = 212
  /\ checksum (_config (manager_of default_config)) = 0.
Proof. vm_compute. repeat split. Qed.

(** ** C5: load on a checksum mismatch *)

(** Whenever [load] rejects a file for its checksum, the record of the
    manager is the decoded one: the parse is not rolled back. *)
Lemma load_rejection_keeps_decoded_fields
  (fs : FileSystem) (m : Manager) (filename content : string) :
  fs_read fs filename = Some content ->
  fst (load fs m filename) = false ->
  _config (snd (load fs m filename)) = decode content (_config m)
  /\ _lastError (snd (load fs m filename)) = "Checksum validation failed".
Proof.
  intros Hread. unfold load. rewrite Hread.
  cbn [_config set_config _config_padding].
  destruct (negb (checksum (decode content (_config m)) =? 0));
    [|discriminate].
  destruct (negb (validateChecksum (_config_padding m)
                    (decode content (_config m)))); [|discriminate].
  intros _. split; reflexivity.
Qed.

(** C5 (code defect): [load] accepts a file whose checksum is wrong.  The
    file sets [entang_ab2_color] to 212 and [checksum] to 99.  Over the
    default record the members other than [checksum] then XOR to 0, so the
    decoded checksum 99 is non-zero and does not match the checksum of the
    record, and still [load] returns [true].  [validateChecksum] compares
    the stored checksum with a value into which the stored checksum has
    been folded (C1, C2): the comparison succeeds exactly when the other
    bytes XOR to 0, whatever is stored.  The other half of the claim holds:
    when [load] does reject a file for its checksum, the decoded members
    stay in the record. *)
Theorem C5_load_accepts_wrong_checksum :
  let m := manager_of default_config in
  let c := decode wrong_checksum_file (_config m) in
  (checksum c = 99
   /\ spec_checksum c = 0
   /\ entang_ab2_color c = 212
   /\ load fs_wrong_checksum m "/a_config.txt" = (true, set_config c m))
  /\ (forall fs m filename content,
        fs_read fs filename = Some content ->
        fst (load fs m filename) = false ->
        _config (snd (load fs m filename)) = decode content (_config m)).
Proof.
  split.
  - vm_compute. repeat split.
  - intros fs m filename content Hread Hfail.
    now apply load_rejection_keeps_decoded_fields.
Qed.

(** In terms of the bytes: for a record within the ranges of its types,
    [load] rejects the decoded record exactly when its checksum is not 0
    and the other bytes do not XOR to 0. *)
Lemma load_checksum_test
  (fs : FileSystem) (m : Manager) (filename content : string) :
  fs_read fs filename = Some content ->
  let c := decode content (_config m) in
  wf_config c -> (forall i, is_byte (_config_padding m i)) ->
  fst (load fs m filename) = false
  <-> checksum c <> 0
      /\ Z.lxor (spec_checksum c) (pad_xor (_config_padding m)) <> 0.
Proof.
  intros Hread c Hwf Hpad. unfold load. rewrite Hread.
  cbn [_config set_config _config_padding]. fold c.
  pose proof (validateChecksum_iff _ c Hwf Hpad) as Hv.
  destruct (Z.eqb_spec (checksum c) 0) as [E|E]; cbn [negb].
  - split; [discriminate|]. intros [H _]. contradiction.
  - destruct (validateChecksum (_config_padding m) c); cbn [negb fst].
    + split; [discriminate|]. intros [_ H]. exfalso. apply H. now apply Hv.
    + split; [|reflexivity]. intros _. split; [exact E|].
      intros H. apply Hv in H. discriminate H.
Qed.

(** ** C6: validate *)

(** [validate] in terms of its four tests. *)
Lemma validate_iff (m : Manager) :
  validate m = true
  <-> (strlen (diceId (_config m)) <> 0%nat
       /\ randomSwitchPoint (_config m) <= 100
       /\ f32_le_zero (tumbleConstant (_config m)) = false
       /\ (checksum (_config m) <> 0 ->
           validateChecksum (_config_padding m) (_config m) = true)).
Proof.
  unfold validate.
  destruct (Nat.eqb_spec (strlen (diceId (_config m))) 0) as [E1|E1];
    destruct (Z.ltb_spec 100 (randomSwitchPoint (_config m))) as [E2|E2];
    destruct (f32_le_zero (tumbleConstant (_config m))) eqn:E3;
    destruct (Z.eqb_spec (checksum (_config m)) 0) as [E4|E4];
    destruct (validateChecksum (_config_padding m) (_config m)) eqn:E5;
    cbn [negb andb];
    (split;
     [ intros H; try discriminate H;
       repeat split; try assumption; try lia; try reflexivity;
       intros Hnz; (reflexivity || contradiction)
     | intros (H1 & H2 & H3 & H4); try reflexivity;
       try contradiction; try lia; try discriminate H3;
       specialize (H4 E4); discriminate H4 ]).
Qed.

(** Away from NaN, "not [<= 0]" and "[> 0]" agree. *)
Lemma f32_le_zero_gt_zero (x : float32) :
  f32_decode x <> S754_nan -> f32_le_zero x = negb (f32_gt_zero x).
Proof.
  unfold f32_le_zero, f32_gt_zero, SFleb, SFltb.
  destruct (f32_decode x) as [s|s| |s mm e]; intros H;
    try congruence; try destruct s; reflexivity.
Qed.

(** The boundaries the specification lists. *)
Lemma validate_randomSwitchPoint_100 :
  validate (manager_of (set_randomSwitchPoint 100 default_config)) = true.
Proof. vm_compute. reflexivity. Qed.

Lemma validate_randomSwitchPoint_101 :
  validate (manager_of (set_randomSwitchPoint 101 default_config)) = false.
Proof. vm_compute. reflexivity. Qed.

Lemma validate_tumbleConstant_zero :
  validate (manager_of (set_tumbleConstant f32_zero default_config)) = false.
Proof. vm_compute. reflexivity. Qed.

Lemma validate_tumbleConstant_0_01 :
  validate (manager_of (set_tumbleConstant f32_0_01 default_config)) = true.
Proof. vm_compute. reflexivity. Qed.

(** A file can put a NaN into [tumbleConstant]. *)
Lemma decode_nan :
  decode "tumbleConstant=nan" default_config
  = set_tumbleConstant f32_nan default_config.
Proof. vm_compute. reflexivity. Qed.

(** C6 (code defect): [validate] returns [true] on the default record with
    a NaN in [tumbleConstant], although [tumbleConstant > 0] is false
    there: the test [tumbleConstant <= 0] is false on a NaN. *)
Theorem C6_validate_accepts_nan :
  let r := set_tumbleConstant f32_nan default_config in
  validate (manager_of r) = true
  /\ f32_gt_zero (tumbleConstant r) = false.
Proof. split; vm_compute; reflexivity. Qed.

(** ** C3: discovery *)

(** The loop of [findConfigFile] counts the matching names and keeps the
    first of them. *)
Lemma scan_fold (names : list string) :
  forall k first, 0 <= k ->
  fold_left scan_step names (k, first)
  = (k + Z.of_nat (List.length (filter is_config_name names)),
     if k =? 0
     then match filter is_config_name names with
          | [] => first
          | n :: _ => truncate 63 n
          end
     else first).
Proof.
  induction names as [|n names IH]; intros k first Hk.
  - simpl. rewrite Z.add_0_r. now destruct (k =? 0).
  - cbn [fold_left filter]. unfold scan_step at 2. fold (is_config_name n).
    destruct (is_config_name n).
    + rewrite IH by lia. cbn [List.length].
      replace (k + 1 =? 0) with false by (symmetry; apply Z.eqb_neq; lia).
      f_equal; [lia|].
      destruct (Z.eqb_spec k 0) as [->|Hk0].
      * reflexivity.
      * replace (k + 1 =? 1) with false by (symmetry; apply Z.eqb_neq; lia).
        reflexivity.
    + apply IH. exact Hk.
Qed.

Lemma truncate_short (n : nat) (s : string) :
  (String.length s <= n)%nat -> truncate n s = s.
Proof.
  revert n. induction s as [|c s IH]; intros [|n] H; simpl in *;
    try reflexivity; try lia.
  rewrite IH by lia. reflexivity.
Qed.

(** C3 (counterexample): with one matching entry whose name has 63
    characters, the path returned is not the normalized name: it has lost
    its last character. *)
Lemma C3_counterexample_long_name :
  filter is_config_name (fs_names fs_long_name) = [long_name]
  /\ fst (findConfigFile fs_long_name (manager_of default_config) 64)
     <> Some (normalized long_name).
Proof. split; [reflexivity|]. vm_compute. discriminate. Qed.

(** C3 (as the code has it): when the root directory opens, discovery is decided by
    the names ending in ["_config.txt"]: none fails with the error "No
    *_config.txt file found"; two or more fail with "Multiple
    *_config.txt files found"; exactly one succeeds, and the path is the
    name cut to 63 characters, normalized to begin with ["/"], and cut to 63
    characters again - the normalized name itself when the name has at
    most 62 characters. *)
Theorem C3_findConfigFile_by_match_count (fs : FileSystem) (m : Manager) :
  fs_root_opens fs = true -> fs_root_isDirectory fs = true ->
  match filter is_config_name (fs_names fs) with
  | [] =>
      findConfigFile fs m 64
      = (None, setError "No *_config.txt file found" m)
  | [name] =>
      findConfigFile fs m 64
      = (Some (truncate 63 (normalized (truncate 63 name))), m)
      /\ ((String.length name <= 62)%nat ->
          findConfigFile fs m 64 = (Some (normalized name), m))
  | _ :: _ :: _ =>
      findConfigFile fs m 64
      = (None, setError "Multiple *_config.txt files found" m)
  end.
Proof.
  intros Hopen Hdir. unfold findConfigFile. rewrite Hopen, Hdir. cbn [negb].
  rewrite scan_fold by lia. cbn [Z.eqb Z.add].
  destruct (filter is_config_name (fs_names fs)) as [|n [|n' l]].
  - reflexivity.
  - cbn [List.length Z.of_nat Pos.of_succ_nat Z.eqb Pos.eqb Nat.sub].
    assert (E : (match truncate 63 n with
                 | String "/" _ => (Some (truncate 63 (truncate 63 n)), m)
                 | _ => (Some (truncate 63 ("/" ++ truncate 63 n)), m)
                 end)
                = (Some (truncate 63 (normalized (truncate 63 n))), m)).
    { unfold normalized.
      destruct (truncate 63 n) as [|[[] [] [] [] [] [] [] []] t]; reflexivity. }
    split.
    + exact E.
    + intros Hlen. rewrite E.
      rewrite (truncate_short 63 n) by lia.
      rewrite truncate_short; [reflexivity|].
      unfold normalized.
      destruct n as [|[[] [] [] [] [] [] [] []] t]; simpl in *; lia.
  - cbn [List.length].
    replace (Z.of_nat (S (S (List.length l))) =? 1) with false
      by (symmetry; apply Z.eqb_neq; lia).
    replace (Z.of_nat (S (S (List.length l))) =? 0) with false
      by (symmetry; apply Z.eqb_neq; lia).
    reflexivity.
Qed.

Lemma C3_findConfigFile_witness :
  findConfigFile fs_one_config (manager_of default_config) 64
  = (Some "/a_config.txt", manager_of default_config).
Proof.
  pose proof (C3_findConfigFile_by_match_count fs_one_config
                (manager_of default_config) eq_refl eq_refl) as H.
  cbn [filter fs_names fs_one_config] in H.
  change (is_config_name "notes.txt") with false in H.
  change (is_config_name "a_config.txt") with true in H.
  cbv iota in H.
  destruct H as [_ H]. apply H. simpl. lia.
Defined.

(** ** C4: begin *)

Lemma initDefaultConfig_default_values (c : DiceConfig) :
  default_values (initDefaultConfig c).
Proof. unfold default_values. repeat split. Qed.

Lemma initDefaultConfig_output (c : DiceConfig) :
  is_default_output (initDefaultConfig c).
Proof.
  split; [now exists c|apply initDefaultConfig_default_values].
Qed.

Lemma findConfigFile_not_unique (fs : FileSystem) (m : Manager) :
  List.length (filter is_config_name (fs_names fs)) <> 1%nat ->
  fst (findConfigFile fs m 64) = None.
Proof.
  intros Hn. unfold findConfigFile.
  destruct (fs_root_opens fs); [|reflexivity].
  destruct (fs_root_isDirectory fs); [|reflexivity].
  cbn [negb]. rewrite scan_fold by lia. cbn [Z.add].
  destruct (Z.eqb_spec (Z.of_nat (List.length (filter is_config_name (fs_names fs)))) 1)
    as [E|E]; [lia|].
  now destruct (_ =? 0).
Qed.

(** C4: [begin] returns exactly what the mount returns.  After a
    successful mount the record is an output of the default policy whenever no path
    is given and the number of ["*_config.txt"] names is not one (more
    generally, whenever discovery fails), and whenever [load] fails on the
    path given or discovered. *)
Theorem C4_begin_fails_only_on_mount
  (fs : FileSystem) (m : Manager) (configPath : option string)
  (formatOnFail : bool) :
  fst (begin fs m configPath formatOnFail) = fs_mount fs formatOnFail
  /\ (fs_mount fs formatOnFail = true ->
      let m' := snd (begin fs m configPath formatOnFail) in
      (configPath = None ->
       List.length (filter is_config_name (fs_names fs)) <> 1%nat ->
       is_default_output (_config m'))
      /\ (load_attempt fs m configPath = None ->
          is_default_output (_config m'))
      /\ (forall m1, load_attempt fs m configPath = Some m1 ->
          fst (load fs m1 (_configPath m1)) = false ->
          is_default_output (_config m'))).
Proof.
  assert (Hnone : fs_mount fs formatOnFail = true ->
                  load_attempt fs m configPath = None ->
                  is_default_output
                    (_config (snd (begin fs m configPath formatOnFail)))).
  { intros Hm Ha. unfold begin. rewrite Hm. cbn [negb].
    unfold load_attempt in Ha. destruct configPath as [p|]; [discriminate|].
    destruct (findConfigFile fs m 64) as [[fp|] m1]; [discriminate|].
    apply initDefaultConfig_output. }
  split.
  - unfold begin. destruct (fs_mount fs formatOnFail); [|reflexivity].
    cbn [negb]. destruct configPath as [p|].
    + destruct (load fs _ _) as [[] ?]; reflexivity.
    + destruct (findConfigFile fs m 64) as [[fp|] m1]; [|reflexivity].
      destruct (load fs _ _) as [[] ?]; reflexivity.
  - intros Hm m'. split; [|split].
    + intros -> Hn. apply Hnone; [exact Hm|].
      unfold load_attempt.
      pose proof (findConfigFile_not_unique fs m Hn) as E.
      destruct (findConfigFile fs m 64) as [[fp|] m1]; [discriminate|reflexivity].
    + apply Hnone. exact Hm.
    + intros m1 Ha Hl. subst m'. unfold begin. rewrite Hm. cbn [negb].
      unfold load_attempt in Ha. destruct configPath as [p|].
      * injection Ha as <-. cbn [_configPath set_configPath] in *.
        destruct (load fs _ _) as [[] m2]; [discriminate|].
        apply initDefaultConfig_output.
      * destruct (findConfigFile fs m 64) as [[fp|] m2]; [|discriminate].
        injection Ha as <-. cbn [_configPath set_configPath] in *.
        destruct (load fs _ _) as [[] m3]; [discriminate|].
        apply initDefaultConfig_output.
Qed.

Lemma C4_begin_witness :
  let m := manager_of (set_rssiLimit (-40) default_config) in
  fst (begin fs_two_configs m None true) = true
  /\ is_default_output (_config (snd (begin fs_two_configs m None true))).
Proof.
  intros m.
  destruct (C4_begin_fails_only_on_mount fs_two_configs m None true)
    as [Hok Hdef].
  split; [exact Hok|].
  destruct (Hdef eq_refl) as [H _].
  apply H; [reflexivity|]. vm_compute. discriminate.
Defined.

(** ** C8: what load replaces *)

Lemma load_line_key_value (buf : string) (c : DiceConfig) :
  load_line buf c
  = match line_key_value buf with
    | Some (key, value) => assign key value c
    | None => c
    end.
Proof.
  unfold load_line, line_key_value.
  destruct (trim (c_str (chars (strip_cr buf)))) as [|a t]; [reflexivity|].
  destruct (split_eq (String a t)) as [[k v]|];
    destruct a as [[] [] [] [] [] [] [] []]; reflexivity.
Qed.

Lemma same_field_refl (f : Field) (c : DiceConfig) : same_field f c c.
Proof. destruct f; reflexivity. Qed.

Lemma same_field_trans (f : Field) (c1 c2 c3 : DiceConfig) :
  same_field f c1 c2 -> same_field f c2 c3 -> same_field f c1 c3.
Proof. destruct f; simpl; congruence. Qed.

Lemma same_field_sym (f : Field) (c1 c2 : DiceConfig) :
  same_field f c1 c2 -> same_field f c2 c1.
Proof. destruct f; simpl; congruence. Qed.

Ltac split_assign :=
  unfold assign, assigned_member;
  repeat match goal with
         | |- context [strcmp_eq ?k ?s] => destruct (strcmp_eq k s)
         | |- context [parseMacAddress ?v] => destruct (parseMacAddress v)
         end.

(** A line leaves every member but its own as it was. *)
Lemma assign_other (key value : string) (f : Field) (c : DiceConfig) :
  assigned_member key value <> Some f ->
  same_field f (assign key value c) c.
Proof.
  split_assign; intros H; destruct f; try reflexivity; congruence.
Qed.

(** The value a line gives to its member does not depend on the record. *)
Lemma assign_same (key value : string) (f : Field) (c1 c2 : DiceConfig) :
  assigned_member key value = Some f ->
  same_field f (assign key value c1) (assign key value c2).
Proof.
  split_assign; intros H; destruct f; try reflexivity; congruence.
Qed.

Lemma load_line_other (buf : string) (f : Field) (c : DiceConfig) :
  line_member buf <> Some f -> same_field f (load_line buf c) c.
Proof.
  rewrite load_line_key_value. unfold line_member.
  destruct (line_key_value buf) as [[k v]|].
  - apply assign_other.
  - intros _. apply same_field_refl.
Qed.

Lemma load_line_same (buf : string) (f : Field) (c1 c2 : DiceConfig) :
  line_member buf = Some f ->
  same_field f (load_line buf c1) (load_line buf c2).
Proof.
  rewrite !load_line_key_value. unfold line_member.
  destruct (line_key_value buf) as [[k v]|]; [apply assign_same|discriminate].
Qed.

Lemma Field_eq_dec (f g : Field) : {f = g} + {f <> g}.
Proof. decide equality. Qed.

Lemma load_line_agree (buf : string) (f : Field) (c1 c2 : DiceConfig) :
  same_field f c1 c2 -> same_field f (load_line buf c1) (load_line buf c2).
Proof.
  intros H.
  destruct (line_member buf) as [g|] eqn:E.
  - destruct (Field_eq_dec g f) as [->|Hne].
    + now apply load_line_same.
    + assert (Hn : line_member buf <> Some f) by congruence.
      eapply same_field_trans; [apply load_line_other; exact Hn|].
      eapply same_field_trans; [exact H|].
      apply same_field_sym, load_line_other; exact Hn.
  - assert (Hn : line_member buf <> Some f) by congruence.
    eapply same_field_trans; [apply load_line_other; exact Hn|].
    eapply same_field_trans; [exact H|].
    apply same_field_sym, load_line_other; exact Hn.
Qed.

Lemma load_loop_agree (f : Field) (fuel : nat) :
  forall rest c1 c2, same_field f c1 c2 ->
  same_field f (load_loop fuel rest c1) (load_loop fuel rest c2).
Proof.
  induction fuel as [|fuel IH]; intros rest c1 c2 H; [exact H|].
  cbn [load_loop]. destruct rest as [|a t]; [exact H|].
  destruct (readBytesUntil 127 (String a t)) as [buf rest'].
  apply IH, load_line_agree, H.
Qed.

Lemma load_loop_assigned (f : Field) (fuel : nat) :
  forall rest c1 c2, In f (assigned_loop fuel rest) ->
  same_field f (load_loop fuel rest c1) (load_loop fuel rest c2).
Proof.
  induction fuel as [|fuel IH]; intros rest c1 c2 H; [destruct H|].
  cbn [load_loop assigned_loop] in *. destruct rest as [|a t]; [destruct H|].
  destruct (readBytesUntil 127 (String a t)) as [buf rest'].
  destruct (line_member buf) as [g|] eqn:E.
  - destruct H as [->|H].
    + apply load_loop_agree, load_line_same, E.
    + apply IH, H.
  - apply IH, H.
Qed.

Lemma load_loop_not_assigned (f : Field) (fuel : nat) :
  forall rest c, ~ In f (assigned_loop fuel rest) ->
  same_field f (load_loop fuel rest c) c.
Proof.
  induction fuel as [|fuel IH]; intros rest c H; [apply same_field_refl|].
  cbn [load_loop assigned_loop] in *.
  destruct rest as [|a t]; [apply same_field_refl|].
  destruct (readBytesUntil 127 (String a t)) as [buf rest'].
  destruct (line_member buf) as [g|] eqn:E.
  - eapply same_field_trans.
    + apply IH. intros Hin. apply H. now right.
    + apply load_line_other. rewrite E. intros [= ->]. apply H. now left.
  - eapply same_field_trans; [apply IH, H|].
    apply load_line_other. rewrite E. discriminate.
Qed.

Lemma load_config (fs : FileSystem) (m : Manager) (filename content : string) :
  fs_read fs filename = Some content ->
  _config (snd (load fs m filename)) = decode content (_config m).
Proof.
  intros H. unfold load. rewrite H.
  cbn [_config set_config _config_padding].
  destruct (negb _); [destruct (negb _)|]; reflexivity.
Qed.

(** C8 (counterexample): a file with the single key [rssiLimit] loads
    successfully into two managers that differ in [randomSwitchPoint], and
    afterwards they still differ there: 50 and 77 are not decoded from the
    file. *)
Lemma C8_counterexample_partial_file :
  let m1 := manager_of default_config in
  let m2 := manager_of (set_randomSwitchPoint 77 default_config) in
  fst (load fs_partial m1 "/a_config.txt") = true
  /\ fst (load fs_partial m2 "/a_config.txt") = true
  /\ rssiLimit (_config (snd (load fs_partial m1 "/a_config.txt"))) = -55
  /\ randomSwitchPoint (_config (snd (load fs_partial m1 "/a_config.txt"))) = 50
  /\ randomSwitchPoint (_config (snd (load fs_partial m2 "/a_config.txt"))) = 77.
Proof. vm_compute. repeat split. Qed.

(** C8 (as the code has it): [load] replaces the members that the lines of the file
    assign (a key of the format, with a well-formed value for a MAC
    address): after [load] such a member holds the value decoded from the
    file, whatever the record held before.  Every other member keeps the
    value it had before the call. *)
Theorem C8_load_replaces_assigned_members
  (fs : FileSystem) (m1 m2 : Manager) (filename content : string) (f : Field) :
  fs_read fs filename = Some content ->
  (In f (assigned_members content) ->
   same_field f (_config (snd (load fs m1 filename)))
                (_config (snd (load fs m2 filename))))
  /\ (~ In f (assigned_members content) ->
      same_field f (_config (snd (load fs m1 filename))) (_config m1)).
Proof.
  intros Hread. rewrite !(load_config _ _ _ _ Hread). unfold decode. split.
  - apply load_loop_assigned.
  - apply load_loop_not_assigned.
Qed.

Lemma C8_load_witness :
  let m1 := manager_of default_config in
  let m2 := manager_of (set_rssiLimit (-40) (set_randomSwitchPoint 77 default_config)) in
  same_field F_rssiLimit (_config (snd (load fs_partial m1 "/a_config.txt")))
                         (_config (snd (load fs_partial m2 "/a_config.txt")))
  /\ same_field F_randomSwitchPoint
       (_config (snd (load fs_partial m2 "/a_config.txt"))) (_config m2).
Proof.
  intros m1 m2.
  pose proof (C8_load_replaces_assigned_members fs_partial m1 m2
                "/a_config.txt" partial_file F_rssiLimit eq_refl) as [H1 _].
  pose proof (C8_load_replaces_assigned_members fs_partial m2 m1
                "/a_config.txt" partial_file F_randomSwitchPoint eq_refl)
    as [_ H2].
  split.
  - apply H1. vm_compute. left. reflexivity.
  - apply H2. vm_compute. intros [H|[]]. discriminate H.
Defined.

(** ** Strings *)

Lemma append_assoc_s (a b c : string) : (a ++ b) ++ c = a ++ (b ++ c).
Proof. induction a as [|x a IH]; simpl; [reflexivity|now rewrite IH]. Qed.

Lemma append_nil_r_s (a : string) : a ++ "" = a.
Proof. induction a as [|x a IH]; simpl; [reflexivity|now rewrite IH]. Qed.

Lemma length_append_s (a b : string) :
  String.length (a ++ b) = (String.length a + String.length b)%nat.
Proof. induction a as [|x a IH]; simpl; [reflexivity|now rewrite IH]. Qed.

Lemma all_chars_app (p : ascii -> bool) (a b : string) :
  all_chars p (a ++ b) = all_chars p a && all_chars p b.
Proof.
  induction a as [|x a IH]; simpl; [reflexivity|].
  now rewrite IH, andb_assoc.
Qed.

Lemma all_chars_impl (p q : ascii -> bool) (s : string) :
  (forall c, p c = true -> q c = true) ->
  all_chars p s = true -> all_chars q s = true.
Proof.
  intros Hpq. induction s as [|x s IH]; simpl; [reflexivity|].
  intros H. apply andb_true_iff in H as [Hx Hs].
  now rewrite (Hpq _ Hx), IH.
Qed.

Lemma plain_not_LF (c : ascii) : plain c = true -> not_LF c = true.
Proof.
  unfold plain, not_LF, not_space. destruct (Ascii.eqb_spec c LF) as [->|];
    [discriminate|reflexivity].
Qed.

Lemma plain_not_NUL (c : ascii) : plain c = true -> not_NUL c = true.
Proof. unfold plain. intros H. now apply andb_true_iff in H. Qed.

Lemma plain_not_space (c : ascii) : plain c = true -> not_space c = true.
Proof. unfold plain. intros H. now apply andb_true_iff in H. Qed.

(** *** trim *)

Lemma trim_alt (s : string) : trim s = rstrip (lstrip s).
Proof.
  unfold trim. induction s as [|c s IH]; [reflexivity|].
  simpl lstrip. destruct (isspace c) eqn:E; [exact IH|].
  simpl rstrip. rewrite E. now destruct (rstrip s).
Qed.

Lemma rstrip_not_space (s : string) :
  all_chars not_space s = true -> rstrip s = s.
Proof.
  induction s as [|c s IH]; [reflexivity|]. cbn [rstrip all_chars]. intros H.
  apply andb_true_iff in H as [Hc Hs]. rewrite (IH Hs).
  unfold not_space in Hc. apply negb_true_iff in Hc. rewrite Hc.
  now destruct s.
Qed.

Lemma lstrip_not_space (s : string) :
  all_chars not_space s = true -> lstrip s = s.
Proof.
  destruct s as [|c s]; [reflexivity|]. cbn [lstrip all_chars]. intros H.
  apply andb_true_iff in H as [Hc _].
  unfold not_space in Hc. apply negb_true_iff in Hc. now rewrite Hc.
Qed.

Lemma trim_not_space (s : string) :
  all_chars not_space s = true -> trim s = s.
Proof.
  intros H. now rewrite trim_alt, lstrip_not_space, rstrip_not_space.
Qed.

Lemma rstrip_idem (s : string) : rstrip (rstrip s) = rstrip s.
Proof.
  induction s as [|c s IH]; [reflexivity|]. cbn [rstrip].
  destruct (rstrip s) as [|d r] eqn:E.
  - destruct (isspace c) eqn:Ec; [reflexivity|]. cbn [rstrip]. now rewrite Ec.
  - cbn [rstrip] in *. rewrite IH. reflexivity.
Qed.

Lemma lstrip_rstrip (s : string) : lstrip (rstrip s) = rstrip (lstrip s).
Proof.
  induction s as [|c s IH]; [reflexivity|].
  cbn [lstrip]. destruct (isspace c) eqn:Ec.
  - rewrite <- IH. cbn [rstrip].
    destruct (rstrip s) as [|d r]; [now rewrite Ec|].
    cbn [lstrip]. now rewrite Ec.
  - cbn [rstrip]. rewrite Ec.
    destruct (rstrip s) as [|d r]; cbn [lstrip]; now rewrite Ec.
Qed.

Lemma rstrip_strip_cr (s : string) : rstrip (strip_cr s) = rstrip s.
Proof.
  induction s as [|c s IH]; [reflexivity|].
  destruct s as [|d s].
  - cbn [strip_cr rstrip]. destruct (Ascii.eqb_spec c CR) as [->|]; reflexivity.
  - change (strip_cr (String c (String d s)))
      with (String c (strip_cr (String d s))).
    change (rstrip (String c (strip_cr (String d s))))
      with (match rstrip (strip_cr (String d s)) with
            | "" => if isspace c then "" else String c ""
            | r => String c r
            end).
    rewrite IH. reflexivity.
Qed.

(** What [load_line] does to the value: the carriage return and the
    trailing white space go with the line, the rest with the value. *)
Lemma trim_rstrip_strip_cr (v : string) : trim (rstrip (strip_cr v)) = trim v.
Proof.
  rewrite !trim_alt, rstrip_strip_cr, lstrip_rstrip, rstrip_idem.
  reflexivity.
Qed.

(** *** Reading lines *)

Lemma readBytesUntil_shrinks (n : nat) :
  forall s, (String.length (snd (readBytesUntil n s)) <= String.length s)%nat.
Proof.
  induction n as [|n IH]; intros s; [apply Nat.le_refl|].
  destruct s as [|c s]; [apply Nat.le_refl|]. cbn [readBytesUntil].
  destruct (Ascii.eqb c LF); [simpl; lia|].
  specialize (IH s). destruct (readBytesUntil n s) as [b r]. simpl in *. lia.
Qed.

(** An iteration of the loop of [load] consumes at least one byte. *)
Lemma readBytesUntil_consumes (n : nat) (c : ascii) (s : string) :
  (String.length (snd (readBytesUntil (S n) (String c s)))
   <= String.length s)%nat.
Proof.
  cbn [readBytesUntil]. destruct (Ascii.eqb c LF); [simpl; lia|].
  pose proof (readBytesUntil_shrinks n s) as H.
  destruct (readBytesUntil n s) as [b r]. exact H.
Qed.

(** Hence the loop is over once [fuel] covers the bytes left: more fuel
    changes nothing. *)
Lemma load_loop_fuel (fuel1 : nat) :
  forall fuel2 rest c,
  (String.length rest <= fuel1)%nat -> (String.length rest <= fuel2)%nat ->
  load_loop fuel1 rest c = load_loop fuel2 rest c.
Proof.
  induction fuel1 as [|fuel1 IH]; intros fuel2 rest c H1 H2.
  - destruct rest; [|simpl in H1; lia]. now destruct fuel2.
  - destruct rest as [|a t]; [now destruct fuel2|].
    destruct fuel2 as [|fuel2]; [simpl in H2; lia|].
    cbn [load_loop].
    pose proof (readBytesUntil_consumes 126 a t) as Hc.
    destruct (readBytesUntil 127 (String a t)) as [buf rest'].
    simpl in Hc, H1, H2. apply IH; lia.
Qed.

Lemma readBytesUntil_line (l rest : string) :
  forall n, all_chars not_LF l = true -> (String.length l < n)%nat ->
  readBytesUntil n (l ++ String LF rest) = (l, rest).
Proof.
  induction l as [|c l IH]; intros n Hl Hn.
  - destruct n; [simpl in Hn; lia|]. reflexivity.
  - destruct n as [|n]; [simpl in Hn; lia|].
    cbn [all_chars] in Hl. apply andb_true_iff in Hl as [Hc Hl].
    cbn [append readBytesUntil]. unfold not_LF in Hc.
    apply negb_true_iff in Hc. rewrite Hc.
    rewrite IH by (simpl in Hn; (assumption || lia)). reflexivity.
Qed.

(** A line of at most 126 bytes followed by a line feed is handed to
    [load_line] whole. *)
Lemma decode_line (l rest : string) (c : DiceConfig) :
  all_chars not_LF l = true -> (String.length l <= 126)%nat ->
  decode (l ++ String LF rest) c = decode rest (load_line l c).
Proof.
  intros Hl Hn. unfold decode.
  rewrite length_append_s. cbn [String.length]. rewrite Nat.add_succ_r.
  cbn [load_loop].
  rewrite readBytesUntil_line by (assumption || lia).
  destruct (l ++ String LF rest) eqn:E.
  - destruct l; discriminate E.
  - apply load_loop_fuel; lia.
Qed.

Lemma decode_println (l rest : string) (c : DiceConfig) :
  all_chars not_LF l = true -> (String.length l <= 125)%nat ->
  decode (println l ++ rest) c
  = decode rest (load_line (l ++ String CR "") c).
Proof.
  intros Hl Hn. unfold println, crlf.
  replace ((l ++ String CR (String LF "")) ++ rest)
    with ((l ++ String CR "") ++ String LF rest)
    by (now rewrite !append_assoc_s).
  apply decode_line.
  - rewrite all_chars_app, Hl. reflexivity.
  - rewrite length_append_s. simpl. lia.
Qed.

Lemma decode_printfln (l rest : string) (c : DiceConfig) :
  all_chars not_LF l = true -> (String.length l <= 126)%nat ->
  decode (printfln l ++ rest) c = decode rest (load_line l c).
Proof.
  intros Hl Hn. unfold printfln, nl.
  rewrite append_assoc_s. now apply decode_line.
Qed.

Lemma decode_empty (c : DiceConfig) : decode "" c = c.
Proof. reflexivity. Qed.

(** *** A [key=value] line *)

Lemma c_str_chars (s : string) :
  all_chars not_NUL s = true -> c_str (chars s) = s.
Proof.
  induction s as [|c s IH]; [reflexivity|]. cbn [all_chars chars list_ascii_of_string c_str].
  intros H. apply andb_true_iff in H as [Hc Hs].
  unfold not_NUL in Hc. apply negb_true_iff in Hc. rewrite Hc.
  fold (chars s). now rewrite IH.
Qed.

Lemma strip_cr_not_NUL (s : string) :
  all_chars not_NUL s = true -> all_chars not_NUL (strip_cr s) = true.
Proof.
  induction s as [|c s IH]; [reflexivity|]. intros H.
  cbn [all_chars] in H. apply andb_true_iff in H as [Hc Hs].
  destruct s as [|d s].
  - cbn [strip_cr]. destruct (Ascii.eqb c CR); [reflexivity|].
    cbn [all_chars]. now rewrite Hc.
  - change (strip_cr (String c (String d s)))
      with (String c (strip_cr (String d s))).
    cbn [all_chars]. rewrite Hc. now apply IH.
Qed.

Lemma strip_cr_key_value (key v : string) :
  strip_cr (key ++ String "=" v) = key ++ String "=" (strip_cr v).
Proof.
  induction key as [|c k IH].
  - cbn [append]. destruct v as [|d v]; reflexivity.
  - cbn [append]. rewrite <- IH.
    destruct (k ++ String "=" v) eqn:E; [destruct k; discriminate E|].
    reflexivity.
Qed.

Lemma rstrip_key_value (key w : string) :
  rstrip (key ++ String "=" w) = key ++ String "=" (rstrip w).
Proof.
  induction key as [|c k IH].
  - cbn [append rstrip]. now destruct (rstrip w).
  - cbn [append rstrip]. rewrite IH.
    destruct (k ++ String "=" (rstrip w)) eqn:E; [destruct k; discriminate E|].
    reflexivity.
Qed.

Lemma split_eq_key_value (key w : string) :
  all_chars key_char key = true ->
  split_eq (key ++ String "=" w) = Some (key, w).
Proof.
  induction key as [|c k IH]; intros H; [reflexivity|].
  cbn [all_chars] in H. apply andb_true_iff in H as [Hc Hk].
  cbn [append split_eq]. unfold key_char in Hc.
  apply andb_true_iff in Hc as [_ Hc]. apply negb_true_iff in Hc.
  rewrite Hc, (IH Hk). reflexivity.
Qed.

Lemma not_comment (c : ascii) (t : string) {A} (x y : A) :
  Ascii.eqb c "#" = false ->
  match String c t with
  | "" => x
  | String "#" _ => x
  | _ => y
  end = y.
Proof.
  destruct c as [[] [] [] [] [] [] [] []]; (discriminate || reflexivity).
Qed.

(** A line [key=value] reaches the dispatch with the key and the trimmed
    value. *)
Lemma load_line_key_value_line (key v : string) (c : DiceConfig) :
  clean_key key = true -> all_chars not_NUL v = true ->
  load_line (key ++ String "=" v) c = assign key (trim v) c.
Proof.
  intros Hkey Hv. unfold load_line.
  destruct key as [|k0 k]; [discriminate|].
  cbn [clean_key] in Hkey. apply andb_true_iff in Hkey as [Hhash Hkc].
  apply negb_true_iff in Hhash.
  assert (Hns : all_chars not_space (String k0 k) = true).
  { apply (all_chars_impl key_char); [|exact Hkc].
    intros a Ha. unfold key_char in Ha. apply andb_true_iff in Ha as [Ha _].
    now apply plain_not_space. }
  assert (Hnn : all_chars not_NUL (String k0 k) = true).
  { apply (all_chars_impl key_char); [|exact Hkc].
    intros a Ha. unfold key_char in Ha. apply andb_true_iff in Ha as [Ha _].
    now apply plain_not_NUL. }
  rewrite strip_cr_key_value.
  rewrite c_str_chars
    by (rewrite all_chars_app, Hnn; cbn [all_chars andb];
        apply strip_cr_not_NUL, Hv).
  rewrite trim_alt.
  assert (Hl : lstrip (String k0 k ++ String "=" (strip_cr v))
               = String k0 k ++ String "=" (strip_cr v)).
  { cbn [append lstrip]. cbn [all_chars] in Hns.
    apply andb_true_iff in Hns as [H0 _]. unfold not_space in H0.
    apply negb_true_iff in H0. now rewrite H0. }
  rewrite Hl, rstrip_key_value.
  cbn [append].
  rewrite (not_comment k0 (k ++ String "=" (rstrip (strip_cr v))))
    by exact Hhash.
  change (String k0 (k ++ String "=" (rstrip (strip_cr v))))
    with (String k0 k ++ String "=" (rstrip (strip_cr v))).
  rewrite split_eq_key_value by exact Hkc.
  rewrite (trim_not_space (String k0 k)) by exact Hns.
  rewrite trim_rstrip_strip_cr. reflexivity.
Qed.

(** ** Formatting and parsing numbers *)

Lemma digit_cases (d : Z) :
  0 <= d < 10 ->
  d = 0 \/ d = 1 \/ d = 2 \/ d = 3 \/ d = 4 \/ d = 5 \/ d = 6 \/ d = 7
  \/ d = 8 \/ d = 9.
Proof. lia. Qed.

Lemma hex_cases (d : Z) :
  0 <= d < 16 ->
  d = 0 \/ d = 1 \/ d = 2 \/ d = 3 \/ d = 4 \/ d = 5 \/ d = 6 \/ d = 7
  \/ d = 8 \/ d = 9 \/ d = 10 \/ d = 11 \/ d = 12 \/ d = 13 \/ d = 14
  \/ d = 15.
Proof. lia. Qed.

Ltac by_cases H :=
  repeat (destruct H as [H|H]; [subst; try reflexivity|]);
  subst; try reflexivity.

Lemma digit_val_digit_char (d : Z) :
  0 <= d < 10 -> digit_val 10 (digit_char d) = Some d.
Proof. intros H. apply digit_cases in H. by_cases H. Qed.

Lemma digit_char_plain (d : Z) : 0 <= d < 10 -> plain (digit_char d) = true.
Proof. intros H. apply digit_cases in H. by_cases H. Qed.

Lemma digit_val_hex_char (d : Z) :
  0 <= d < 16 -> digit_val 16 (hex_char d) = Some d.
Proof. intros H. apply hex_cases in H. by_cases H. Qed.

Lemma hex_char_plain (d : Z) : 0 <= d < 16 -> plain (hex_char d) = true.
Proof. intros H. apply hex_cases in H. by_cases H. Qed.

Lemma digits_onto_app (fuel : nat) :
  forall n acc, digits_onto fuel n acc = digits_onto fuel n "" ++ acc.
Proof.
  induction fuel as [|fuel IH]; intros n acc; [reflexivity|].
  cbn [digits_onto]. destruct (n <? 10); [reflexivity|].
  rewrite IH, (IH _ (String _ "")), append_assoc_s. reflexivity.
Qed.

(** Reading back the digits that [digits_onto] wrote. *)
Lemma accum_digits_onto (fuel : nat) :
  forall n acc, 0 <= n < 2 ^ Z.of_nat fuel ->
  accum 10 (digits_onto fuel n acc) 0 = accum 10 acc n.
Proof.
  induction fuel as [|fuel IH]; intros n acc Hn.
  - simpl in Hn. assert (n = 0) by lia. subst. reflexivity.
  - cbn [digits_onto].
    assert (Hd : 0 <= n mod 10 < 10) by (apply Z.mod_pos_bound; lia).
    destruct (Z.ltb_spec n 10) as [Hlt|Hge].
    + cbn [accum]. rewrite digit_val_digit_char by exact Hd.
      rewrite Z.mod_small by lia. reflexivity.
    + rewrite IH.
      * cbn [accum]. rewrite digit_val_digit_char by exact Hd.
        f_equal. pose proof (Z.div_mod n 10). lia.
      * rewrite Nat2Z.inj_succ, Z.pow_succ_r in Hn by lia.
        split; [apply Z.div_pos; lia|].
        apply Z.div_lt_upper_bound; lia.
Qed.

Lemma print_uint_fuel (n : Z) :
  0 <= n -> n < 2 ^ Z.of_nat (S (Z.to_nat (Z.log2 n))).
Proof.
  intros Hn. rewrite Nat2Z.inj_succ, Z2Nat.id by apply Z.log2_nonneg.
  destruct (Z.eq_dec n 0) as [->|Hz]; [reflexivity|].
  apply Z.log2_spec. lia.
Qed.

Lemma accum_print_uint (n : Z) (rest : string) :
  0 <= n -> accum 10 (print_uint n ++ rest) 0 = accum 10 rest n.
Proof.
  intros Hn. unfold print_uint. rewrite <- digits_onto_app.
  apply accum_digits_onto. split; [exact Hn|]. now apply print_uint_fuel.
Qed.

Lemma all_chars_digits_onto (p : ascii -> bool) (fuel : nat) :
  (forall d, 0 <= d < 10 -> p (digit_char d) = true) ->
  forall n acc, all_chars p acc = true ->
  all_chars p (digits_onto fuel n acc) = true.
Proof.
  intros Hp. induction fuel as [|fuel IH]; intros n acc Hacc; [exact Hacc|].
  cbn [digits_onto].
  assert (Hd : 0 <= n mod 10 < 10) by (apply Z.mod_pos_bound; lia).
  destruct (n <? 10).
  - cbn [all_chars]. now rewrite Hp, Hacc.
  - apply IH. cbn [all_chars]. now rewrite Hp, Hacc.
Qed.

Lemma print_uint_plain (n : Z) : all_chars plain (print_uint n) = true.
Proof.
  apply all_chars_digits_onto; [apply digit_char_plain|reflexivity].
Qed.

(** A number below [10 ^ k] has at most [k] digits. *)
Lemma length_digits_onto (fuel : nat) :
  forall (k : nat) n acc, (1 <= k)%nat -> n < 10 ^ Z.of_nat k ->
  (String.length (digits_onto fuel n acc) <= k + String.length acc)%nat.
Proof.
  induction fuel as [|fuel IH]; intros k n acc Hk Hn; [simpl; lia|].
  cbn [digits_onto]. destruct (Z.ltb_spec n 10) as [Hlt|Hge].
  - simpl. lia.
  - destruct k as [|k]; [lia|].
    destruct k as [|k]; [change (10 ^ Z.of_nat 1) with 10 in Hn; lia|].
    eapply Nat.le_trans; [apply (IH (S k)); [lia|]|simpl; lia].
    rewrite (Nat2Z.inj_succ (S k)), Z.pow_succ_r in Hn by lia.
    apply Z.div_lt_upper_bound; lia.
Qed.

Lemma length_print_uint (k : nat) (n : Z) :
  (1 <= k)%nat -> n < 10 ^ Z.of_nat k ->
  (String.length (print_uint n) <= k)%nat.
Proof.
  intros Hk Hn. unfold print_uint.
  pose proof (length_digits_onto (S (Z.to_nat (Z.log2 n))) k n "" Hk Hn) as H.
  change (String.length "") with 0%nat in H. rewrite Nat.add_0_r in H.
  exact H.
Qed.

(** The first digit written is not a zero, unless the number is zero. *)
Lemma digits_onto_head (fuel : nat) :
  forall n acc, 0 <= n < 2 ^ Z.of_nat (S fuel) ->
  exists d t, 0 <= d < 10 /\ (0 < n -> 1 <= d)
              /\ digits_onto (S fuel) n acc = String (digit_char d) t.
Proof.
  induction fuel as [|fuel IH]; intros n acc Hn.
  - change (2 ^ Z.of_nat 1) with 2 in Hn.
    exists n, acc. cbn [digits_onto].
    replace (n <? 10) with true by (symmetry; apply Z.ltb_lt; lia).
    rewrite Z.mod_small by lia. repeat split; lia.
  - remember (S fuel) as f eqn:Ef. cbn [digits_onto].
    destruct (Z.ltb_spec n 10) as [Hlt|Hge].
    + exists n, acc. rewrite Z.mod_small by lia. repeat split; lia.
    + subst f.
      destruct (IH (n / 10) (String (digit_char (n mod 10)) acc))
        as (d & t & Hd & Hpos & E).
      * rewrite (Nat2Z.inj_succ (S fuel)), Z.pow_succ_r in Hn by lia.
        split; [apply Z.div_pos; lia|apply Z.div_lt_upper_bound; lia].
      * exists d, t. repeat split; try lia; [|exact E].
        intros _. apply Hpos. apply Z.div_str_pos. lia.
Qed.

Lemma print_uint_head (n : Z) :
  0 <= n ->
  exists d t, 0 <= d < 10 /\ (0 < n -> 1 <= d)
              /\ print_uint n = String (digit_char d) t.
Proof.
  intros Hn. unfold print_uint. apply digits_onto_head.
  split; [exact Hn|now apply print_uint_fuel].
Qed.

(** On a text that begins with a digit from 1 to 9, [strtoul] with base 0
    reads in base 10. *)
Lemma strtoul0_decimal (d : Z) (t : string) :
  1 <= d < 10 ->
  strtoul0 (String (digit_char d) t)
  = (let v := accum 10 (String (digit_char d) t) 0 in
     if ULONG_MAX <? v then ULONG_MAX else v).
Proof.
  intros H.
  assert (Hc : d = 1 \/ d = 2 \/ d = 3 \/ d = 4 \/ d = 5 \/ d = 6 \/ d = 7
               \/ d = 8 \/ d = 9) by lia.
  by_cases Hc.
Qed.

Lemma atoi_unsigned (d : Z) (t : string) :
  0 <= d < 10 ->
  atoi (String (digit_char d) t)
  = (let v := accum 10 (String (digit_char d) t) 0 in
     if LONG_MAX <? v then LONG_MAX else v).
Proof. intros H. apply digit_cases in H. by_cases H. Qed.

Lemma atoi_minus (s : string) :
  atoi (String "-" s)
  = (let v := accum 10 s 0 in if - LONG_MIN <? v then LONG_MIN else - v).
Proof. reflexivity. Qed.

Lemma accum_print_uint_0 (n : Z) : 0 <= n -> accum 10 (print_uint n) 0 = n.
Proof.
  intros Hn. pose proof (accum_print_uint n "" Hn) as H.
  now rewrite append_nil_r_s in H.
Qed.

(** [%u] then [strtoul(..., 0)]. *)
Lemma strtoul0_print_uint (n : Z) :
  0 <= n <= ULONG_MAX -> strtoul0 (print_uint n) = n.
Proof.
  intros Hn.
  destruct (Z.eq_dec n 0) as [->|Hz]; [reflexivity|].
  pose proof (accum_print_uint_0 n (proj1 Hn)) as Hacc.
  destruct (print_uint_head n (proj1 Hn)) as (d & t & Hd & Hpos & E).
  rewrite E in *. rewrite strtoul0_decimal by lia.
  cbv zeta. rewrite Hacc.
  destruct (Z.ltb_spec ULONG_MAX n); [lia|reflexivity].
Qed.

(** [%u] or [%d] then [atoi]. *)
Lemma atoi_print_uint (n : Z) :
  0 <= n <= LONG_MAX -> atoi (print_uint n) = n.
Proof.
  intros Hn.
  pose proof (accum_print_uint_0 n (proj1 Hn)) as Hacc.
  destruct (print_uint_head n (proj1 Hn)) as (d & t & Hd & Hpos & E).
  rewrite E in *. rewrite atoi_unsigned by lia.
  cbv zeta. rewrite Hacc.
  destruct (Z.ltb_spec LONG_MAX n); [lia|reflexivity].
Qed.

Lemma atoi_print_int (n : Z) :
  LONG_MIN <= n <= LONG_MAX -> atoi (print_int n) = n.
Proof.
  intros Hn. unfold print_int.
  destruct (Z.ltb_spec n 0) as [Hneg|Hpos].
  - rewrite atoi_minus. cbv zeta.
    rewrite accum_print_uint_0 by lia.
    destruct (Z.ltb_spec (- LONG_MIN) (- n)); [unfold LONG_MIN in *; lia|lia].
  - apply atoi_print_uint. lia.
Qed.

Lemma print_int_plain (n : Z) : all_chars plain (print_int n) = true.
Proof.
  unfold print_int. destruct (n <? 0); [|apply print_uint_plain].
  cbn [all_chars]. now rewrite print_uint_plain.
Qed.

Lemma length_print_int (k : nat) (n : Z) :
  (1 <= k)%nat -> - 10 ^ Z.of_nat k < n < 10 ^ Z.of_nat k ->
  (String.length (print_int n) <= S k)%nat.
Proof.
  intros Hk Hn. unfold print_int. destruct (n <? 0).
  - cbn [String.length]. apply le_n_S, length_print_uint; [exact Hk|lia].
  - apply Nat.le_trans with k; [|lia]. apply length_print_uint; [exact Hk|lia].
Qed.

(** *** MAC addresses *)

Lemma accum_stop (base : Z) (s : string) (a : Z) :
  starts_with_digit base s = false -> accum base s a = a.
Proof.
  destruct s as [|c s]; [reflexivity|]. cbn [starts_with_digit accum].
  now destruct (digit_val base c).
Qed.

Lemma skip_digits_stop (base : Z) (s : string) :
  starts_with_digit base s = false -> skip_digits base s = s.
Proof.
  destruct s as [|c s]; [reflexivity|]. cbn [starts_with_digit skip_digits].
  now destruct (digit_val base c).
Qed.

Lemma scan_hex_two_digits (h l : Z) (rest : string) :
  0 <= h < 16 -> 0 <= l < 16 ->
  scan_hex (String (hex_char h) (String (hex_char l) rest))
  = Some ((let v := accum 16 rest (h * 16 + l) in
           if ULONG_MAX <? v then ULONG_MAX else v),
          skip_digits 16 rest).
Proof.
  intros Hh Hl. apply hex_cases in Hh. apply hex_cases in Hl.
  by_cases Hh; by_cases Hl.
Qed.

(** [%02X] then [%x], in front of anything that is not a hexadecimal
    digit. *)
Lemma scan_hex_print_hex2 (b : Z) (rest : string) :
  is_byte b -> starts_with_digit 16 rest = false ->
  scan_hex (print_hex2 b ++ rest) = Some (b, rest).
Proof.
  unfold is_byte. intros Hb Hrest. unfold print_hex2. cbn [append].
  assert (Hh : 0 <= b / 16 < 16)
    by (split; [apply Z.div_pos; lia|apply Z.div_lt_upper_bound; lia]).
  assert (Hl : 0 <= b mod 16 < 16) by (apply Z.mod_pos_bound; lia).
  rewrite scan_hex_two_digits by assumption.
  rewrite accum_stop, skip_digits_stop by exact Hrest. cbv zeta.
  assert (E : b / 16 * 16 + b mod 16 = b)
    by (pose proof (Z.div_mod b 16); lia).
  rewrite E.
  destruct (Z.ltb_spec ULONG_MAX b); [unfold ULONG_MAX in *; lia|reflexivity].
Qed.

Lemma print_hex2_plain (b : Z) :
  is_byte b -> all_chars plain (print_hex2 b) = true.
Proof.
  unfold is_byte. intros Hb. unfold print_hex2. cbn [all_chars].
  rewrite !hex_char_plain; [reflexivity| |].
  - apply Z.mod_pos_bound; lia.
  - split; [apply Z.div_pos; lia|apply Z.div_lt_upper_bound; lia].
Qed.

Lemma parseMacAddress_macToString (mac : list Z) :
  List.length mac = 6%nat -> Forall is_byte mac ->
  parseMacAddress (macToString mac) = Some mac.
Proof.
  intros Hlen Hb. explicit_list Hlen.
  repeat match goal with
         | H : Forall _ (_ :: _) |- _ => inversion_clear H
         end.
  unfold parseMacAddress, macToString. cbn [nth append].
  rewrite <- (append_nil_r_s (print_hex2 z4)).
  cbn [sscanf_mac].
  repeat (rewrite scan_hex_print_hex2 by (assumption || reflexivity);
          cbn [scan_colon]).
  cbn [List.length Nat.eqb map].
  now rewrite !uint8_t_id by assumption.
Qed.

Lemma macToString_plain (mac : list Z) :
  List.length mac = 6%nat -> Forall is_byte mac ->
  all_chars plain (macToString mac) = true.
Proof.
  intros Hlen Hb. explicit_list Hlen.
  repeat match goal with
         | H : Forall _ (_ :: _) |- _ => inversion_clear H
         end.
  unfold macToString. cbn [nth].
  rewrite !all_chars_app. rewrite !print_hex2_plain by assumption.
  reflexivity.
Qed.

Lemma macToString_length (mac : list Z) :
  String.length (macToString mac) = 17%nat.
Proof.
  unfold macToString, print_hex2. now rewrite !length_append_s.
Qed.

(** *** Flags and the identifier *)

Lemma parseBool_print_bool (b : bool) : parseBool (print_bool b) = b.
Proof. now destruct b. Qed.

Lemma print_bool_plain (b : bool) : all_chars plain (print_bool b) = true.
Proof. now destruct b. Qed.

Lemma print_bool_length (b : bool) : (String.length (print_bool b) <= 5)%nat.
Proof. destruct b; simpl; lia. Qed.

Lemma c_str_not_NUL (buf : list ascii) : all_chars not_NUL (c_str buf) = true.
Proof.
  induction buf as [|c buf IH]; [reflexivity|]. cbn [c_str].
  destruct (Ascii.eqb c NUL) eqn:E; [reflexivity|].
  cbn [all_chars]. unfold not_NUL at 1. now rewrite E, IH.
Qed.

Lemma length_chars (s : string) : List.length (chars s) = String.length s.
Proof. induction s as [|c s IH]; simpl; [reflexivity|]. now f_equal. Qed.

Lemma c_str_filled (s : string) (k : nat) :
  all_chars not_NUL s = true ->
  c_str (chars s ++ repeat NUL k ++ [NUL])%list = s.
Proof.
  induction s as [|c s IH]; intros H.
  - now destruct k.
  - cbn [all_chars] in H. apply andb_true_iff in H as [Hc Hs].
    cbn [chars list_ascii_of_string app c_str]. unfold not_NUL in Hc.
    apply negb_true_iff in Hc. rewrite Hc. fold (chars s). now rewrite IH.
Qed.

(** The identifier stored by [load] from a text that fits. *)
Lemma c_str_strncpy_buf (s : string) :
  all_chars not_NUL s = true -> (String.length s <= 15)%nat ->
  c_str (strncpy_buf 15 s) = s.
Proof.
  intros Hs Hlen. unfold strncpy_buf.
  rewrite firstn_all2 by (rewrite length_chars; exact Hlen).
  now apply c_str_filled.
Qed.

(** *** The text of a float *)

Lemma f32_frac_range (x : float32) : 0 <= f32_frac x < 8388608.
Proof.
  unfold f32_frac. change 8388607 with (Z.ones 23).
  rewrite Z.land_ones by lia. apply Z.mod_pos_bound. reflexivity.
Qed.

Lemma f32_exp_range (x : float32) : 0 <= f32_exp x < 256.
Proof.
  unfold f32_exp. change 255 with (Z.ones 8).
  rewrite Z.land_ones by lia. apply Z.mod_pos_bound. reflexivity.
Qed.

Lemma f32_decode_finite (x : float32) (s : bool) (m : positive) (e : Z) :
  f32_decode x = S754_finite s m e -> Z.pos m < 16777216 /\ e <= 104.
Proof.
  unfold f32_decode.
  pose proof (f32_frac_range x) as Hf. pose proof (f32_exp_range x) as He.
  generalize dependent (f32_frac x). generalize dependent (f32_exp x).
  generalize (f32_sign x). intros sg ex Hex fr Hfr.
  destruct (Z.eqb_spec ex 0) as [E0|E0].
  - destruct (Z.eqb_spec fr 0) as [F0|F0]; [discriminate|].
    intros H. injection H as _ Hm Hee. subst m e.
    rewrite Z2Pos.id by lia. lia.
  - destruct (Z.eqb_spec ex 255) as [E1|E1].
    + destruct (fr =? 0); discriminate.
    + intros H. injection H as _ Hm Hee. subst m e.
      rewrite Z2Pos.id by lia. lia.
Qed.

Lemma round_half_even_bound (p q : Z) :
  0 <= p -> 0 < q -> 0 <= round_half_even p q <= p + 1.
Proof.
  intros Hp Hq. unfold round_half_even.
  assert (H0 : 0 <= p / q) by (apply Z.div_pos; lia).
  assert (H1 : p / q <= p) by (apply Z.div_le_upper_bound; nia).
  destruct (_ <? _); [lia|]. destruct (_ <? _); [lia|].
  destruct (Z.even _); lia.
Qed.

(** The scaled integer [%.2f] prints. *)
Lemma printf_2f_scaled_bound (m : positive) (e : Z) :
  Z.pos m < 16777216 -> e <= 104 ->
  let n := if 0 <=? e then Z.pos m * 2 ^ e * 100
           else round_half_even (Z.pos m * 100) (2 ^ (- e)) in
  0 <= n / 100 < 10 ^ 39.
Proof.
  intros Hm He n. subst n. destruct (Z.leb_spec 0 e) as [H0|H0].
  - rewrite Z.div_mul by lia.
    assert (Hp : 0 < 2 ^ e <= 2 ^ 104)
      by (split; [apply Z.pow_pos_nonneg; lia|apply Z.pow_le_mono_r; lia]).
    change (2 ^ 104) with 20282409603651670423947251286016 in Hp.
    change (10 ^ 39) with 1000000000000000000000000000000000000000.
    nia.
  - assert (Hq : 0 < 2 ^ (- e)) by (apply Z.pow_pos_nonneg; lia).
    pose proof (round_half_even_bound (Z.pos m * 100) (2 ^ (- e))
                  ltac:(lia) Hq) as Hb.
    split; [apply Z.div_pos; lia|].
    apply Z.div_lt_upper_bound; [lia|].
    change (10 ^ 39) with 1000000000000000000000000000000000000000. lia.
Qed.

Lemma printf_2f_plain (x : float32) : all_chars plain (printf_2f x) = true.
Proof.
  unfold printf_2f.
  assert (Hs : all_chars plain (if f32_sign x then "-" else "") = true)
    by now destruct (f32_sign x).
  destruct (f32_decode x) as [s|s| |s m e];
    rewrite all_chars_app, Hs; try reflexivity.
  cbn [andb]. rewrite !all_chars_app, print_uint_plain. cbn [all_chars].
  rewrite !digit_char_plain by (apply Z.mod_pos_bound; lia).
  reflexivity.
Qed.

Lemma printf_2f_length (x : float32) :
  (String.length (printf_2f x) <= 43)%nat.
Proof.
  unfold printf_2f.
  assert (Hs : (String.length (if f32_sign x then "-" else "") <= 1)%nat)
    by (destruct (f32_sign x); simpl; lia).
  destruct (f32_decode x) as [s|s| |s m e] eqn:E;
    rewrite length_append_s; try (cbn [String.length]; lia).
  apply f32_decode_finite in E as [Hm He].
  pose proof (printf_2f_scaled_bound m e Hm He) as Hb. cbv zeta in Hb.
  rewrite !length_append_s. cbn [String.length].
  pose proof (length_print_uint 39 _ ltac:(lia) (proj2 Hb)). lia.
Qed.

(* ================================================================== *)
(** ** Rounding

    The conversions [strtod] and [double_to_float] round a rational to a
    binary format.  This part relates what [round_binary] returns to the
    rational it was given, in exact rational arithmetic. *)

Lemma pow2_pos (k : Z) : 0 <= k -> 0 < 2 ^ k.
Proof. intros. apply Z.pow_pos_nonneg; lia. Qed.

Lemma Q2_pos (e : Z) : (0 < Q2 e)%Q.
Proof. apply Qpower_0_lt. reflexivity. Qed.

Lemma Q2_add (a b : Z) : (Q2 (a + b) == Q2 a * Q2 b)%Q.
Proof. apply Qpower_plus. discriminate. Qed.

Lemma Q2_le (a b : Z) : a <= b -> (Q2 a <= Q2 b)%Q.
Proof. intros H. apply Qpower_le_compat_l; [exact H|discriminate]. Qed.

Lemma Q2_lt (a b : Z) : a < b -> (Q2 a < Q2 b)%Q.
Proof. intros H. apply Qpower_lt_compat_l; [exact H|reflexivity]. Qed.

Lemma Q2_lt_inv (a b : Z) : (Q2 a < Q2 b)%Q -> a < b.
Proof. intros H. apply (Qpower_lt_compat_l_inv 2); [exact H|reflexivity]. Qed.

Lemma Q2_Z (e : Z) : 0 <= e -> (inject_Z (2 ^ e) == Q2 e)%Q.
Proof. intros H. unfold Q2. now rewrite Zpower_Qpower. Qed.

Lemma Q2_succ (e : Z) : (Q2 (e + 1) == 2 * Q2 e)%Q.
Proof. rewrite Q2_add. change (Q2 1) with 2%Q. ring. Qed.

Lemma Q2_pred (e : Z) : (Q2 e == 2 * Q2 (e - 1))%Q.
Proof. rewrite <- Q2_succ. now replace (e - 1 + 1) with e by lia. Qed.

Lemma Q2_opp (e : Z) : (Q2 (- e) * Q2 e == 1)%Q.
Proof. rewrite <- Q2_add. now replace (- e + e) with 0 by lia. Qed.

(** *** round_half_even *)

(** Twice the distance of [round_half_even p q] from [p / q], times [q],
    is at most [q]. *)
Lemma round_half_even_err (p q : Z) :
  0 < q -> - q <= 2 * (round_half_even p q * q - p) <= q.
Proof.
  intros Hq. unfold round_half_even.
  pose proof (Z.div_mod p q ltac:(lia)) as E.
  pose proof (Z.mod_pos_bound p q Hq) as B.
  destruct (Z.ltb_spec (2 * (p mod q)) q);
    [|destruct (Z.ltb_spec q (2 * (p mod q)));
      [|destruct (Z.even (p / q))]]; nia.
Qed.

Lemma round_half_even_unique (p q m : Z) :
  0 < q -> - q < 2 * (m * q - p) < q -> round_half_even p q = m.
Proof.
  intros Hq H. pose proof (round_half_even_err p q Hq) as E. nia.
Qed.

(** Moves [inject_Z] to the leaves. *)
Ltac push_inject :=
  unfold Z.sub in *;
  repeat rewrite ?inject_Z_plus, ?inject_Z_mult, ?inject_Z_opp in *.

Lemma inject_Z_pos (z : Z) : 0 < z -> (0 < inject_Z z)%Q.
Proof. intros H. now rewrite <- (Zlt_Qlt 0). Qed.

(** [round_half_even p q] is at most one half away from [p / q]. *)
Lemma round_half_even_Q (p q : Z) (P : Q) :
  0 < q -> (P * inject_Z q == inject_Z p)%Q ->
  (- (1 # 2) <= inject_Z (round_half_even p q) - P <= 1 # 2)%Q.
Proof.
  intros Hq HP. pose proof (round_half_even_err p q Hq) as [E1 E2].
  generalize dependent (round_half_even p q). intros r E1 E2.
  pose proof (inject_Z_pos q Hq) as Hq'.
  rewrite Zle_Qle in E1, E2. push_inject.
  change (inject_Z 2) with 2%Q in *.
  split; apply (Qmult_le_r _ _ (inject_Z q) Hq'); lra.
Qed.

(** *** round_binary *)

Lemma ratio_pos (p q : Z) (P : Q) : 0 < p -> 0 < q -> ratio p q P -> (0 < P)%Q.
Proof.
  unfold ratio. intros Hp Hq H.
  pose proof (inject_Z_pos p Hp). pose proof (inject_Z_pos q Hq).
  apply (Qmult_lt_r _ _ (inject_Z q)); [assumption|]. lra.
Qed.

Lemma ge_pow2_Q (p q k : Z) (P : Q) :
  0 < q -> ratio p q P -> (ge_pow2 p q k = true <-> (Q2 k <= P)%Q).
Proof.
  unfold ratio. intros Hq HP. pose proof (inject_Z_pos q Hq) as Hq'.
  unfold ge_pow2. destruct (Z.leb_spec 0 k) as [Hk|Hk].
  - rewrite Z.leb_le, Zle_Qle, inject_Z_mult, (Q2_Z k Hk).
    rewrite <- (Qmult_le_r (Q2 k) P (inject_Z q) Hq'). split; lra.
  - rewrite Z.leb_le, Zle_Qle, inject_Z_mult, (Q2_Z (- k)) by lia.
    pose proof (Q2_pos (- k)) as H1. pose proof (Q2_opp k) as H2.
    rewrite <- (Qmult_le_r (Q2 k) P (inject_Z q * Q2 (- k)))
      by (apply Qmult_lt_0_compat; assumption).
    rewrite <- HP.
    assert (E : (Q2 k * (inject_Z q * Q2 (- k)) == inject_Z q)%Q).
    { transitivity (inject_Z q * (Q2 (- k) * Q2 k))%Q; [ring|].
      rewrite H2. ring. }
    rewrite E. split; intros H; lra.
Qed.

Lemma floor_log2_Q (p q : Z) (P : Q) :
  0 < p -> 0 < q -> ratio p q P ->
  let l := Z.log2 p - Z.log2 q in
  let fl := if ge_pow2 p q l then l else l - 1 in
  (Q2 fl <= P < Q2 (fl + 1))%Q.
Proof.
  intros Hp Hq HP l fl.
  pose proof (inject_Z_pos q Hq) as Hq'.
  destruct (Z.log2_spec p Hp) as [Hp1 Hp2].
  destruct (Z.log2_spec q Hq) as [Hq1 Hq2].
  pose proof (Z.log2_nonneg p) as Hlp. pose proof (Z.log2_nonneg q) as Hlq.
  rewrite Zle_Qle, Q2_Z in Hp1, Hq1 by lia.
  rewrite Zlt_Qlt, Q2_Z in Hp2, Hq2 by lia.
  replace (Z.succ (Z.log2 p)) with (Z.log2 p + 1) in Hp2 by lia.
  replace (Z.succ (Z.log2 q)) with (Z.log2 q + 1) in Hq2 by lia.
  rewrite Q2_succ in Hp2, Hq2.
  assert (El : (Q2 l * Q2 (Z.log2 q) == Q2 (Z.log2 p))%Q).
  { rewrite <- Q2_add. now replace (l + Z.log2 q) with (Z.log2 p) by (subst l; lia). }
  pose proof (Q2_pos l) as Hl. pose proof (Q2_pos (Z.log2 q)) as HB.
  unfold ratio in HP.
  subst fl. destruct (ge_pow2 p q l) eqn:E.
  - split; [apply (ge_pow2_Q p q l P Hq HP); exact E|].
    rewrite Q2_succ.
    apply (Qmult_lt_r _ _ (inject_Z q) Hq'). rewrite HP.
    apply Qlt_le_trans with (2 * (Q2 l * Q2 (Z.log2 q)))%Q; [rewrite El; exact Hp2|].
    setoid_replace (2 * Q2 l * inject_Z q)%Q with (2 * (Q2 l * inject_Z q))%Q by ring.
    apply Qmult_le_l; [reflexivity|].
    apply Qmult_le_l; assumption.
  - replace (l - 1 + 1) with l by lia. split.
    + apply (Qmult_le_r _ _ (inject_Z q) Hq'). rewrite HP.
      apply Qle_trans with (Q2 (Z.log2 p)); [|exact Hp1]. rewrite <- El.
      rewrite (Q2_pred l).
      pose proof (Q2_pos (l - 1)) as Hl1.
      setoid_replace (2 * Q2 (l - 1) * Q2 (Z.log2 q))%Q
        with (Q2 (l - 1) * (2 * Q2 (Z.log2 q)))%Q by ring.
      apply Qmult_le_l; [exact Hl1|]. lra.
    + apply Qnot_le_lt. intros H.
      apply (ge_pow2_Q p q l P Hq HP) in H. congruence.
Qed.

(** The rounded mantissa at the exponent [e]. *)
Lemma scaled_round_Q (p q e : Z) (P : Q) :
  0 < q -> ratio p q P ->
  let m := if 0 <=? e then round_half_even p (q * 2 ^ e)
           else round_half_even (p * 2 ^ (- e)) q in
  (- Q2 (e - 1) <= inject_Z m * Q2 e - P <= Q2 (e - 1))%Q.
Proof.
  intros Hq HP m. unfold ratio in HP.
  pose proof (Q2_pos e) as He. pose proof (Q2_opp e) as Hopp.
  assert (H : (- (1 # 2) <= inject_Z m - P * Q2 (- e) <= 1 # 2)%Q).
  { subst m. destruct (Z.leb_spec 0 e) as [H0|H0].
    - apply round_half_even_Q.
      + pose proof (pow2_pos e H0). nia.
      + rewrite inject_Z_mult, (Q2_Z e H0).
        transitivity (P * inject_Z q * (Q2 (- e) * Q2 e))%Q; [ring|].
        rewrite Hopp, HP. ring.
    - apply round_half_even_Q; [exact Hq|].
      rewrite inject_Z_mult, (Q2_Z (- e)) by lia. rewrite <- HP. ring. }
  destruct H as [H1 H2].
  assert (E : ((inject_Z m - P * Q2 (- e)) * Q2 e == inject_Z m * Q2 e - P)%Q).
  { transitivity (inject_Z m * Q2 e - P * (Q2 (- e) * Q2 e))%Q; [ring|].
    rewrite Hopp. ring. }
  rewrite <- E.
  assert (Eh : (Q2 (e - 1) == (1 # 2) * Q2 e)%Q) by (rewrite (Q2_pred e); ring).
  rewrite Eh. split.
  - setoid_replace (- ((1 # 2) * Q2 e))%Q with (- (1 # 2) * Q2 e)%Q by ring.
    apply Qmult_le_r; assumption.
  - apply Qmult_le_r; assumption.
Qed.

(** From a comparison of rationals scaled by a power of two to one of
    integers. *)
Lemma Q2_scale_lt (a b : Q) (e : Z) : (a * Q2 e < b * Q2 e)%Q -> (a < b)%Q.
Proof. intros H. apply (Qmult_lt_r _ _ (Q2 e) (Q2_pos e)). exact H. Qed.

Lemma Q2_scale_le (a b : Q) (e : Z) : (a * Q2 e <= b * Q2 e)%Q -> (a <= b)%Q.
Proof. intros H. apply (Qmult_le_r _ _ (Q2 e) (Q2_pos e)). exact H. Qed.

Lemma Q2_split (a b : Z) : (Q2 (a + b) == Q2 b * Q2 a)%Q.
Proof. rewrite Q2_add. ring. Qed.

(** What [round_binary] computes: the exponent [e0] of the binade of
    [p / q] (or [emin]), the mantissa [m0] rounded at that exponent, and
    the result built from them. *)
Lemma round_binary_cases (prec emax : Z) (s : bool) (p q : Z) (P : Q) :
  0 < prec -> 0 < p -> 0 < q -> ratio p q P ->
  exists m0 e0 : Z,
    3 - emax - prec <= e0
    /\ ((Q2 (e0 + prec - 1) <= P)%Q \/ e0 = 3 - emax - prec)
    /\ (P < Q2 (e0 + prec))%Q
    /\ 0 <= m0 <= 2 ^ prec
    /\ ((Q2 (e0 + prec - 1) <= P)%Q -> 2 ^ (prec - 1) <= m0)
    /\ (- Q2 (e0 - 1) <= inject_Z m0 * Q2 e0 - P <= Q2 (e0 - 1))%Q
    /\ round_binary prec emax s p q
       = (let (m, e) := if m0 =? 2 ^ prec then (2 ^ (prec - 1), e0 + 1)
                        else (m0, e0) in
          if m =? 0 then S754_zero s
          else if emax <? e + prec then S754_infinity s
          else S754_finite s (Z.to_pos m) e).
Proof.
  intros Hprec Hp Hq HP.
  pose proof (floor_log2_Q p q P Hp Hq HP) as Hfl. cbv zeta in Hfl.
  unfold round_binary.
  set (fl := if ge_pow2 p q (Z.log2 p - Z.log2 q)
             then Z.log2 p - Z.log2 q else Z.log2 p - Z.log2 q - 1) in *.
  set (e0 := Z.max (fl - prec + 1) (3 - emax - prec)).
  pose proof (scaled_round_Q p q e0 P Hq HP) as Hm. cbv zeta in Hm.
  set (m0 := if 0 <=? e0 then round_half_even p (q * 2 ^ e0)
             else round_half_even (p * 2 ^ (- e0)) q) in *.
  destruct Hfl as [Hlo Hhi].
  assert (Hup : (P < Q2 (e0 + prec))%Q).
  { apply Qlt_le_trans with (Q2 (fl + 1)); [exact Hhi|].
    apply Q2_le. subst e0. lia. }
  assert (Hdn : (Q2 (e0 + prec - 1) <= P)%Q \/ e0 = 3 - emax - prec).
  { destruct (Z.max_spec (fl - prec + 1) (3 - emax - prec)) as [[_ E]|[_ E]];
      fold e0 in E; [right; exact E|left].
    replace (e0 + prec - 1) with fl by lia. exact Hlo. }
  pose proof (Q2_pos e0) as Hu. pose proof (Q2_pred e0) as Hh.
  pose proof (Q2_pos (e0 - 1)) as Hu'.
  pose proof (ratio_pos p q P Hp Hq HP) as HPpos.
  assert (Hpow : (Q2 (e0 + prec) == inject_Z (2 ^ prec) * Q2 e0)%Q).
  { rewrite Q2_split, Q2_Z by lia. reflexivity. }
  assert (Hpow' : (Q2 (e0 + prec - 1) == inject_Z (2 ^ (prec - 1)) * Q2 e0)%Q).
  { replace (e0 + prec - 1) with (e0 + (prec - 1)) by lia.
    rewrite Q2_split, Q2_Z by lia. reflexivity. }
  exists m0, e0.
  split; [subst e0; lia|]. split; [exact Hdn|]. split; [exact Hup|].
  split; [|split; [|split; [exact Hm|reflexivity]]].
  - split.
    + assert (H : (inject_Z (-1) < inject_Z (2 * m0))%Q).
      { rewrite inject_Z_mult. change (inject_Z 2) with 2%Q.
        change (inject_Z (-1)) with (-1)%Q.
        apply (Q2_scale_lt _ _ (e0 - 1)).
        setoid_replace (2 * inject_Z m0 * Q2 (e0 - 1))%Q
          with (inject_Z m0 * Q2 e0)%Q by (rewrite Hh; ring).
        lra. }
      rewrite <- Zlt_Qlt in H. lia.
    + assert (H : (inject_Z (2 * m0) < inject_Z (2 * 2 ^ prec + 1))%Q).
      { rewrite inject_Z_plus, !inject_Z_mult. change (inject_Z 2) with 2%Q.
        change (inject_Z 1) with 1%Q.
        apply (Q2_scale_lt _ _ (e0 - 1)).
        setoid_replace (2 * inject_Z m0 * Q2 (e0 - 1))%Q
          with (inject_Z m0 * Q2 e0)%Q by (rewrite Hh; ring).
        setoid_replace ((2 * inject_Z (2 ^ prec) + 1) * Q2 (e0 - 1))%Q
          with (Q2 (e0 + prec) + Q2 (e0 - 1))%Q by (rewrite Hpow, Hh; ring).
        lra. }
      rewrite <- Zlt_Qlt in H. lia.
  - intros Hge.
    assert (H : (inject_Z (2 * 2 ^ (prec - 1) - 1) <= inject_Z (2 * m0))%Q).
    { unfold Z.sub at 1. rewrite inject_Z_plus, !inject_Z_mult.
      change (inject_Z 2) with 2%Q. change (inject_Z (- (1))) with (-1)%Q.
      apply (Q2_scale_le _ _ (e0 - 1)).
      setoid_replace (2 * inject_Z m0 * Q2 (e0 - 1))%Q
        with (inject_Z m0 * Q2 e0)%Q by (rewrite Hh; ring).
      setoid_replace ((2 * inject_Z (2 ^ (prec - 1)) + -1) * Q2 (e0 - 1))%Q
        with (Q2 (e0 + prec - 1) - Q2 (e0 - 1))%Q by (rewrite Hpow', Hh; ring).
      lra. }
    rewrite <- Zle_Qle in H. lia.
Qed.

(** Below [2 ^ K], [round_binary] returns a number of the format at most
    half a unit in the last place of that range away. *)
Lemma round_binary_error (prec emax : Z) (s : bool) (p q K : Z) (P : Q) :
  0 < prec -> 2 <= emax -> 0 < p -> 0 < q -> ratio p q P ->
  (P < Q2 K)%Q -> K < emax ->
  let f := round_binary prec emax s p q in
  let E := Z.max (K - prec) (3 - emax - prec) in
  canonical prec emax s f
  /\ (- Q2 (E - 1) <= SFabs f - P <= Q2 (E - 1))%Q.
Proof.
  intros Hprec Hemax Hp Hq HP HK HKe f E.
  destruct (round_binary_cases prec emax s p q P Hprec Hp Hq HP)
    as (m0 & e0 & Hmin & Hdn & Hup & Hm0 & Hnorm & Herr & Eq).
  subst f. rewrite Eq. clear Eq.
  assert (He0 : e0 <= E).
  { destruct Hdn as [Hdn|Hdn]; [|subst E; lia].
    assert (H : e0 + prec - 1 < K)
      by (apply Q2_lt_inv; eapply Qle_lt_trans; eassumption).
    subst E. lia. }
  pose proof (Q2_le (e0 - 1) (E - 1) ltac:(lia)) as Hle.
  assert (Hhalf : 0 < 2 ^ (prec - 1) < 2 ^ prec).
  { split; [apply pow2_pos; lia|apply Z.pow_lt_mono_r; lia]. }
  destruct (Z.eqb_spec m0 (2 ^ prec)) as [E1|E1].
  - destruct (Z.eqb_spec (2 ^ (prec - 1)) 0) as [E2|_]; [lia|].
    destruct (Z.ltb_spec emax (e0 + 1 + prec)) as [E3|_]; [subst E; lia|].
    cbn [canonical SFabs]. rewrite Z2Pos.id by lia. split.
    + repeat split; try lia; subst E; lia.
    + assert (Ev : (inject_Z (2 ^ (prec - 1)) * Q2 (e0 + 1)
                    == inject_Z m0 * Q2 e0)%Q).
      { rewrite E1, Q2_succ, (Q2_Z prec), (Q2_Z (prec - 1)) by lia.
        rewrite (Q2_pred prec). ring. }
      rewrite Ev. lra.
  - destruct (Z.eqb_spec m0 0) as [E2|E2].
    + cbn [canonical SFabs]. split; [reflexivity|].
      rewrite E2 in Herr. change (inject_Z 0) with 0%Q in Herr. lra.
    + destruct (Z.ltb_spec emax (e0 + prec)) as [E3|_]; [subst E; lia|].
      cbn [canonical SFabs]. rewrite Z2Pos.id by lia. split.
      * split; [reflexivity|]. split; [lia|]. split; [subst E; lia|].
        destruct Hdn as [Hdn|Hdn]; [left; now apply Hnorm|now right].
      * lra.
Qed.

(** [round_binary] returns the normal number of the format that is less
    than half a unit in the last place away, when there is one in the
    binade. *)
Lemma round_binary_nearest (prec emax : Z) (s : bool) (p q m e : Z) (P : Q) :
  0 < prec -> 0 < p -> 0 < q -> ratio p q P ->
  2 ^ (prec - 1) <= m < 2 ^ prec ->
  3 - emax - prec <= e -> e + prec <= emax ->
  (Q2 (e + prec - 1) <= P)%Q ->
  (- Q2 (e - 1) < inject_Z m * Q2 e - P < Q2 (e - 1))%Q ->
  round_binary prec emax s p q = S754_finite s (Z.to_pos m) e.
Proof.
  intros Hprec Hp Hq HP Hm Hemin Hemax Hlo Hnear.
  destruct (round_binary_cases prec emax s p q P Hprec Hp Hq HP)
    as (m0 & e0 & Hmin & Hdn & Hup & Hm0 & Hnorm & Herr & Eq).
  rewrite Eq. clear Eq.
  pose proof (Q2_pos e) as Hu. pose proof (Q2_pred e) as Hh.
  pose proof (Q2_pos (e - 1)) as Hu'.
  assert (Hpow : (Q2 (e + prec) == inject_Z (2 ^ prec) * Q2 e)%Q).
  { rewrite Q2_split, Q2_Z by lia. reflexivity. }
  assert (Hhi : (P < Q2 (e + prec))%Q).
  { rewrite Hpow.
    assert (H : (inject_Z m + 1 <= inject_Z (2 ^ prec))%Q).
    { change 1%Q with (inject_Z 1). rewrite <- inject_Z_plus, <- Zle_Qle. lia. }
    apply Qlt_le_trans with ((inject_Z m + 1) * Q2 e)%Q; [lra|].
    apply Qmult_le_r; assumption. }
  assert (Ee : e0 = e).
  { assert (H1 : e + prec - 1 < e0 + prec)
      by (apply Q2_lt_inv; eapply Qle_lt_trans; eassumption).
    destruct Hdn as [Hdn|Hdn]; [|lia].
    assert (H2 : e0 + prec - 1 < e + prec)
      by (apply Q2_lt_inv; eapply Qle_lt_trans; eassumption).
    lia. }
  subst e0.
  assert (Em : m0 = m).
  { assert (H1 : (inject_Z (m0 - m) < inject_Z 1)%Q).
    { unfold Z.sub. rewrite inject_Z_plus, inject_Z_opp.
      change (inject_Z 1) with 1%Q. apply (Q2_scale_lt _ _ e). lra. }
    assert (H2 : (inject_Z (m - m0) < inject_Z 1)%Q).
    { unfold Z.sub. rewrite inject_Z_plus, inject_Z_opp.
      change (inject_Z 1) with 1%Q. apply (Q2_scale_lt _ _ e). lra. }
    rewrite <- Zlt_Qlt in H1, H2. lia. }
  subst m0.
  assert (Hhalf : 0 < 2 ^ (prec - 1)) by (apply pow2_pos; lia).
  destruct (Z.eqb_spec m (2 ^ prec)) as [E1|_]; [lia|].
  destruct (Z.eqb_spec m 0) as [E2|_]; [lia|].
  destruct (Z.ltb_spec emax (e + prec)) as [E3|_]; [lia|]. reflexivity.
Qed.

(** *** The conversion of a [double] to [float] *)

Lemma canonical_finite_pos (prec emax : Z) (s : bool) (f : spec_float) :
  canonical prec emax s f -> (0 < SFabs f)%Q ->
  exists m e, f = S754_finite s m e.
Proof.
  destruct f as [s'|s'| |s' m e]; cbn [canonical SFabs];
    intros H Hpos; try contradiction; try lra.
  destruct H as [-> _]. now exists m, e.
Qed.

(** The arguments [double_to_float] gives to [round_binary]. *)
Lemma double_to_float_ratio (s : bool) (m : positive) (e : Z) :
  exists p q, 0 < p /\ 0 < q /\ ratio p q (SFabs (S754_finite s m e))
    /\ double_to_float (S754_finite s m e) = round_binary 24 128 s p q.
Proof.
  cbn [double_to_float SFabs]. destruct (Z.leb_spec 0 e) as [H|H].
  - exists (Z.pos m * 2 ^ e), 1. pose proof (pow2_pos e H).
    repeat split; try lia. unfold ratio.
    rewrite inject_Z_mult, (Q2_Z e H). change (inject_Z 1) with 1%Q. ring.
  - exists (Z.pos m), (2 ^ (- e)). pose proof (pow2_pos (- e) ltac:(lia)).
    repeat split; try lia. unfold ratio.
    rewrite (Q2_Z (- e)) by lia.
    transitivity (inject_Z (Z.pos m) * (Q2 (- e) * Q2 e))%Q; [ring|].
    rewrite Q2_opp. ring.
Qed.

Lemma double_to_float_error (s : bool) (d : spec_float) (K : Z) :
  canonical 53 1024 s d -> (SFabs d < Q2 K)%Q -> K < 128 ->
  let f := double_to_float d in
  let E := Z.max (K - 24) (-149) in
  canonical 24 128 s f
  /\ (- Q2 (E - 1) <= SFabs f - SFabs d <= Q2 (E - 1))%Q.
Proof.
  intros Hd HK HK' f E. pose proof (Q2_pos (E - 1)) as HE.
  destruct d as [s'|s'| |s' m e]; cbn [canonical] in Hd; try contradiction.
  - subst f. cbn [double_to_float SFabs canonical]. split; [exact Hd|lra].
  - destruct Hd as [-> _].
    destruct (double_to_float_ratio s m e) as (p & q & Hp & Hq & Hr & Eq).
    subst f. rewrite Eq.
    apply (round_binary_error 24 128 s p q K); try assumption; lia.
Qed.

Lemma double_to_float_nearest (s : bool) (d : spec_float) (m e : Z) :
  canonical 53 1024 s d ->
  8388608 <= m < 16777216 -> -149 <= e <= 104 ->
  (Q2 (e + 23) <= SFabs d)%Q ->
  (- Q2 (e - 1) < inject_Z m * Q2 e - SFabs d < Q2 (e - 1))%Q ->
  double_to_float d = S754_finite s (Z.to_pos m) e.
Proof.
  intros Hd Hm He Hlo Hnear. pose proof (Q2_pos (e + 23)) as Hpos.
  destruct (canonical_finite_pos _ _ _ _ Hd ltac:(lra)) as (md & ed & ->).
  destruct (double_to_float_ratio s md ed) as (p & q & Hp & Hq & Hr & Eq).
  rewrite Eq.
  apply (round_binary_nearest 24 128 s p q m e (SFabs (S754_finite s md ed)));
    try assumption; try lia.
  replace (e + 24 - 1) with (e + 23) by lia. exact Hlo.
Qed.

(** *** Reading back the two-decimal text of a float *)

(** The scaled integer [%.2f] prints is within one half of a hundred times
    the value. *)
Lemma printf_2f_scaled_near (m : positive) (e : Z) :
  let n := if 0 <=? e then Z.pos m * 2 ^ e * 100
           else round_half_even (Z.pos m * 100) (2 ^ (- e)) in
  0 <= n
  /\ (- (1 # 2) <= inject_Z n - 100 * (inject_Z (Z.pos m) * Q2 e) <= 1 # 2)%Q.
Proof.
  intros n. subst n. destruct (Z.leb_spec 0 e) as [H|H].
  - pose proof (pow2_pos e H). split; [nia|].
    rewrite !inject_Z_mult, (Q2_Z e H). change (inject_Z 100) with 100%Q.
    split; lra.
  - pose proof (pow2_pos (- e) ltac:(lia)) as Hq. split.
    + apply round_half_even_bound; lia.
    + apply round_half_even_Q; [exact Hq|].
      rewrite inject_Z_mult, (Q2_Z (- e)) by lia.
      change (inject_Z 100) with 100%Q.
      transitivity (100 * inject_Z (Z.pos m) * (Q2 (- e) * Q2 e))%Q; [ring|].
      rewrite Q2_opp. ring.
Qed.

(** It is exactly a hundred times the value for an integer. *)
Lemma printf_2f_scaled_exact (m : positive) (e : Z) :
  0 <= e \/ (exists k, 0 <= k /\ Z.pos m = 2 ^ k /\ 0 <= k + e) ->
  let n := if 0 <=? e then Z.pos m * 2 ^ e * 100
           else round_half_even (Z.pos m * 100) (2 ^ (- e)) in
  (inject_Z n == 100 * (inject_Z (Z.pos m) * Q2 e))%Q.
Proof.
  intros H n. subst n. destruct (Z.leb_spec 0 e) as [H0|H0].
  - rewrite !inject_Z_mult, (Q2_Z e H0). change (inject_Z 100) with 100%Q. ring.
  - destruct H as [H|(k & Hk & Em & Hke)]; [lia|].
    pose proof (pow2_pos (- e) ltac:(lia)) as Hq.
    assert (Ek : 2 ^ k = 2 ^ (k + e) * 2 ^ (- e)).
    { rewrite <- Z.pow_add_r by lia. f_equal. lia. }
    rewrite (round_half_even_unique _ _ (100 * 2 ^ (k + e)))
      by (try exact Hq; rewrite Em, Ek; nia).
    rewrite Em, inject_Z_mult, !Q2_Z by lia. change (inject_Z 100) with 100%Q.
    replace k with ((k + e) + - e) at 2 by lia.
    rewrite (Q2_add (k + e) (- e)).
    transitivity (100 * Q2 (k + e) * (Q2 (- e) * Q2 e))%Q;
      [rewrite Q2_opp; ring|ring].
Qed.

Lemma Q2_m6 : (Q2 (-6) == 1 # 64)%Q.
Proof. reflexivity. Qed.

(** A normal [float] read back from a quotient that is its value. *)
Lemma reread_ratio (s : bool) (m : positive) (e p q : Z) :
  8388608 <= Z.pos m < 16777216 -> -149 <= e <= 104 -> 0 < p -> 0 < q ->
  ratio p q (inject_Z (Z.pos m) * Q2 e) ->
  double_to_float (round_binary 53 1024 s p q) = S754_finite s m e.
Proof.
  intros Hm He Hp Hq Hr.
  set (X := (inject_Z (Z.pos m) * Q2 e)%Q) in *.
  assert (HM : 2 ^ 52 <= Z.pos m * 2 ^ 29 < 2 ^ 53).
  { change (2 ^ 52) with (8388608 * 2 ^ 29).
    change (2 ^ 53) with (16777216 * 2 ^ 29).
    pose proof (pow2_pos 29 ltac:(lia)). nia. }
  assert (EX : (inject_Z (Z.pos m * 2 ^ 29) * Q2 (e - 29) == X)%Q).
  { rewrite inject_Z_mult, (Q2_Z 29) by lia. subst X.
    replace e with ((e - 29) + 29) at 2 by lia. rewrite (Q2_add (e - 29) 29).
    ring. }
  assert (Hlo : (Q2 (e + 23) <= X)%Q).
  { subst X. rewrite (Q2_split e 23), <- (Q2_Z 23) by lia.
    apply Qmult_le_r; [apply Q2_pos|]. rewrite <- Zle_Qle.
    change (2 ^ 23) with 8388608. lia. }
  pose proof (Q2_pos (e - 29 - 1)) as Hu1. pose proof (Q2_pos (e - 1)) as Hu2.
  assert (ED : round_binary 53 1024 s p q
               = S754_finite s (Z.to_pos (Z.pos m * 2 ^ 29)) (e - 29)).
  { apply (round_binary_nearest 53 1024 s p q _ _ X); try assumption; try lia.
    - replace (e - 29 + 53 - 1) with (e + 23) by lia. exact Hlo.
    - rewrite EX. split; lra. }
  rewrite ED.
  replace m with (Z.to_pos (Z.pos m)) at 2 by reflexivity.
  apply double_to_float_nearest.
  - cbn [canonical]. rewrite Z2Pos.id by lia.
    split; [reflexivity|]. split; [lia|]. split; [lia|]. left.
    change (53 - 1) with 52. lia.
  - exact Hm.
  - exact He.
  - cbn [SFabs]. rewrite Z2Pos.id by lia. rewrite EX. exact Hlo.
  - cbn [SFabs]. rewrite Z2Pos.id by lia. rewrite EX. fold X. split; lra.
Qed.


(** A normal [float] of at least 2^17, read back from a decimal that is
    its value exactly. *)
Lemma reread_exact (s : bool) (m : positive) (e n : Z) :
  8388608 <= Z.pos m < 16777216 -> -149 <= e <= 104 -> 0 < n ->
  (inject_Z n == 100 * (inject_Z (Z.pos m) * Q2 e))%Q ->
  double_to_float (round_binary 53 1024 s n 100) = S754_finite s m e.
Proof.
  intros Hm He Hn En. apply reread_ratio; try assumption; try lia.
  unfold ratio. change (inject_Z 100) with 100%Q. rewrite En. ring.
Qed.

(** A normal [float] of at least 2^17 that is not a power of two, read
    back from a decimal at most 1/200 away. *)
Lemma reread_near (s : bool) (m : positive) (e n : Z) :
  8388608 < Z.pos m < 16777216 -> -6 <= e <= 104 -> 0 < n ->
  (- (1 # 2) <= inject_Z n - 100 * (inject_Z (Z.pos m) * Q2 e) <= 1 # 2)%Q ->
  double_to_float (round_binary 53 1024 s n 100) = S754_finite s m e.
Proof.
  intros Hm He Hn En.
  pose proof (Q2_pos e) as Hu. pose proof (Q2_le (-6) e ltac:(lia)) as Hu6.
  rewrite Q2_m6 in Hu6.
  assert (Hmlo : ((8388608 + 1) * Q2 e <= inject_Z (Z.pos m) * Q2 e)%Q).
  { apply Qmult_le_r; [exact Hu|].
    change (8388608 + 1)%Q with (inject_Z 8388609). rewrite <- Zle_Qle. lia. }
  assert (Hmhi : (inject_Z (Z.pos m) * Q2 e <= (16777216 - 1) * Q2 e)%Q).
  { apply Qmult_le_r; [exact Hu|].
    change (16777216 - 1)%Q with (inject_Z 16777215). rewrite <- Zle_Qle. lia. }
  set (X := (inject_Z (Z.pos m) * Q2 e)%Q) in *.
  set (V := (inject_Z n * (1 # 100))%Q).
  assert (Hr : ratio n 100 V).
  { unfold ratio, V. change (inject_Z 100) with 100%Q. ring. }
  assert (HV : (- (1 # 200) <= V - X <= 1 # 200)%Q) by (unfold V; split; lra).
  assert (E24 : (Q2 (e + 24) == 16777216 * Q2 e)%Q)
    by (rewrite (Q2_split e 24); reflexivity).
  assert (E23 : (Q2 (e + 23) == 8388608 * Q2 e)%Q)
    by (rewrite (Q2_split e 23); reflexivity).
  assert (E30 : (Q2 e == 1073741824 * Q2 (e - 30))%Q).
  { replace e with ((e - 30) + 30) at 1 by lia.
    rewrite (Q2_split (e - 30) 30). reflexivity. }
  assert (E1 : (Q2 e == 2 * Q2 (e - 1))%Q) by apply Q2_pred.
  pose proof (Q2_pos (e - 30)) as Hu30.
  destruct (round_binary_error 53 1024 s n 100 (e + 24) V)
    as [Hcan Herr]; try assumption; try lia.
  { rewrite E24. lra. }
  replace (Z.max (e + 24 - 53) (3 - 1024 - 53) - 1) with (e - 30) in Herr by lia.
  replace m with (Z.to_pos (Z.pos m)) by reflexivity.
  apply double_to_float_nearest; try assumption; try lia.
  - rewrite E23. lra.
  - fold X. split; lra.
Qed.

Lemma Q2_17 : (Q2 17 == 131072)%Q.
Proof. reflexivity. Qed.

Lemma Q2_m7 : (Q2 (-7) == 1 # 128)%Q.
Proof. reflexivity. Qed.

Lemma Q2_m8 : (Q2 (-8) == 1 # 256)%Q.
Proof. reflexivity. Qed.

Lemma Q2_m37 : (Q2 (-37) == 1 # 137438953472)%Q.
Proof. reflexivity. Qed.

(** A [float] below 2^17, read back from a decimal at most 1/200 away. *)
Lemma reread_small (s : bool) (m : positive) (e n : Z) :
  Z.pos m < 16777216 -> e <= -7 -> 0 < n ->
  (- (1 # 2) <= inject_Z n - 100 * (inject_Z (Z.pos m) * Q2 e) <= 1 # 2)%Q ->
  let f := double_to_float (round_binary 53 1024 s n 100) in
  canonical 24 128 s f
  /\ (- (1 # 100) <= SFabs f - inject_Z (Z.pos m) * Q2 e <= 1 # 100)%Q.
Proof.
  intros Hm He Hn En f.
  pose proof (Q2_pos e) as Hu. pose proof (Q2_le e (-7) He) as Hu7.
  rewrite Q2_m7 in Hu7.
  assert (Hmhi : (inject_Z (Z.pos m) * Q2 e <= (16777216 - 1) * Q2 e)%Q).
  { apply Qmult_le_r; [exact Hu|].
    change (16777216 - 1)%Q with (inject_Z 16777215). rewrite <- Zle_Qle. lia. }
  set (X := (inject_Z (Z.pos m) * Q2 e)%Q) in *.
  set (V := (inject_Z n * (1 # 100))%Q).
  assert (Hr : ratio n 100 V).
  { unfold ratio, V. change (inject_Z 100) with 100%Q. ring. }
  assert (HV : (- (1 # 200) <= V - X <= 1 # 200)%Q) by (unfold V; split; lra).
  destruct (round_binary_error 53 1024 s n 100 17 V)
    as [Hcan Herr]; try assumption; try lia.
  { rewrite Q2_17. lra. }
  change (Z.max (17 - 53) (3 - 1024 - 53) - 1) with (-37) in Herr.
  rewrite Q2_m37 in Herr.
  destruct (double_to_float_error s (round_binary 53 1024 s n 100) 17)
    as [Hcan' Herr']; try assumption; try lia.
  { rewrite Q2_17. lra. }
  change (Z.max (17 - 24) (-149) - 1) with (-8) in Herr'.
  rewrite Q2_m8 in Herr'.
  fold f in Hcan', Herr'. split; [exact Hcan'|]. split; lra.
Qed.

(** *** The bits of a [float] *)

Lemma f32_sign_div (b : float32) :
  f32_sign b = ((b / 2147483648) mod 2 =? 1).
Proof. unfold f32_sign. now rewrite Z.testbit_eqb by lia. Qed.

Lemma f32_exp_div (b : float32) : f32_exp b = (b / 8388608) mod 256.
Proof.
  unfold f32_exp. rewrite Z.shiftr_div_pow2 by lia.
  change 255 with (Z.ones 8). now rewrite Z.land_ones by lia.
Qed.

Lemma f32_frac_mod (b : float32) : f32_frac b = b mod 8388608.
Proof.
  unfold f32_frac. change 8388607 with (Z.ones 23).
  now rewrite Z.land_ones by lia.
Qed.

(** The three fields of a bit pattern built from them. *)
Lemma f32_fields (sg : bool) (ex fr : Z) :
  0 <= ex < 256 -> 0 <= fr < 8388608 ->
  let b := (if sg then 2147483648 else 0) + ex * 8388608 + fr in
  f32_sign b = sg /\ f32_exp b = ex /\ f32_frac b = fr.
Proof.
  intros Hex Hfr b.
  set (k := if sg then 1 else 0).
  assert (Hk : 0 <= k <= 1) by (subst k; destruct sg; lia).
  assert (Eb : b = fr + (ex + k * 256) * 8388608)
    by (subst b k; destruct sg; lia).
  assert (Eb' : b = (fr + ex * 8388608) + k * 2147483648)
    by (subst b k; destruct sg; lia).
  rewrite f32_sign_div, f32_exp_div, f32_frac_mod.
  split; [|split].
  - rewrite Eb', Z.div_add, Z.div_small by lia.
    subst k. now destruct sg.
  - rewrite Eb, Z.div_add, Z.div_small, Z.add_0_l, Z.mod_add by lia.
    apply Z.mod_small. lia.
  - rewrite Eb, Z.mod_add by lia. apply Z.mod_small. lia.
Qed.

(** A bit pattern of 32 bits is made of its three fields. *)
Lemma f32_bits (x : float32) :
  0 <= x < 4294967296 ->
  x = (if f32_sign x then 2147483648 else 0) + f32_exp x * 8388608 + f32_frac x.
Proof.
  intros Hx. rewrite f32_sign_div, f32_exp_div, f32_frac_mod.
  pose proof (Z.div_mod x 8388608 ltac:(lia)) as E1.
  pose proof (Z.div_mod (x / 8388608) 256 ltac:(lia)) as E2.
  pose proof (Z.mod_pos_bound x 8388608 ltac:(lia)) as B1.
  pose proof (Z.mod_pos_bound (x / 8388608) 256 ltac:(lia)) as B2.
  assert (E3 : x / 8388608 / 256 = x / 2147483648)
    by (rewrite Z.div_div by lia; reflexivity).
  assert (B3 : 0 <= x / 2147483648 < 2).
  { split; [apply Z.div_pos; lia|apply Z.div_lt_upper_bound; lia]. }
  rewrite E3 in E2.
  destruct (Z.eqb_spec ((x / 2147483648) mod 2) 1) as [E|E];
    rewrite Z.mod_small in E by lia; lia.
Qed.

(** Decoding the bits of a number of the format gives the number back. *)
Lemma f32_decode_encode (nan_sign s : bool) (f : spec_float) :
  canonical 24 128 s f -> f32_decode (f32_encode nan_sign f) = f.
Proof.
  destruct f as [s'|s'| |s' m e]; cbn [canonical]; try contradiction.
  - intros _. now destruct s'.
  - intros (_ & Hm & He & Hn). change (2 ^ 24) with 16777216 in Hm.
    change (2 ^ (24 - 1)) with 8388608 in Hn.
    cbn [f32_encode]. destruct (Z.ltb_spec (Z.pos m) 8388608) as [Hs|Hs].
    + assert (e = -149) by lia. subst e.
      destruct (f32_fields s' 0 (Z.pos m) ltac:(lia) ltac:(lia))
        as (E1 & E2 & E3). cbv zeta in E1, E2, E3.
      replace ((if s' then 2147483648 else 0) + 0 * 8388608 + Z.pos m)
        with ((if s' then 2147483648 else 0) + Z.pos m) in E1, E2, E3 by lia.
      unfold f32_decode. rewrite E1, E2, E3. cbn [Z.eqb].
      reflexivity.
    + destruct (f32_fields s' (e + 150) (Z.pos m - 8388608)
                  ltac:(lia) ltac:(lia)) as (E1 & E2 & E3).
      cbv zeta in E1, E2, E3.
      unfold f32_decode. rewrite E1, E2, E3.
      destruct (Z.eqb_spec (e + 150) 0) as [E0|_]; [lia|].
      destruct (Z.eqb_spec (e + 150) 255) as [E0|_]; [lia|].
      f_equal; [|lia].
      replace (Z.pos m - 8388608 + 8388608) with (Z.pos m) by lia.
      reflexivity.
Qed.

(** What [f32_decode] returns is a number of the format. *)
Lemma f32_decode_canonical (x : float32) (s : bool) (m : positive) (e : Z) :
  f32_decode x = S754_finite s m e ->
  s = f32_sign x /\ canonical 24 128 s (S754_finite s m e).
Proof.
  unfold f32_decode.
  pose proof (f32_frac_range x) as Hf. pose proof (f32_exp_range x) as He.
  generalize dependent (f32_frac x). generalize dependent (f32_exp x).
  generalize (f32_sign x). intros sg ex Hex fr Hfr.
  cbn [canonical]. change (2 ^ 24) with 16777216.
  change (2 ^ (24 - 1)) with 8388608.
  destruct (Z.eqb_spec ex 0) as [E0|E0].
  - destruct (Z.eqb_spec fr 0) as [F0|F0]; [discriminate|].
    intros H. injection H as Hs Hm Hee. subst s e.
    rewrite <- Hm, Z2Pos.id by lia. repeat split; lia.
  - destruct (Z.eqb_spec ex 255) as [E1|E1].
    + destruct (fr =? 0); discriminate.
    + intros H. injection H as Hs Hm Hee. subst s e.
      rewrite <- Hm, Z2Pos.id by lia. repeat split; lia.
Qed.

(** *** Decimal texts under [strtod] *)

Lemma digit_ch_digit_char (d : Z) : 0 <= d < 10 -> digit_ch (digit_char d) = true.
Proof. intros H. unfold digit_ch. now rewrite digit_val_digit_char. Qed.

Lemma print_uint_digits (n : Z) : all_chars digit_ch (print_uint n) = true.
Proof.
  apply all_chars_digits_onto; [apply digit_ch_digit_char|reflexivity].
Qed.

Lemma digits_text_digits (ds : list Z) :
  Forall is_digit ds -> all_chars digit_ch (digits_text ds) = true.
Proof.
  induction 1 as [|d ds Hd _ IH]; [reflexivity|].
  cbn [digits_text all_chars]. now rewrite digit_ch_digit_char, IH.
Qed.

Lemma skip_digits_app (t rest : string) :
  all_chars digit_ch t = true ->
  skip_digits 10 (t ++ rest) = skip_digits 10 rest.
Proof.
  induction t as [|c t IH]; [reflexivity|]. cbn [all_chars append skip_digits].
  unfold digit_ch at 1. destruct (digit_val 10 c); [|discriminate].
  intros H. now apply IH.
Qed.

Lemma digit_count_app (t rest : string) :
  all_chars digit_ch t = true -> starts_with_digit 10 rest = false ->
  digit_count 10 (t ++ rest) = Z.of_nat (String.length t).
Proof.
  intros Ht Hr. unfold digit_count.
  rewrite skip_digits_app, skip_digits_stop, length_append_s by assumption.
  f_equal. lia.
Qed.

Lemma accum_digits_text (ds : list Z) (rest : string) :
  Forall is_digit ds ->
  forall a, accum 10 (digits_text ds ++ rest) a
            = accum 10 rest (append_digits a ds).
Proof.
  induction 1 as [|d ds Hd _ IH]; intros a; [reflexivity|].
  cbn [digits_text append accum]. rewrite digit_val_digit_char by exact Hd.
  apply IH.
Qed.

Lemma length_digits_text (ds : list Z) :
  String.length (digits_text ds) = List.length ds.
Proof. induction ds as [|d ds IH]; [reflexivity|]. cbn. now rewrite IH. Qed.

Lemma print_uint_nonempty (a : Z) :
  0 <= a -> (1 <= String.length (print_uint a))%nat.
Proof.
  intros H. destruct (print_uint_head a H) as (d & t & _ & _ & ->).
  cbn [String.length]. lia.
Qed.

(** The mantissa of a text with a decimal point. *)
Lemma read_mantissa_decimal (a : Z) (ds : list Z) (rest : string) :
  0 <= a -> Forall is_digit ds -> starts_with_digit 10 rest = false ->
  read_mantissa 10 (print_uint a ++ String "." (digits_text ds ++ rest))
  = Some (append_digits a ds, Z.of_nat (List.length ds), rest).
Proof.
  intros Ha Hds Hrest. unfold read_mantissa.
  rewrite accum_print_uint by exact Ha.
  rewrite digit_count_app by (try apply print_uint_digits; reflexivity).
  rewrite skip_digits_app by apply print_uint_digits.
  rewrite (skip_digits_stop 10 (String "." _)), (accum_stop 10 (String "." _))
    by reflexivity.
  cbv zeta iota beta.
  pose proof (print_uint_nonempty a Ha) as Hlen.
  destruct (Z.eqb_spec (Z.of_nat (String.length (print_uint a))) 0) as [E|_];
    [lia|]. cbn [andb].
  rewrite digit_count_app by (try apply digits_text_digits; assumption).
  rewrite accum_digits_text, skip_digits_app, skip_digits_stop, accum_stop
    by (try apply digits_text_digits; assumption).
  now rewrite length_digits_text.
Qed.


(** What [strtod] does before the digits of a decimal number. *)
Lemma decimal_head (a : Z) (t : string) :
  0 <= a ->
  (a = 0 -> hex_prefix (String "0" t) = None) ->
  let s := print_uint a ++ t in
  lstrip s = s /\ read_sign s = (false, s)
  /\ String.prefix "inf" (lower s) = false
  /\ String.prefix "nan" (lower s) = false
  /\ hex_prefix s = None.
Proof.
  intros Ha Hx s. subst s.
  destruct (Z.eq_dec a 0) as [->|Hnz].
  - specialize (Hx eq_refl). change (print_uint 0) with "0". cbn [append].
    repeat split. exact Hx.
  - destruct (print_uint_head a Ha) as (d & u & Hd & Hpos & ->).
    specialize (Hpos ltac:(lia)). cbn [append].
    assert (Hc : d = 1 \/ d = 2 \/ d = 3 \/ d = 4 \/ d = 5 \/ d = 6 \/ d = 7
                 \/ d = 8 \/ d = 9) by lia.
    repeat (destruct Hc as [Hc|Hc]; [subst; repeat split|]).
    subst; repeat split.
Qed.

(** [strtod] on a sign followed by a text that begins with a digit. *)
Lemma strtod_signed (neg : bool) (s : string) :
  lstrip s = s -> read_sign s = (false, s) ->
  String.prefix "inf" (lower s) = false ->
  String.prefix "nan" (lower s) = false ->
  hex_prefix s = None ->
  strtod (sign_text neg ++ s)
  = match read_mantissa 10 s with
    | Some (n, k, rest) =>
        (scaled_double neg n 10 (read_exponent "e" rest - k), neg)
    | None => (S754_zero false, false)
    end.
Proof.
  intros H1 H2 H3 H4 H5. unfold strtod. destruct neg; cbn [sign_text append].
  - change (lstrip (String "-" s)) with (String "-" s).
    change (read_sign (String "-" s)) with (true, s). cbv beta iota.
    now rewrite H3, H4, H5.
  - rewrite H1, H2. cbv beta iota. now rewrite H3, H4, H5.
Qed.

Lemma strtod_decimal (neg : bool) (a : Z) (ds : list Z) (rest : string) :
  0 <= a -> Forall is_digit ds -> starts_with_digit 10 rest = false ->
  strtod (sign_text neg ++ print_uint a
            ++ String "." (digits_text ds ++ rest))
  = (scaled_double neg (append_digits a ds) 10
       (read_exponent "e" rest - Z.of_nat (List.length ds)), neg).
Proof.
  intros Ha Hds Hrest.
  destruct (decimal_head a (String "." (digits_text ds ++ rest)) Ha)
    as (H1 & H2 & H3 & H4 & H5); [reflexivity|].
  rewrite strtod_signed by assumption.
  now rewrite read_mantissa_decimal.
Qed.


(** The text [%.2f] prints for a finite number, read by [strtod]. *)
Lemma strtod_two_decimals (neg : bool) (n : Z) :
  0 <= n ->
  strtod (sign_text neg ++ print_uint (n / 100) ++ "."
            ++ String (digit_char (n / 10 mod 10))
                 (String (digit_char (n mod 10)) ""))
  = (scaled_double neg n 10 (-2), neg).
Proof.
  intros Hn.
  change ("." ++ String (digit_char (n / 10 mod 10))
                   (String (digit_char (n mod 10)) ""))
    with (String "." (digits_text [n / 10 mod 10; n mod 10] ++ "")).
  rewrite strtod_decimal.
  - cbn [read_exponent List.length append_digits fold_left].
    replace ((n / 100 * 10 + n / 10 mod 10) * 10 + n mod 10) with n;
      [reflexivity|].
    pose proof (Z.div_mod n 10 ltac:(lia)).
    pose proof (Z.div_mod (n / 10) 10 ltac:(lia)).
    replace (n / 100) with (n / 10 / 10) by (rewrite Z.div_div by lia; reflexivity).
    lia.
  - apply Z.div_pos; lia.
  - repeat constructor; apply Z.mod_pos_bound; lia.
  - reflexivity.
Qed.

(** The [float] read back from the two-decimal text of a finite [float]
    is a number of the format at most 1/100 away. *)
Lemma reread (s : bool) (m : positive) (e : Z) :
  canonical 24 128 s (S754_finite s m e) ->
  let n := if 0 <=? e then Z.pos m * 2 ^ e * 100
           else round_half_even (Z.pos m * 100) (2 ^ (- e)) in
  let f := double_to_float (scaled_double s n 10 (-2)) in
  canonical 24 128 s f
  /\ (- (1 # 100) <= SFabs f - inject_Z (Z.pos m) * Q2 e <= 1 # 100)%Q.
Proof.
  intros Hc n f. pose proof Hc as (_ & Hm & He & Hn).
  change (2 ^ 24) with 16777216 in Hm.
  change (2 ^ (24 - 1)) with 8388608 in Hn.
  change (3 - 128 - 24) with (-149) in He, Hn.
  change (128 - 24) with 104 in He.
  destruct (printf_2f_scaled_near m e) as [Hn0 Hnear]. fold n in Hn0, Hnear.
  subst f. unfold scaled_double.
  destruct (Z.eqb_spec n 0) as [E0|E0].
  - cbn [double_to_float canonical SFabs]. split; [reflexivity|].
    rewrite E0 in Hnear. change (inject_Z 0) with 0%Q in Hnear. split; lra.
  - change (0 <=? -2) with false. cbv iota.
    change (10 ^ (- -2)) with 100.
    destruct (Z.le_gt_cases e (-7)) as [Hsmall|Hbig].
    + apply reread_small; try assumption; lia.
    + assert (Ef : double_to_float (round_binary 53 1024 s n 100)
                   = S754_finite s m e).
      { destruct (Z.eq_dec (Z.pos m) 8388608) as [Em|Em].
        - apply reread_exact; try lia.
          apply printf_2f_scaled_exact. right. exists 23.
          repeat split; lia.
        - apply reread_near; try assumption; lia. }
      rewrite Ef. split; [exact Hc|]. cbn [SFabs]. split; lra.
Qed.

(** From the distance of two magnitudes to the units of the format. *)
Lemma SFabs_units (m : positive) (e : Z) :
  -149 <= e ->
  (inject_Z (Z.pos m * 2 ^ (e + 149)) == inject_Z (Z.pos m) * Q2 e * Q2 149)%Q.
Proof.
  intros He. rewrite inject_Z_mult, Q2_Z, (Q2_add e 149) by lia. ring.
Qed.

Lemma near_units (a b : Z) (A B : Q) :
  (inject_Z a == A * Q2 149)%Q -> (inject_Z b == B * Q2 149)%Q ->
  (- (1 # 100) <= B - A <= 1 # 100)%Q ->
  100 * Z.abs (a - b) <= 2 ^ 149.
Proof.
  intros Ea Eb [H1 H2]. pose proof (Q2_pos 149) as Hu.
  assert (H1' : (- (1 # 100) * Q2 149 <= (B - A) * Q2 149)%Q)
    by (apply Qmult_le_r; assumption).
  assert (H2' : ((B - A) * Q2 149 <= (1 # 100) * Q2 149)%Q)
    by (apply Qmult_le_r; assumption).
  assert (L : (inject_Z (100 * (b - a)) <= inject_Z (2 ^ 149))%Q).
  { unfold Z.sub. rewrite inject_Z_mult, inject_Z_plus, inject_Z_opp, Ea, Eb.
    rewrite (Q2_Z 149) by lia. change (inject_Z 100) with 100%Q. lra. }
  assert (U : (inject_Z (100 * (a - b)) <= inject_Z (2 ^ 149))%Q).
  { unfold Z.sub. rewrite inject_Z_mult, inject_Z_plus, inject_Z_opp, Ea, Eb.
    rewrite (Q2_Z 149) by lia. change (inject_Z 100) with 100%Q. lra. }
  rewrite <- Zle_Qle in L, U. lia.
Qed.

(** The units of a number of the format. *)
Lemma f32_units_encode (nan_sign s : bool) (f : spec_float) :
  canonical 24 128 s f ->
  exists u, f32_units (f32_encode nan_sign f)
            = Some ((if s then -1 else 1) * u)
            /\ (inject_Z u == SFabs f * Q2 149)%Q.
Proof.
  intros Hc. unfold f32_units. rewrite (f32_decode_encode nan_sign s f Hc).
  destruct f as [s'|s'| |s' m e]; cbn [canonical] in Hc; try contradiction.
  - exists 0. split; [now destruct s|]. cbn [SFabs]. ring.
  - destruct Hc as (-> & _ & He & _). change (3 - 128 - 24) with (-149) in He.
    exists (Z.pos m * 2 ^ (e + 149)). split; [reflexivity|].
    cbn [SFabs]. apply SFabs_units. lia.
Qed.

Lemma near_finite (x : float32) (s : bool) (m : positive) (e : Z) :
  f32_decode x = S754_finite s m e ->
  f32_near_hundredth x (atof (printf_2f x)) = true.
Proof.
  intros D. destruct (f32_decode_canonical x s m e D) as [Es Hc].
  pose proof Hc as (_ & _ & He & _). change (3 - 128 - 24) with (-149) in He.
  unfold f32_near_hundredth, f32_units at 1, printf_2f. rewrite D.
  rewrite <- Es. fold (sign_text s).
  destruct (printf_2f_scaled_near m e) as [Hn0 _].
  destruct (reread s m e Hc) as [Hcf Hnear]. cbv zeta in Hn0, Hcf, Hnear.
  set (n := if 0 <=? e then Z.pos m * 2 ^ e * 100
            else round_half_even (Z.pos m * 100) (2 ^ (- e))) in *.
  unfold atof. rewrite (strtod_two_decimals s n Hn0).
  destruct (f32_units_encode s s _ Hcf) as (u & -> & Eu).
  apply Z.leb_le.
  pose proof (near_units (Z.pos m * 2 ^ (e + 149)) u _ _
                (SFabs_units m e ltac:(lia)) Eu Hnear) as H.
  destruct s; lia.
Qed.

(** The float [atof] reads from the two-decimal text of a [float] that is
    not a NaN is at most 1/100 away from it; an infinity is read back as
    it was. *)
Lemma atof_printf_2f_near (x : float32) :
  0 <= x < 4294967296 -> f32_decode x <> S754_nan ->
  f32_near_hundredth x (atof (printf_2f x)) = true.
Proof.
  intros Hx Hnan. pose proof (f32_bits x Hx) as Hbits.
  destruct (f32_decode x) as [s|s| |s m e] eqn:D;
    [| | contradiction | exact (near_finite x s m e D)].
  - (* a zero *)
    assert (E : x = if s then 2147483648 else 0).
    { unfold f32_decode in D.
      destruct (Z.eqb_spec (f32_exp x) 0) as [E0|E0].
      - destruct (Z.eqb_spec (f32_frac x) 0) as [F0|F0]; [|discriminate D].
        injection D as <-. rewrite E0, F0 in Hbits.
        destruct (f32_sign x); lia.
      - destruct (f32_exp x =? 255); [destruct (f32_frac x =? 0)|];
          discriminate D. }
    subst x. now destruct s.
  - (* an infinity *)
    assert (E : x = (if s then 2147483648 else 0) + 2139095040).
    { unfold f32_decode in D.
      destruct (Z.eqb_spec (f32_exp x) 0) as [E0|E0].
      - destruct (f32_frac x =? 0); discriminate D.
      - destruct (Z.eqb_spec (f32_exp x) 255) as [E1|E1]; [|discriminate D].
        destruct (Z.eqb_spec (f32_frac x) 0) as [F0|F0]; [|discriminate D].
        injection D as <-. rewrite E1, F0 in Hbits.
        destruct (f32_sign x); lia. }
    subst x. now destruct s.
Qed.

(** A NaN is printed as "nan" or "-nan" and read back as the quiet NaN of
    the same sign. *)
Lemma atof_printf_2f_of_nan (x : float32) :
  f32_decode x = S754_nan ->
  atof (printf_2f x) = if f32_sign x then 0xFFC00000 else 0x7FC00000.
Proof.
  intros D. unfold printf_2f. rewrite D. now destruct (f32_sign x).
Qed.

(** *** Numbers followed by other text *)






(* ================================================================== *)
(** ** C7: decoding what encode wrote *)

Lemma load_line_comment (t : string) (c : DiceConfig) :
  load_line (String "#" t) c = c.
Proof.
  unfold load_line.
  assert (E : exists u, strip_cr (String "#" t) = String "#" u).
  { destruct t as [|d t]; [now exists ""|].
    exists (strip_cr (String d t)). reflexivity. }
  destruct E as [u ->].
  cbn [chars list_ascii_of_string c_str]. unfold trim.
  change (Ascii.eqb "#" NUL) with false. cbv iota.
  cbn [lstrip]. change (isspace "#") with false. cbv iota. reflexivity.
Qed.

Lemma decode_comment_line (t rest : string) (c : DiceConfig) :
  all_chars not_LF t = true -> (String.length t <= 124)%nat ->
  decode (println (String "#" t) ++ rest) c = decode rest c.
Proof.
  intros Hlf Hlen. rewrite decode_println.
  - cbn [append]. now rewrite load_line_comment.
  - cbn [all_chars]. now rewrite Hlf.
  - cbn [String.length]. lia.
Qed.

Lemma decode_blank_line (rest : string) (c : DiceConfig) :
  decode (println "" ++ rest) c = decode rest c.
Proof. rewrite decode_println; [reflexivity|reflexivity|simpl; lia]. Qed.

Lemma decode_key_line (key v rest : string) (c : DiceConfig) :
  clean_key key = true ->
  all_chars not_NUL v = true -> all_chars not_LF v = true ->
  (String.length key + String.length v <= 125)%nat ->
  decode (printfln (key ++ String "=" v) ++ rest) c
  = decode rest (assign key (trim v) c).
Proof.
  intros Hkey Hnul Hlf Hlen. rewrite decode_printfln.
  - now rewrite load_line_key_value_line.
  - rewrite all_chars_app. cbn [all_chars]. rewrite Hlf.
    change (not_LF "=") with true. rewrite !andb_true_r.
    destruct key as [|k0 k]; [discriminate|]. cbn [clean_key] in Hkey.
    apply andb_true_iff in Hkey as [_ Hk].
    apply (all_chars_impl key_char); [|exact Hk].
    intros a Ha. unfold key_char in Ha. apply andb_true_iff in Ha as [Ha _].
    now apply plain_not_LF.
  - rewrite length_append_s. cbn [String.length]. lia.
Qed.

Lemma decode_plain_line (key v rest : string) (c : DiceConfig) :
  clean_key key = true -> all_chars plain v = true ->
  (String.length key + String.length v <= 125)%nat ->
  decode (printfln (key ++ String "=" v) ++ rest) c
  = decode rest (assign key v c).
Proof.
  intros Hkey Hv Hlen. rewrite decode_key_line; try assumption.
  - rewrite trim_not_space; [reflexivity|].
    apply (all_chars_impl plain); [apply plain_not_space|exact Hv].
  - apply (all_chars_impl plain); [apply plain_not_NUL|exact Hv].
  - apply (all_chars_impl plain); [apply plain_not_LF|exact Hv].
Qed.

Lemma mod_small_id (z m : Z) : 0 <= z < m -> z mod m = z.
Proof. apply Z.mod_small. Qed.

(** Passes the comment lines and blank lines at the head of the text. *)
Ltac skip_lines :=
  repeat first [ rewrite decode_comment_line
                   by (reflexivity || (cbn [String.length]; lia))
               | rewrite decode_blank_line ].

(** Side conditions of the line lemmas; the length bounds of the values
    are taken from the context. *)
Ltac line_side :=
  match goal with
  | |- clean_key _ = true => reflexivity
  | |- all_chars not_NUL (c_str _) = true => apply c_str_not_NUL
  | |- all_chars plain (macToString _) = true =>
      apply macToString_plain; assumption
  | |- all_chars plain (print_uint _) = true => apply print_uint_plain
  | |- all_chars plain (print_int _) = true => apply print_int_plain
  | |- all_chars plain (print_bool _) = true => apply print_bool_plain
  | |- all_chars plain (printf_2f _) = true => apply printf_2f_plain
  | |- (_ <= _)%nat => rewrite ?macToString_length; cbn [String.length]; lia
  | _ => assumption
  end.

(** Rewrites the line [key=v] at the head of the text being decoded. *)
Ltac key_line lem key v :=
  let k := eval cbv in (key ++ "=") in
  change (k ++ v) with (key ++ String "=" v);
  rewrite (lem key v) by line_side;
  unfold assign; cbn [strcmp_eq String.eqb Ascii.eqb Bool.eqb];
  rewrite ?parseMacAddress_macToString by assumption;
  cbn [set_diceId set_deviceA_mac set_deviceB1_mac set_deviceB2_mac
       set_x_background set_y_background set_z_background
       set_entang_ab1_color set_entang_ab2_color set_rssiLimit
       set_isSMD set_isNano set_alwaysSeven set_randomSwitchPoint
       set_tumbleConstant set_deepSleepTimeout set_checksum
       diceId deviceA_mac deviceB1_mac deviceB2_mac
       x_background y_background z_background
       entang_ab1_color entang_ab2_color rssiLimit
       isSMD isNano alwaysSeven randomSwitchPoint
       tumbleConstant deepSleepTimeout checksum].

(** The record [load] rebuilds from the text [save] wrote for [r]. *)
Lemma decode_encode (r prior : DiceConfig) :
  wf_config r ->
  (strlen (diceId r) <= 15)%nat ->
  trim (c_str (diceId r)) = c_str (diceId r) ->
  all_chars not_LF (c_str (diceId r)) = true ->
  decode (encode r) prior
  = set_tumbleConstant (atof (printf_2f (tumbleConstant r)))
      (set_diceId (strncpy_buf 15 (c_str (diceId r))) r).
Proof.
  intros [Hid HA HB1 HB2 HbA HbB1 HbB2 Hx Hy Hz He1 He2 Hrl Hrsp Htc Hdst Hck]
         Hlen Htrim Hlf.
  unfold strlen in Hlen. unfold encode.
  replace (printfln ("checksum=" ++ print_uint (checksum r)))
    with (printfln ("checksum=" ++ print_uint (checksum r)) ++ "")
    by apply append_nil_r_s.
  assert (H10 : 4294967296 < 10 ^ Z.of_nat 10) by reflexivity.
  pose proof (length_print_uint 10 (x_background r) ltac:(lia) ltac:(lia)).
  pose proof (length_print_uint 10 (y_background r) ltac:(lia) ltac:(lia)).
  pose proof (length_print_uint 10 (z_background r) ltac:(lia) ltac:(lia)).
  pose proof (length_print_uint 10 (entang_ab1_color r) ltac:(lia) ltac:(lia)).
  pose proof (length_print_uint 10 (entang_ab2_color r) ltac:(lia) ltac:(lia)).
  pose proof (length_print_uint 10 (randomSwitchPoint r) ltac:(lia) ltac:(lia)).
  pose proof (length_print_uint 10 (deepSleepTimeout r) ltac:(lia) ltac:(lia)).
  pose proof (length_print_uint 10 (checksum r) ltac:(lia) ltac:(lia)).
  pose proof (length_print_int 10 (rssiLimit r) ltac:(lia) ltac:(lia)).
  pose proof (print_bool_length (isSMD r)).
  pose proof (print_bool_length (isNano r)).
  pose proof (print_bool_length (alwaysSeven r)).
  pose proof (printf_2f_length (tumbleConstant r)).
  destruct prior as [p1 p2 p3 p4 p5 p6 p7 p8 p9 p10 p11 p12 p13 p14 p15 p16 p17].
  skip_lines.
  key_line decode_key_line "diceId" (c_str (diceId r)).
  skip_lines.
  key_line decode_plain_line "deviceA_mac" (macToString (deviceA_mac r)).
  key_line decode_plain_line "deviceB1_mac" (macToString (deviceB1_mac r)).
  key_line decode_plain_line "deviceB2_mac" (macToString (deviceB2_mac r)).
  skip_lines.
  key_line decode_plain_line "x_background" (print_uint (x_background r)).
  key_line decode_plain_line "y_background" (print_uint (y_background r)).
  key_line decode_plain_line "z_background" (print_uint (z_background r)).
  key_line decode_plain_line "entang_ab1_color"
    (print_uint (entang_ab1_color r)).
  key_line decode_plain_line "entang_ab2_color"
    (print_uint (entang_ab2_color r)).
  skip_lines.
  key_line decode_plain_line "rssiLimit" (print_int (rssiLimit r)).
  skip_lines.
  key_line decode_plain_line "isSMD" (print_bool (isSMD r)).
  key_line decode_plain_line "isNano" (print_bool (isNano r)).
  key_line decode_plain_line "alwaysSeven" (print_bool (alwaysSeven r)).
  skip_lines.
  key_line decode_plain_line "randomSwitchPoint"
    (print_uint (randomSwitchPoint r)).
  key_line decode_plain_line "tumbleConstant"
    (printf_2f (tumbleConstant r)).
  key_line decode_plain_line "deepSleepTimeout"
    (print_uint (deepSleepTimeout r)).
  skip_lines.
  key_line decode_plain_line "checksum" (print_uint (checksum r)).
  rewrite decode_empty, Htrim.
  rewrite !strtoul0_print_uint by (unfold ULONG_MAX; lia).
  rewrite !atoi_print_uint by (unfold LONG_MAX; lia).
  rewrite atoi_print_int by (unfold LONG_MIN, LONG_MAX; lia).
  rewrite !parseBool_print_bool.
  unfold uint16_t, uint8_t, int8_t.
  rewrite !mod_small_id by lia.
  replace (rssiLimit r + 128 - 128) with (rssiLimit r) by lia.
  destruct r; reflexivity.
Qed.

(** C7 (counterexample): the default record with the identifier [" A"] is
    valid, and decoding its encoding gives the identifier ["A"]: [load]
    trims the value. *)
Lemma C7_counterexample_leading_space :
  validate (manager_of spaced_id_config) = true
  /\ c_str (diceId spaced_id_config) = " A"
  /\ c_str (diceId (decode (encode spaced_id_config) spaced_id_config)) = "A".
Proof. vm_compute. repeat split. Qed.

(** The round trip can move a float by more than 0.005: 65536.015625 is
    printed as "65536.02", and the float nearest to that is
    65536.0234375. *)
Lemma two_decimals_move_a_float :
  printf_2f 0x47800002 = "65536.02" /\ atof "65536.02" = 0x47800003.
Proof. split; vm_compute; reflexivity. Qed.

(** A NaN comes back with its sign. *)
Lemma atof_printf_2f_nan :
  atof (printf_2f 0x7FC00000) = 0x7FC00000
  /\ atof (printf_2f 0xFFC00000) = 0xFFC00000.
Proof. split; vm_compute; reflexivity. Qed.

(** C7 (as the code has it): for a record whose identifier is a terminated string
    without leading or trailing white space and without a line feed,
    decoding the text [encode] produces gives back the identifier and every
    other member except [tumbleConstant], whatever the record held before;
    [tumbleConstant] becomes what [atof] reads from its two-decimal text,
    which is at most 1/100 away from the original when that is not a NaN
    (an infinity comes back as it was), and the quiet NaN of the same sign
    when it is. *)
Theorem C7_decode_encode_roundtrip (r prior : DiceConfig) :
  wf_config r ->
  (strlen (diceId r) <= 15)%nat ->
  trim (c_str (diceId r)) = c_str (diceId r) ->
  all_chars not_LF (c_str (diceId r)) = true ->
  let d := decode (encode r) prior in
  c_str (diceId d) = c_str (diceId r)
  /\ tumbleConstant d = atof (printf_2f (tumbleConstant r))
  /\ (f32_decode (tumbleConstant r) <> S754_nan ->
      f32_near_hundredth (tumbleConstant r) (tumbleConstant d) = true)
  /\ (f32_decode (tumbleConstant r) = S754_nan ->
      tumbleConstant d
      = if f32_sign (tumbleConstant r) then 0xFFC00000 else 0x7FC00000)
  /\ (forall f, f <> F_diceId -> f <> F_tumbleConstant -> same_field f d r).
Proof.
  intros Hwf Hlen Htrim Hlf d. subst d.
  rewrite (decode_encode r prior Hwf Hlen Htrim Hlf).
  cbn [diceId tumbleConstant set_tumbleConstant set_diceId].
  split; [|split; [|split; [|split]]].
  - apply c_str_strncpy_buf; [apply c_str_not_NUL|exact Hlen].
  - reflexivity.
  - apply atof_printf_2f_near. destruct Hwf. assumption.
  - apply atof_printf_2f_of_nan.
  - intros f H1 H2. destruct f; try reflexivity; contradiction.
Qed.

Lemma C7_roundtrip_witness :
  let d := decode (encode default_config) zero_config in
  c_str (diceId d) = c_str (diceId default_config)
  /\ tumbleConstant d = atof (printf_2f (tumbleConstant default_config))
  /\ f32_near_hundredth (tumbleConstant default_config) (tumbleConstant d)
     = true
  /\ (forall f, f <> F_diceId -> f <> F_tumbleConstant ->
      same_field f d default_config).
Proof.
  intros d.
  destruct (C7_decode_encode_roundtrip default_config zero_config
              wf_default_config) as (H1 & H2 & H3 & H4).
  - change (7 <= 15)%nat. lia.
  - reflexivity.
  - reflexivity.
  - split; [exact H1|]. split; [exact H2|]. split; [|exact (proj2 H4)].
    apply H3. discriminate.
Defined.

(** On the default record the two-decimal text reads back as the same
    float. *)
Lemma atof_printf_2f_default : atof (printf_2f f32_2_5) = f32_2_5.
Proof. vm_compute. reflexivity. Qed.

(** ** C9: the sub-parsers *)












(** The decimal 2.5 is the float 2.5, and the integer 12 the float 12. *)
Lemma decimal_float_examples :
  decimal_float false 25 1 = f32_2_5
  /\ f32_units f32_2_5 = Some (5 * 2 ^ 148)
  /\ atof "12abc" = 0x41400000.
Proof. repeat split; vm_compute; reflexivity. Qed.

(* ================================================================== *)
(** * Further properties of the code *)

(** ** trim *)

Lemma lstrip_idem (s : string) : lstrip (lstrip s) = lstrip s.
Proof.
  induction s as [|c s IH]; [reflexivity|]. cbn [lstrip].
  destruct (isspace c) eqn:E; [exact IH|]. cbn [lstrip]. now rewrite E.
Qed.

Lemma lstrip_head (s : string) (c : ascii) (t : string) :
  lstrip s = String c t -> isspace c = false.
Proof.
  induction s as [|a s IH]; [discriminate|]. cbn [lstrip].
  destruct (isspace a) eqn:E; [exact IH|]. now intros [= <- _].
Qed.

Lemma rstrip_last (t : string) (c : ascii) :
  rstrip (t ++ String c "") = t ++ String c "" -> isspace c = false.
Proof.
  induction t as [|a t IH]; cbn [append rstrip].
  - destruct (isspace c); [discriminate|reflexivity].
  - destruct (rstrip (t ++ String c "")) as [|b r] eqn:E.
    + destruct (isspace a); intros H; [discriminate H|].
      injection H as H. destruct t; discriminate H.
    + intros [= H]. apply IH. exact H.
Qed.

(** X1: [trim] is idempotent, and what it returns neither begins nor ends
    with a white-space character. *)
Theorem X1_trim_canonical (s : string) :
  trim (trim s) = trim s
  /\ (forall c t, trim s = String c t -> isspace c = false)
  /\ (forall t c, trim s = t ++ String c "" -> isspace c = false).
Proof.
  split; [|split].
  - rewrite !trim_alt. rewrite lstrip_rstrip, lstrip_idem, rstrip_idem.
    reflexivity.
  - intros c t. rewrite trim_alt, <- lstrip_rstrip. apply lstrip_head.
  - intros t c H. apply (rstrip_last t). rewrite <- H, trim_alt.
    apply rstrip_idem.
Qed.

(** ** parseMacAddress and macToString *)

(** X2: [parseMacAddress] reads back the six bytes [macToString] printed,
    also when the text goes on with anything that is not a hexadecimal
    digit. *)
Theorem X2_parseMacAddress_macToString (mac : list Z) (rest : string) :
  List.length mac = 6%nat -> Forall is_byte mac ->
  starts_with_digit 16 rest = false ->
  parseMacAddress (macToString mac ++ rest) = Some mac.
Proof.
  intros Hlen Hb Hrest. explicit_list Hlen.
  repeat match goal with
         | H : Forall _ (_ :: _) |- _ => inversion_clear H
         end.
  unfold parseMacAddress, macToString. cbn [nth].
  repeat rewrite append_assoc_s. cbn [append sscanf_mac].
  repeat (rewrite scan_hex_print_hex2 by (assumption || reflexivity);
          cbn [scan_colon]).
  cbn [List.length Nat.eqb map].
  now rewrite !uint8_t_id by assumption.
Qed.

Lemma X2_parseMacAddress_witness :
  parseMacAddress (macToString [0xDE; 0xAD; 0xBE; 0xEF; 0x00; 0x01] ++ " #b")
  = Some [0xDE; 0xAD; 0xBE; 0xEF; 0x00; 0x01].
Proof.
  apply X2_parseMacAddress_macToString; [reflexivity| |reflexivity].
  repeat (apply Forall_cons; [unfold is_byte; lia|]). apply Forall_nil.
Defined.

(** X3: whatever the text, an address [parseMacAddress] accepts has six
    cells, each a byte. *)
Theorem X3_parseMacAddress_shape (str : string) (mac : list Z) :
  parseMacAddress str = Some mac ->
  List.length mac = 6%nat /\ Forall is_byte mac.
Proof.
  unfold parseMacAddress.
  destruct (Nat.eqb_spec (List.length (sscanf_mac 5 str)) 6) as [E|E];
    [|discriminate].
  intros [= <-]. split; [now rewrite length_map|].
  apply Forall_forall. intros x Hx. apply in_map_iff in Hx as [v [<- _]].
  unfold is_byte, uint8_t. apply Z.mod_pos_bound. lia.
Qed.

Lemma X3_parseMacAddress_shape_witness :
  List.length [1; 2; 3; 4; 5; 255] = 6%nat
  /\ Forall is_byte [1; 2; 3; 4; 5; 255].
Proof.
  apply (X3_parseMacAddress_shape "1:2:3:4:5:-1"). reflexivity.
Defined.

(** ** setDiceId *)

Lemma chars_truncate (n : nat) :
  forall s, chars (truncate n s) = firstn n (chars s).
Proof.
  induction n as [|n IH]; intros [|c s]; try reflexivity.
  cbn [truncate chars list_ascii_of_string firstn]. fold (chars s).
  fold (chars (truncate n s)). now rewrite IH.
Qed.

Lemma all_chars_truncate (p : ascii -> bool) (n : nat) :
  forall s, all_chars p s = true -> all_chars p (truncate n s) = true.
Proof.
  induction n as [|n IH]; intros [|c s] H; try reflexivity.
  cbn [truncate all_chars] in *. apply andb_true_iff in H as [Hc Hs].
  now rewrite Hc, IH.
Qed.

Lemma length_truncate (n : nat) :
  forall s, (String.length (truncate n s) <= n)%nat.
Proof.
  induction n as [|n IH]; intros [|c s]; simpl; try lia.
  specialize (IH s). lia.
Qed.

Lemma strncpy_buf_length (n : nat) (s : string) :
  List.length (strncpy_buf n s) = S n.
Proof.
  unfold strncpy_buf. rewrite !length_app, repeat_length, length_firstn.
  simpl. lia.
Qed.

Lemma strlen_terminated (l : list ascii) :
  (String.length (c_str (l ++ [NUL])) <= List.length l)%nat.
Proof.
  induction l as [|c l IH]; [simpl; lia|]. cbn [app c_str List.length].
  destruct (Ascii.eqb c NUL); simpl; lia.
Qed.

Lemma strncpy_buf_strlen (n : nat) (s : string) :
  (String.length (c_str (strncpy_buf n s)) <= n)%nat.
Proof.
  unfold strncpy_buf. rewrite app_assoc.
  eapply Nat.le_trans; [apply strlen_terminated|].
  rewrite length_app, repeat_length, length_firstn. lia.
Qed.

Lemma c_str_strncpy_buf_truncate (n : nat) (s : string) :
  all_chars not_NUL s = true -> c_str (strncpy_buf n s) = truncate n s.
Proof.
  intros Hs. unfold strncpy_buf. rewrite <- chars_truncate.
  apply c_str_filled. now apply all_chars_truncate.
Qed.

(** X4: after [setDiceId(id)] the identifier buffer still has 16 cells and
    holds a terminated string of at most 15 characters: the first 15
    characters of [id]. *)
Theorem X4_setDiceId_truncates (id : string) (m : Manager) :
  all_chars not_NUL id = true ->
  let buf := diceId (_config (setDiceId id m)) in
  List.length buf = 16%nat
  /\ (strlen buf <= 15)%nat
  /\ c_str buf = truncate 15 id.
Proof.
  intros Hid buf. subst buf. cbn [setDiceId set_config _config set_diceId diceId].
  split; [apply strncpy_buf_length|].
  split; [apply strncpy_buf_strlen|].
  now apply c_str_strncpy_buf_truncate.
Qed.

Lemma X4_setDiceId_witness :
  let buf := diceId (_config (setDiceId "ABCDEFGHIJKLMNOPQRST"
                                 (manager_of default_config))) in
  List.length buf = 16%nat
  /\ (strlen buf <= 15)%nat
  /\ c_str buf = truncate 15 "ABCDEFGHIJKLMNOPQRST".
Proof.
  apply (X4_setDiceId_truncates "ABCDEFGHIJKLMNOPQRST"). reflexivity.
Defined.

(** ** More on the checksum *)

Lemma wf_set_checksum (k : Z) (c : DiceConfig) :
  wf_config c -> is_byte k -> wf_config (set_checksum k c).
Proof. intros [] Hk. split; assumption. Qed.

(** X5: the answer of [validateChecksum] does not depend on the checksum
    stored in the record: changing that byte alone never changes the
    answer. *)
Theorem X5_validateChecksum_ignores_stored_checksum
  (pad : nat -> Z) (c : DiceConfig) (k : Z) :
  wf_config c -> (forall i, is_byte (pad i)) -> is_byte k ->
  validateChecksum pad (set_checksum k c) = validateChecksum pad c.
Proof.
  intros Hwf Hpad Hk. apply eq_true_iff_eq.
  rewrite !validateChecksum_iff
    by (try apply wf_set_checksum; assumption).
  now rewrite spec_checksum_set_checksum.
Qed.

Lemma X5_validateChecksum_witness :
  validateChecksum zero_pad (set_checksum 77 default_config)
  = validateChecksum zero_pad default_config.
Proof.
  apply X5_validateChecksum_ignores_stored_checksum.
  - exact wf_default_config.
  - intros i. unfold is_byte, zero_pad. lia.
  - unfold is_byte. lia.
Defined.

Lemma lxor_twice (a k : Z) : Z.lxor a (Z.lxor a k) = k.
Proof.
  now rewrite <- Z.lxor_assoc, Z.lxor_nilpotent, Z.lxor_0_l.
Qed.

Lemma calculateChecksum_as_set (pad : nat -> Z) (c : DiceConfig) :
  calculateChecksum pad c
  = set_checksum (checksum (calculateChecksum pad c)) c.
Proof. unfold calculateChecksum. cbn [checksum set_checksum]. reflexivity. Qed.

(** X6: [calculateChecksum] applied twice gives back the record it
    started from: a second [save] of an unchanged record restores the
    checksum the first one replaced. *)
Theorem X6_calculateChecksum_involution (pad : nat -> Z) (c : DiceConfig) :
  wf_config c -> (forall i, is_byte (pad i)) ->
  calculateChecksum pad (calculateChecksum pad c) = c.
Proof.
  intros Hwf Hpad.
  pose proof (calculateChecksum_value pad c Hwf Hpad) as H1.
  pose proof (wf_calculateChecksum pad c Hwf Hpad) as Hwf1.
  assert (Hs : spec_checksum (calculateChecksum pad c) = spec_checksum c)
    by apply spec_checksum_set_checksum.
  pose proof (calculateChecksum_as_set pad c) as Hc.
  remember (calculateChecksum pad c) as c1 eqn:E1.
  pose proof (calculateChecksum_value pad c1 Hwf1 Hpad) as H2.
  rewrite Hs, H1, lxor_twice in H2.
  rewrite (calculateChecksum_as_set pad c1), H2, Hc. now destruct c.
Qed.

Lemma X6_calculateChecksum_witness :
  calculateChecksum zero_pad (calculateChecksum zero_pad default_config)
  = default_config.
Proof.
  apply X6_calculateChecksum_involution.
  - exact wf_default_config.
  - intros i. unfold is_byte, zero_pad. lia.
Defined.

(** ** Defaults *)

Lemma default_values_validate (m : Manager) :
  default_values (_config m) -> validate m = true.
Proof.
  intros (Hid & _ & _ & _ & _ & _ & _ & _ & _ & _ & _ & _ & _ & Hrsp & Htc
          & _ & Hck).
  apply validate_iff. unfold strlen. rewrite Hid, Hrsp, Htc, Hck.
  repeat split; try discriminate; try lia; try reflexivity.
Qed.

(** X7: a manager validates right after its constructor and after every
    [setDefaults], whatever its storage held before. *)
Theorem X7_defaults_validate
  (m : Manager) (mem : DiceConfig) (pad : nat -> Z) :
  validate (setDefaults m) = true
  /\ validate (DiceConfigManager mem pad) = true.
Proof.
  split; apply default_values_validate; apply initDefaultConfig_default_values.
Qed.

(** ** The loop of load *)

(** One iteration of the loop on a text that is not empty. *)
Lemma decode_step (s : string) (c : DiceConfig) :
  s <> "" ->
  decode s c
  = decode (snd (readBytesUntil 127 s))
           (load_line (fst (readBytesUntil 127 s)) c).
Proof.
  destruct s as [|a t]; [congruence|]. intros _. unfold decode.
  cbn [String.length load_loop].
  pose proof (readBytesUntil_consumes 126 a t) as Hc.
  destruct (readBytesUntil 127 (String a t)) as [buf rest].
  cbn [fst snd] in *. apply load_loop_fuel; lia.
Qed.

(** Reading from a text [a] followed by a line feed does not look past
    that line feed: either it is consumed, or the read stops inside [a]. *)
Lemma readBytesUntil_prefix (n : nat) :
  forall a b, exists buf,
    (readBytesUntil n (a ++ String LF b) = (buf, b)
     /\ readBytesUntil n (a ++ String LF "") = (buf, ""))
    \/ (exists a',
          (String.length a' <= String.length a)%nat
          /\ (n <> 0%nat -> (String.length a' < String.length a)%nat)
          /\ readBytesUntil n (a ++ String LF b) = (buf, a' ++ String LF b)
          /\ readBytesUntil n (a ++ String LF "")
             = (buf, a' ++ String LF "")).
Proof.
  induction n as [|n IH]; intros a b.
  - exists "". right. exists a. repeat split; try lia; congruence.
  - destruct a as [|c a].
    + exists "". left. split; reflexivity.
    + cbn [append readBytesUntil].
      destruct (Ascii.eqb c LF) eqn:E.
      * exists "". right. exists a. cbn [String.length].
        repeat split; lia.
      * destruct (IH a b) as [buf [[H1 H2]|(a' & Hle & _ & H1 & H2)]].
        -- exists (String c buf). left. now rewrite H1, H2.
        -- exists (String c buf). right. exists a'. rewrite H1, H2.
           cbn [String.length]. repeat split; lia.
Qed.

Lemma decode_app_aux (n : nat) :
  forall a b c, (String.length a <= n)%nat ->
  decode (a ++ String LF b) c = decode b (decode (a ++ String LF "") c).
Proof.
  induction n as [|n IH]; intros a b c Hn.
  - destruct a; [|simpl in Hn; lia]. cbn [append].
    rewrite (decode_step (String LF b)), (decode_step (String LF ""))
      by discriminate.
    reflexivity.
  - rewrite (decode_step (a ++ String LF b))
      by (destruct a; discriminate).
    rewrite (decode_step (a ++ String LF ""))
      by (destruct a; discriminate).
    destruct (readBytesUntil_prefix 127 a b)
      as [buf [[H1 H2]|(a' & _ & Hlt & H1 & H2)]];
      rewrite H1, H2; cbn [fst snd].
    + reflexivity.
    + apply IH. specialize (Hlt ltac:(discriminate)). lia.
Qed.

(** X8: [load] reads a file line by line: a text cut after a line feed
    decodes as its first part followed by its second part, whatever the
    lengths of the lines. *)
Theorem X8_decode_concat (a b : string) (c : DiceConfig) :
  decode (a ++ String LF b) c = decode b (decode (a ++ String LF "") c).
Proof. apply (decode_app_aux (String.length a)). apply Nat.le_refl. Qed.

(** X9: a line [key=value] added after a text that ends with a line feed
    has the last word: the record is the one of the text alone, with the
    key assigned again. *)
Theorem X9_appended_line_overrides
  (text key value : string) (c : DiceConfig) :
  clean_key key = true ->
  all_chars not_NUL value = true -> all_chars not_LF value = true ->
  (String.length key + String.length value <= 125)%nat ->
  decode (text ++ String LF (printfln (key ++ String "=" value))) c
  = assign key (trim value) (decode (text ++ String LF "") c).
Proof.
  intros Hk Hnul Hlf Hlen.
  rewrite (decode_app_aux (String.length text)) by apply Nat.le_refl.
  rewrite <- (append_nil_r_s (printfln (key ++ String "=" value))).
  rewrite decode_key_line by assumption. apply decode_empty.
Qed.

Lemma X9_appended_line_witness :
  decode ("rssiLimit=-80" ++ String LF (printfln ("rssiLimit" ++ String "=" "-55")))
         default_config
  = assign "rssiLimit" (trim "-55")
      (decode ("rssiLimit=-80" ++ String LF "") default_config).
Proof.
  apply X9_appended_line_overrides; try reflexivity. simpl. lia.
Defined.

Lemma assign_none (key value : string) (c : DiceConfig) :
  assigned_member key value = None -> assign key value c = c.
Proof. split_assign; intros H; try discriminate H; reflexivity. Qed.

Lemma assign_comm (k1 v1 k2 v2 : string) (c : DiceConfig) :
  (forall f, assigned_member k1 v1 = Some f ->
             assigned_member k2 v2 <> Some f) ->
  assign k1 v1 (assign k2 v2 c) = assign k2 v2 (assign k1 v1 c).
Proof.
  split_assign; intros H; try reflexivity;
    exfalso; eapply H; reflexivity.
Qed.

(** X10: two lines that do not assign the same member can be read in
    either order. *)
Theorem X10_lines_commute (buf1 buf2 : string) (c : DiceConfig) :
  (forall f, line_member buf1 = Some f -> line_member buf2 <> Some f) ->
  load_line buf1 (load_line buf2 c) = load_line buf2 (load_line buf1 c).
Proof.
  rewrite !load_line_key_value. unfold line_member.
  destruct (line_key_value buf1) as [[k1 v1]|];
    destruct (line_key_value buf2) as [[k2 v2]|]; try reflexivity.
  apply assign_comm.
Qed.

Lemma X10_lines_commute_witness :
  load_line "isNano=1" (load_line "deviceA_mac=0:1:2:3:4:5" default_config)
  = load_line "deviceA_mac=0:1:2:3:4:5" (load_line "isNano=1" default_config).
Proof.
  apply X10_lines_commute. intros f H1 H2.
  vm_compute in H1, H2. rewrite <- H1 in H2. discriminate H2.
Defined.

Lemma readBytesUntil_full (pre rest : string) :
  forall n, String.length pre = n -> all_chars not_LF pre = true ->
  readBytesUntil n (pre ++ rest) = (pre, rest).
Proof.
  induction pre as [|c pre IH]; intros n Hn Hlf.
  - simpl in Hn. subst n. reflexivity.
  - destruct n as [|n]; [discriminate Hn|]. injection Hn as Hn.
    cbn [all_chars] in Hlf. apply andb_true_iff in Hlf as [Hc Hlf].
    cbn [append readBytesUntil]. unfold not_LF in Hc.
    apply negb_true_iff in Hc. now rewrite Hc, (IH n Hn Hlf).
Qed.

(** X11: a line is cut after 127 bytes: what follows the 127th byte is
    read as a line of its own, even when it belongs to a comment. *)
Theorem X11_long_line_is_cut (pre rest : string) (c : DiceConfig) :
  String.length pre = 127%nat -> all_chars not_LF pre = true ->
  decode (pre ++ rest) c = decode rest (load_line pre c).
Proof.
  intros Hlen Hlf. rewrite decode_step.
  - now rewrite (readBytesUntil_full pre rest 127 Hlen Hlf).
  - destruct pre; [discriminate Hlen|discriminate].
Qed.

Lemma X11_long_line_witness :
  decode (comment_127 ++ "checksum=7") default_config
  = decode "checksum=7" (load_line comment_127 default_config).
Proof. apply X11_long_line_is_cut; reflexivity. Defined.

(** The tail of a long comment is executed: here it sets the checksum. *)
Lemma long_comment_tail_is_parsed :
  checksum (decode (comment_127 ++ "checksum=7") default_config) = 7.
Proof. vm_compute. reflexivity. Qed.

Lemma load_line_unassigned (buf : string) (c : DiceConfig) :
  line_member buf = None -> load_line buf c = c.
Proof.
  rewrite load_line_key_value. unfold line_member.
  destruct (line_key_value buf) as [[k v]|]; [apply assign_none|reflexivity].
Qed.

Lemma load_loop_unassigned (fuel : nat) :
  forall rest c, assigned_loop fuel rest = [] -> load_loop fuel rest c = c.
Proof.
  induction fuel as [|fuel IH]; intros rest c H; [reflexivity|].
  cbn [load_loop assigned_loop] in *. destruct rest as [|a t]; [reflexivity|].
  destruct (readBytesUntil 127 (String a t)) as [buf rest'].
  destruct (line_member buf) as [f|] eqn:E; [discriminate H|].
  rewrite (load_line_unassigned buf c E). now apply IH.
Qed.

(** X12: a file in which no line assigns a member - comments, blank lines,
    lines without ['='], unknown keys, MAC addresses that do not parse -
    leaves the record as it was, and is no reason for [load] to fail. *)
Theorem X12_unassigned_file_changes_nothing
  (fs : FileSystem) (m : Manager) (filename content : string) :
  fs_read fs filename = Some content ->
  assigned_members content = [] ->
  _config (snd (load fs m filename)) = _config m
  /\ (checksum (_config m) = 0 -> load fs m filename = (true, m)).
Proof.
  intros Hread Hnone.
  assert (E : decode content (_config m) = _config m)
    by (apply load_loop_unassigned; exact Hnone).
  split.
  - now rewrite (load_config _ _ _ _ Hread).
  - intros H0. unfold load. rewrite Hread, E.
    cbn [_config set_config]. rewrite H0. cbn [Z.eqb negb].
    now destruct m.
Qed.

Lemma X12_unassigned_file_witness :
  let m := manager_of default_config in
  _config (snd (load fs_idle m "/a_config.txt")) = _config m
  /\ (checksum (_config m) = 0 -> load fs_idle m "/a_config.txt" = (true, m)).
Proof.
  intros m.
  apply (X12_unassigned_file_changes_nothing fs_idle m "/a_config.txt"
           idle_file eq_refl).
  vm_compute. reflexivity.
Defined.

(** ** Numbers out of range *)

Lemma load_line_plain (key v : string) (c : DiceConfig) :
  clean_key key = true -> all_chars plain v = true ->
  load_line (key ++ String "=" v) c = assign key v c.
Proof.
  intros Hk Hv. rewrite load_line_key_value_line.
  - rewrite trim_not_space; [reflexivity|].
    apply (all_chars_impl plain); [apply plain_not_space|exact Hv].
  - exact Hk.
  - apply (all_chars_impl plain); [apply plain_not_NUL|exact Hv].
Qed.

(** X13: [load] does not reject a number that does not fit its member: it
    stores the number reduced to the width of the member - modulo 256 for
    [randomSwitchPoint], modulo 65536 for a colour, wrapped into -128..127
    for [rssiLimit]. *)
Theorem X13_load_wraps_numbers (n : Z) (c : DiceConfig) :
  (0 <= n <= LONG_MAX ->
   load_line ("randomSwitchPoint=" ++ print_uint n) c
   = set_randomSwitchPoint (n mod 256) c)
  /\ (0 <= n <= ULONG_MAX ->
      load_line ("x_background=" ++ print_uint n) c
      = set_x_background (n mod 65536) c)
  /\ (LONG_MIN <= n <= LONG_MAX ->
      load_line ("rssiLimit=" ++ print_int n) c
      = set_rssiLimit ((n + 128) mod 256 - 128) c).
Proof.
  split; [|split]; intros Hn.
  - change ("randomSwitchPoint=" ++ print_uint n)
      with ("randomSwitchPoint" ++ String "=" (print_uint n)).
    rewrite load_line_plain by (reflexivity || apply print_uint_plain).
    unfold assign. cbn [strcmp_eq String.eqb Ascii.eqb Bool.eqb].
    now rewrite atoi_print_uint by exact Hn.
  - change ("x_background=" ++ print_uint n)
      with ("x_background" ++ String "=" (print_uint n)).
    rewrite load_line_plain by (reflexivity || apply print_uint_plain).
    unfold assign. cbn [strcmp_eq String.eqb Ascii.eqb Bool.eqb].
    now rewrite strtoul0_print_uint by exact Hn.
  - change ("rssiLimit=" ++ print_int n)
      with ("rssiLimit" ++ String "=" (print_int n)).
    rewrite load_line_plain by (reflexivity || apply print_int_plain).
    unfold assign. cbn [strcmp_eq String.eqb Ascii.eqb Bool.eqb].
    now rewrite atoi_print_int by exact Hn.
Qed.

Lemma X13_load_wraps_witness :
  load_line ("randomSwitchPoint=" ++ print_uint 300) default_config
  = set_randomSwitchPoint (300 mod 256) default_config.
Proof.
  apply (X13_load_wraps_numbers 300 default_config).
  unfold LONG_MAX. lia.
Defined.

(** A file asking for 300 per cent passes [validate], as 44. *)
Lemma wrapped_value_validates :
  validate (manager_of (decode "randomSwitchPoint=300" default_config))
  = true.
Proof. vm_compute. reflexivity. Qed.

(** ** The text buffers *)

Lemma buffers_fit_setError (error : string) (m : Manager) :
  buffers_fit m -> buffers_fit (setError error m).
Proof.
  intros [Hp _]. split; [exact Hp|]. cbn [setError _lastError].
  apply length_truncate.
Qed.

Lemma buffers_fit_set_config (c : DiceConfig) (m : Manager) :
  buffers_fit m -> buffers_fit (set_config c m).
Proof. intros H. exact H. Qed.

Lemma buffers_fit_set_configPath (p : string) (m : Manager) :
  (String.length p <= 63)%nat -> buffers_fit m ->
  buffers_fit (set_configPath p m).
Proof. intros Hp [_ He]. split; assumption. Qed.

Lemma buffers_fit_load (fs : FileSystem) (m : Manager) (filename : string) :
  buffers_fit m -> buffers_fit (snd (load fs m filename)).
Proof.
  intros H. unfold load. destruct (fs_read fs filename) as [content|].
  - cbn [_config set_config _config_padding].
    destruct (negb _); [destruct (negb _)|]; cbn [snd];
      try apply buffers_fit_setError; exact H.
  - apply buffers_fit_setError, H.
Qed.

Lemma buffers_fit_findConfigFile (fs : FileSystem) (m : Manager) :
  buffers_fit m ->
  buffers_fit (snd (findConfigFile fs m 64))
  /\ (forall p, fst (findConfigFile fs m 64) = Some p ->
                (String.length p <= 63)%nat).
Proof.
  intros H. unfold findConfigFile.
  destruct (fs_root_opens fs); [|split; [exact H|discriminate]].
  destruct (fs_root_isDirectory fs); [|split; [exact H|discriminate]].
  cbn [negb].
  destruct (fold_left scan_step (fs_names fs) (0, "")) as [k first].
  destruct (k =? 1).
  - assert (E : exists s,
              match first with
              | String "/" _ => (Some (truncate (64 - 1) first), m)
              | _ => (Some (truncate (64 - 1) ("/" ++ first)), m)
              end = (Some (truncate 63 s), m)).
    { destruct first as [|[[] [] [] [] [] [] [] []] t];
        eexists; reflexivity. }
    destruct E as [s ->]. cbn [fst snd].
    split; [exact H|]. intros p Hp.
    pose proof (length_truncate 63 s) as Hs.
    remember (truncate 63 s) as t eqn:Et. injection Hp as <-. exact Hs.
  - destruct (k =? 0); cbn [fst snd];
      (split; [apply buffers_fit_setError, H|discriminate]).
Qed.

(** X14: the manager never keeps more than its buffers hold: if the path
    has at most 63 characters and the error message at most 127 before a
    call of [begin], [load] or [save], the same is true after it, whatever
    the lengths of the path given, of the names in the directory and of the
    messages. *)
Theorem X14_buffers_never_overflow
  (fs : FileSystem) (m : Manager) (configPath : option string)
  (formatOnFail : bool) (filename : string) :
  buffers_fit m ->
  buffers_fit (snd (begin fs m configPath formatOnFail))
  /\ buffers_fit (snd (load fs m filename))
  /\ buffers_fit (snd (fst (save fs m filename))).
Proof.
  intros H. split; [|split].
  - unfold begin. destruct (negb (fs_mount fs formatOnFail));
      [apply buffers_fit_setError, H|].
    assert (Hload : forall m1, buffers_fit m1 ->
              buffers_fit
                (snd (let (loaded, m2) := load fs m1 (_configPath m1) in
                      if negb loaded then (true, setDefaults m2)
                      else (true, m2)))).
    { intros m1 H1. pose proof (buffers_fit_load fs m1 (_configPath m1) H1).
      destruct (load fs m1 (_configPath m1)) as [[] m2]; assumption. }
    destruct configPath as [p|].
    + apply Hload, buffers_fit_set_configPath; [apply length_truncate|exact H].
    + destruct (buffers_fit_findConfigFile fs m H) as [Hm Hp].
      destruct (findConfigFile fs m 64) as [[fp|] m1]; cbn [fst snd] in *.
      * apply Hload, buffers_fit_set_configPath; [now apply Hp|exact Hm].
      * apply buffers_fit_set_configPath; [simpl; lia|exact Hm].
  - apply buffers_fit_load, H.
  - unfold save. destruct (negb (fs_writable fs filename)); cbn [fst snd];
      [apply buffers_fit_setError|]; exact H.
Qed.

Lemma X14_buffers_witness :
  let m := manager_of default_config in
  let long := replicate 200 "p" in
  buffers_fit (snd (begin fs_empty m (Some long) true))
  /\ buffers_fit (snd (load fs_empty m long))
  /\ buffers_fit (snd (fst (save fs_empty m long))).
Proof.
  intros m long. apply X14_buffers_never_overflow.
  split; simpl; lia.
Defined.

(** ** begin on a discovered file *)

Lemma findConfigFile_unique (fs : FileSystem) (m : Manager) (name : string) :
  fs_root_opens fs = true -> fs_root_isDirectory fs = true ->
  filter is_config_name (fs_names fs) = [name] ->
  (String.length name <= 62)%nat ->
  findConfigFile fs m 64 = (Some (normalized name), m).
Proof.
  intros Hopen Hdir Hone Hlen. unfold findConfigFile.
  rewrite Hopen, Hdir. cbn [negb]. rewrite scan_fold, Hone by lia.
  cbn [Z.eqb Z.add List.length Z.of_nat Pos.of_succ_nat Pos.eqb Nat.sub].
  rewrite (truncate_short 63 name) by lia.
  assert (E : truncate 63 (normalized name) = normalized name).
  { apply truncate_short. unfold normalized.
    destruct name as [|[[] [] [] [] [] [] [] []] t]; simpl in *; lia. }
  unfold normalized in *.
  destruct name as [|[[] [] [] [] [] [] [] []] t]; now rewrite E.
Qed.

(** X15: when [begin] is called without a path, the mount succeeds, the
    root holds exactly one name ending in ["_config.txt"] (of at most 62
    characters), that file opens and its checksum is 0 or accepted, [begin]
    returns [true], the record is the one decoded from the file over the
    record before, and [_configPath] is the path of the file. *)
Theorem X15_begin_loads_the_discovered_file
  (fs : FileSystem) (m : Manager) (formatOnFail : bool)
  (name content : string) :
  fs_mount fs formatOnFail = true ->
  fs_root_opens fs = true -> fs_root_isDirectory fs = true ->
  filter is_config_name (fs_names fs) = [name] ->
  (String.length name <= 62)%nat ->
  fs_read fs (normalized name) = Some content ->
  checksum_accepted (_config_padding m) (decode content (_config m)) = true ->
  begin fs m None formatOnFail
  = (true, set_config (decode content (_config m))
             (set_configPath (normalized name) m)).
Proof.
  intros Hmount Hopen Hdir Hone Hlen Hread Hck. unfold begin.
  rewrite Hmount. cbn [negb].
  rewrite (findConfigFile_unique fs m name Hopen Hdir Hone Hlen).
  unfold load. cbn [_configPath set_configPath]. rewrite Hread.
  cbn [_config set_config _config_padding set_configPath].
  unfold checksum_accepted in Hck. apply negb_true_iff in Hck.
  destruct (checksum (decode content (_config m)) =? 0); [reflexivity|].
  destruct (validateChecksum (_config_padding m)
              (decode content (_config m))); [reflexivity|].
  discriminate Hck.
Qed.

Lemma X15_begin_witness :
  begin fs_one_file (manager_of default_config) None true
  = (true,
     set_config
       (decode ("diceId=BART1" ++ nl ++ "rssiLimit=-55" ++ nl)
               (_config (manager_of default_config)))
       (set_configPath (normalized "dice_config.txt")
          (manager_of default_config))).
Proof.
  apply (X15_begin_loads_the_discovered_file fs_one_file
           (manager_of default_config) true "dice_config.txt");
    try reflexivity.
  simpl. lia.
Defined.

(** ** save, then load *)

(** X16: what [save] writes, a later [load] of the same path reads back
    into any manager: for a record within the ranges of its types whose
    identifier is a terminated string without leading or trailing white
    space and without a line feed, [save] on a writable path returns
    [true], and [load] from the resulting store leaves the saved record,
    with the identifier buffer refilled and [tumbleConstant] read from its
    two-decimal text - whether or not [load] then accepts the checksum.
    The [tumbleConstant] read is at most 1/100 away from the one saved,
    when that is not a NaN, and the quiet NaN of the same sign when it
    is. *)
Theorem X16_load_reads_what_save_wrote
  (fs : FileSystem) (m m2 : Manager) (filename : string) :
  wf_config (_config m) -> (forall i, is_byte (_config_padding m i)) ->
  (strlen (diceId (_config m)) <= 15)%nat ->
  trim (c_str (diceId (_config m))) = c_str (diceId (_config m)) ->
  all_chars not_LF (c_str (diceId (_config m))) = true ->
  fs_writable fs filename = true ->
  let '(saved, m1, fs1) := save fs m filename in
  saved = true
  /\ _config m1 = calculateChecksum (_config_padding m) (_config m)
  /\ _config (snd (load fs1 m2 filename))
     = set_tumbleConstant (atof (printf_2f (tumbleConstant (_config m))))
         (set_diceId (strncpy_buf 15 (c_str (diceId (_config m))))
            (_config m1))
  /\ (f32_decode (tumbleConstant (_config m)) <> S754_nan ->
      f32_near_hundredth (tumbleConstant (_config m))
        (tumbleConstant (_config (snd (load fs1 m2 filename)))) = true)
  /\ (f32_decode (tumbleConstant (_config m)) = S754_nan ->
      tumbleConstant (_config (snd (load fs1 m2 filename)))
      = if f32_sign (tumbleConstant (_config m))
        then 0xFFC00000 else 0x7FC00000).
Proof.
  intros Hwf Hpad Hlen Htrim Hlf Hw. unfold save. rewrite Hw. cbn [negb].
  cbn [_config set_config _config_padding].
  split; [reflexivity|]. split; [reflexivity|].
  assert (E : _config
                (snd (load
                        (fs_write fs filename
                           (encode (calculateChecksum (_config_padding m)
                                      (_config m))))
                        m2 filename))
              = set_tumbleConstant
                  (atof (printf_2f (tumbleConstant (_config m))))
                  (set_diceId (strncpy_buf 15 (c_str (diceId (_config m))))
                     (calculateChecksum (_config_padding m) (_config m)))).
  { rewrite (load_config _ _ _ (encode (calculateChecksum (_config_padding m)
                                          (_config m)))).
    - apply (decode_encode (calculateChecksum (_config_padding m) (_config m))).
      + now apply wf_calculateChecksum.
      + exact Hlen.
      + exact Htrim.
      + exact Hlf.
    - cbn [fs_write fs_read]. now rewrite String.eqb_refl. }
  split; [exact E|]. rewrite E. cbn [tumbleConstant set_tumbleConstant].
  split.
  - intros Hnan.
    apply atof_printf_2f_near; [destruct Hwf; assumption|exact Hnan].
  - apply atof_printf_2f_of_nan.
Qed.

Lemma X16_save_load_witness :
  let m := manager_of default_config in
  let '(saved, m1, fs1) := save fs_empty m "/dice_config.txt" in
  saved = true
  /\ _config m1 = calculateChecksum (_config_padding m) (_config m)
  /\ _config (snd (load fs1 (manager_of zero_config) "/dice_config.txt"))
     = set_tumbleConstant (atof (printf_2f (tumbleConstant (_config m))))
         (set_diceId (strncpy_buf 15 (c_str (diceId (_config m))))
            (_config m1))
  /\ (f32_decode (tumbleConstant (_config m)) <> S754_nan ->
      f32_near_hundredth (tumbleConstant (_config m))
        (tumbleConstant
           (_config (snd (load fs1 (manager_of zero_config)
                            "/dice_config.txt")))) = true)
  /\ (f32_decode (tumbleConstant (_config m)) = S754_nan ->
      tumbleConstant
        (_config (snd (load fs1 (manager_of zero_config)
                         "/dice_config.txt")))
      = if f32_sign (tumbleConstant (_config m))
        then 0xFFC00000 else 0x7FC00000).
Proof.
  intros m.
  apply (X16_load_reads_what_save_wrote fs_empty m (manager_of zero_config)
           "/dice_config.txt").
  - exact wf_default_config.
  - intros i. change (is_byte 0). unfold is_byte. lia.
  - change (7 <= 15)%nat. lia.
  - reflexivity.
  - reflexivity.
  - reflexivity.
Defined.

(** ** load keeps the record within the ranges of its types *)

Lemma below_pow2_scaled (p q k K : Z) :
  Z.abs k <= K ->
  below_pow2 p q k <-> p * 2 ^ K < q * 2 ^ (K + k).
Proof.
  intros HK. unfold below_pow2. destruct (Z.leb_spec 0 k) as [Hk|Hk].
  - rewrite Z.pow_add_r by lia.
    pose proof (pow2_pos K ltac:(lia)). pose proof (pow2_pos k Hk). nia.
  - replace K with ((K + k) + - k) at 1 by lia.
    rewrite Z.pow_add_r by lia.
    pose proof (pow2_pos (K + k) ltac:(lia)).
    pose proof (pow2_pos (- k) ltac:(lia)). nia.
Qed.

Lemma below_pow2_mono (p q k k' : Z) :
  0 < q -> k <= k' -> below_pow2 p q k -> below_pow2 p q k'.
Proof.
  intros Hq Hk H.
  apply (below_pow2_scaled p q k (Z.abs k + Z.abs k')) in H; [|lia].
  apply (below_pow2_scaled p q k' (Z.abs k + Z.abs k')); [lia|].
  eapply Z.lt_le_trans; [exact H|].
  apply Z.mul_le_mono_nonneg_l; [lia|].
  apply Z.pow_le_mono_r; lia.
Qed.

(** The exponent [round_binary] starts from is above the logarithm. *)
Lemma below_pow2_log (p q : Z) :
  0 < p -> 0 < q ->
  let l := Z.log2 p - Z.log2 q in
  below_pow2 p q ((if ge_pow2 p q l then l else l - 1) + 1).
Proof.
  intros Hp Hq l.
  destruct (ge_pow2 p q l) eqn:E.
  - destruct (Z.log2_spec p Hp) as [_ Hp2].
    destruct (Z.log2_spec q Hq) as [Hq1 _].
    pose proof (Z.log2_nonneg p). pose proof (Z.log2_nonneg q).
    apply (below_pow2_scaled p q (l + 1) (Z.log2 p + Z.log2 q + 1));
      [subst l; lia|].
    replace (Z.succ (Z.log2 p)) with (Z.log2 p + 1) in Hp2 by lia.
    pose proof (pow2_pos (Z.log2 q) ltac:(lia)) as Ha.
    pose proof (pow2_pos (Z.log2 p + 1) ltac:(lia)) as Hb.
    replace (Z.log2 p + Z.log2 q + 1 + (l + 1))
      with ((Z.log2 p + 1) + (Z.log2 p + 1)) by (subst l; lia).
    replace (Z.log2 p + Z.log2 q + 1)
      with (Z.log2 q + (Z.log2 p + 1)) by lia.
    rewrite (Z.pow_add_r 2 (Z.log2 q)), (Z.pow_add_r 2 (Z.log2 p + 1)) by lia.
    rewrite !Z.mul_assoc.
    apply Z.mul_lt_mono_pos_r; [exact Hb|].
    apply Z.le_lt_trans with (q * p); [nia|].
    apply Z.mul_lt_mono_pos_l; lia.
  - replace (l - 1 + 1) with l by lia.
    unfold ge_pow2 in E. unfold below_pow2.
    destruct (0 <=? l); [apply Z.leb_gt in E|apply Z.leb_gt in E]; exact E.
Qed.

Lemma round_half_even_le (p q B : Z) :
  0 <= p -> 0 < q -> p < q * B -> 0 <= round_half_even p q <= B.
Proof.
  intros Hp Hq HB. unfold round_half_even.
  assert (H0 : 0 <= p / q) by (apply Z.div_pos; lia).
  assert (H1 : p / q < B) by (apply Z.div_lt_upper_bound; lia).
  destruct (_ <? _); [lia|]. destruct (_ <? _); [lia|].
  destruct (Z.even _); lia.
Qed.

(** A finite result of [round_binary] has a mantissa of [prec] bits and
    an exponent within the format. *)
Lemma round_binary_finite (prec emax : Z) (s : bool) (p q : Z) :
  0 < prec -> 0 < p -> 0 < q ->
  forall s' m e, round_binary prec emax s p q = S754_finite s' m e ->
  Z.pos m < 2 ^ prec /\ 3 - emax - prec <= e <= emax - prec.
Proof.
  intros Hprec Hp Hq s' m e. unfold round_binary.
  pose proof (below_pow2_log p q Hp Hq) as Hlog. cbv zeta in Hlog.
  set (fl := if ge_pow2 p q (Z.log2 p - Z.log2 q)
             then Z.log2 p - Z.log2 q else Z.log2 p - Z.log2 q - 1) in *.
  set (e0 := Z.max (fl - prec + 1) (3 - emax - prec)).
  assert (He0 : fl + 1 <= e0 + prec) by (subst e0; lia).
  assert (Hemin : 3 - emax - prec <= e0) by (subst e0; lia).
  apply (below_pow2_mono p q _ _ Hq He0) in Hlog.
  set (m0 := if 0 <=? e0 then round_half_even p (q * 2 ^ e0)
             else round_half_even (p * 2 ^ (- e0)) q).
  assert (Hm0 : 0 <= m0 <= 2 ^ prec).
  { subst m0. destruct (Z.leb_spec 0 e0) as [H0|H0].
    - apply round_half_even_le; [lia| |].
      + pose proof (pow2_pos e0 H0). nia.
      + unfold below_pow2 in Hlog.
        replace (0 <=? e0 + prec) with true in Hlog
          by (symmetry; apply Z.leb_le; lia).
        rewrite Z.pow_add_r in Hlog by lia. lia.
    - pose proof (pow2_pos (- e0) ltac:(lia)).
      apply round_half_even_le; [nia|lia|].
      apply (below_pow2_scaled p q (e0 + prec) (Z.abs e0 + prec)) in Hlog;
        [|lia].
      replace (Z.abs e0 + prec) with (- e0 + prec) in Hlog by lia.
      replace (- e0 + prec + (e0 + prec)) with (prec + prec) in Hlog by lia.
      rewrite !Z.pow_add_r in Hlog by lia.
      pose proof (pow2_pos prec ltac:(lia)). nia. }
  assert (Hhalf : 0 < 2 ^ (prec - 1) < 2 ^ prec).
  { split; [apply pow2_pos; lia|]. apply Z.pow_lt_mono_r; lia. }
  destruct (Z.eqb_spec m0 (2 ^ prec)) as [E|E].
  - destruct (2 ^ (prec - 1) =? 0); [discriminate|].
    destruct (emax <? e0 + 1 + prec) eqn:Ee; [discriminate|].
    intros [= _ <- <-]. apply Z.ltb_ge in Ee.
    rewrite Z2Pos.id by lia. lia.
  - destruct (Z.eqb_spec m0 0) as [E0|E0]; [discriminate|].
    destruct (emax <? e0 + prec) eqn:Ee; [discriminate|].
    intros [= _ <- <-]. apply Z.ltb_ge in Ee.
    rewrite Z2Pos.id by lia. lia.
Qed.

Lemma f32_encode_range (nan_sign : bool) (f : spec_float) :
  match f with
  | S754_finite _ m e => Z.pos m < 16777216 /\ -149 <= e <= 104
  | _ => True
  end ->
  0 <= f32_encode nan_sign f < 4294967296.
Proof.
  destruct f as [s|s| |s m e]; cbn [f32_encode].
  - intros _. destruct s; lia.
  - intros _. destruct s; lia.
  - intros _. unfold f32_nan. destruct nan_sign; lia.
  - intros [Hm He]. destruct (Z.ltb_spec (Z.pos m) 8388608); destruct s; lia.
Qed.

Lemma atof_range (s : string) : 0 <= atof s < 4294967296.
Proof.
  unfold atof. destruct (strtod s) as [d nan_sign].
  apply f32_encode_range. unfold double_to_float.
  destruct d as [sg|sg| |sg m e]; try exact I.
  assert (H : forall p q, 0 < p -> 0 < q ->
            match round_binary 24 128 sg p q with
            | S754_finite _ m0 e0 => Z.pos m0 < 16777216 /\ -149 <= e0 <= 104
            | _ => True
            end).
  { intros p q Hp Hq.
    destruct (round_binary 24 128 sg p q) as [| | |s' m' e'] eqn:E;
      try exact I.
    apply round_binary_finite in E; lia. }
  destruct (0 <=? e) eqn:Ee.
  - apply H; [|lia]. apply Z.leb_le in Ee.
    pose proof (pow2_pos e Ee). nia.
  - apply H; [lia|]. apply Z.leb_gt in Ee. apply pow2_pos. lia.
Qed.

Lemma accum_nonneg (base : Z) (s : string) :
  forall a, 0 <= base -> 0 <= a -> 0 <= accum base s a.
Proof.
  induction s as [|c s IH]; intros a Hb Ha; [exact Ha|]. cbn [accum].
  unfold digit_val.
  set (n := code c).
  set (d := if (48 <=? n) && (n <=? 57) then n - 48
            else if (97 <=? n) && (n <=? 122) then n - 87
            else if (65 <=? n) && (n <=? 90) then n - 55 else 36).
  assert (Hd : 0 <= d).
  { subst d.
    destruct (Z.leb_spec 48 n), (Z.leb_spec n 57), (Z.leb_spec 97 n),
      (Z.leb_spec n 122), (Z.leb_spec 65 n), (Z.leb_spec n 90);
      cbn [andb]; lia. }
  destruct (d <? base); [|exact Ha]. apply IH; nia.
Qed.

Lemma strtoul0_range (s : string) : 0 <= strtoul0 s < 4294967296.
Proof.
  unfold strtoul0. destruct (read_sign (lstrip s)) as [neg t].
  assert (H : forall base u, 0 <= base ->
            0 <= (if ULONG_MAX <? accum base u 0 then ULONG_MAX
                  else if neg then uint32_t (- accum base u 0)
                       else accum base u 0) < 4294967296).
  { intros base u Hb. pose proof (accum_nonneg base u 0 Hb ltac:(lia)).
    destruct (Z.ltb_spec ULONG_MAX (accum base u 0));
      [unfold ULONG_MAX; lia|].
    destruct neg; [|unfold ULONG_MAX in *; lia].
    unfold uint32_t. apply Z.mod_pos_bound. lia. }
  destruct (hex_prefix t) as [t'|]; [apply H; lia|].
  destruct (starts_with_digit 1 t); apply H; lia.
Qed.

Lemma parseMacAddress_some (str : string) (mac : list Z) :
  parseMacAddress str = Some mac ->
  List.length mac = 6%nat /\ Forall is_byte mac.
Proof.
  unfold parseMacAddress.
  destruct (Nat.eqb_spec (List.length (sscanf_mac 5 str)) 6) as [E|E];
    [|discriminate].
  intros [= <-]. split; [now rewrite length_map|].
  apply Forall_forall. intros x Hx. apply in_map_iff in Hx as [v [<- _]].
  unfold is_byte, uint8_t. apply Z.mod_pos_bound. lia.
Qed.

Lemma wf_assign (key value : string) (c : DiceConfig) :
  wf_config c -> wf_config (assign key value c).
Proof.
  intros Hwf.
  pose proof (strtoul0_range value) as Hu.
  pose proof (atof_range value) as Hf.
  assert (H8 : 0 <= uint8_t (atoi value) < 256)
    by (unfold uint8_t; apply Z.mod_pos_bound; lia).
  assert (H16 : 0 <= uint16_t (strtoul0 value) < 65536)
    by (unfold uint16_t; apply Z.mod_pos_bound; lia).
  assert (Hi8 : -128 <= int8_t (atoi value) < 128)
    by (unfold int8_t;
        pose proof (Z.mod_pos_bound (atoi value + 128) 256 ltac:(lia)); lia).
  pose proof (strncpy_buf_length 15 value) as Hid.
  unfold assign.
  repeat match goal with
         | |- context [strcmp_eq ?k ?s] => destruct (strcmp_eq k s)
         end;
    try exact Hwf;
    try (destruct (parseMacAddress value) as [mac|] eqn:E;
         [apply parseMacAddress_some in E as [El Eb]|exact Hwf]);
    destruct Hwf; split; cbn; assumption.
Qed.

Lemma wf_load_line (buf : string) (c : DiceConfig) :
  wf_config c -> wf_config (load_line buf c).
Proof.
  intros H. rewrite load_line_key_value.
  destruct (line_key_value buf) as [[k v]|]; [now apply wf_assign|exact H].
Qed.

Lemma wf_load_loop (fuel : nat) :
  forall rest c, wf_config c -> wf_config (load_loop fuel rest c).
Proof.
  induction fuel as [|fuel IH]; intros rest c H; [exact H|].
  cbn [load_loop]. destruct rest as [|a t]; [exact H|].
  destruct (readBytesUntil 127 (String a t)) as [buf rest'].
  apply IH, wf_load_line, H.
Qed.

(** X17: whatever the file holds, [load] leaves every member of the record
    within the range of its C type, the identifier buffer with its 16
    cells and the addresses with their 6 bytes, if they were so before;
    [tumbleConstant] is always the bit pattern of a binary32 value. *)
Theorem X17_load_keeps_members_in_range
  (fs : FileSystem) (m : Manager) (filename : string) :
  wf_config (_config m) -> wf_config (_config (snd (load fs m filename))).
Proof.
  intros H. unfold load. destruct (fs_read fs filename) as [content|].
  - cbn [_config set_config _config_padding].
    assert (Hd : wf_config (decode content (_config m)))
      by (apply wf_load_loop; exact H).
    destruct (negb _); [destruct (negb _)|]; exact Hd.
  - exact H.
Qed.

Lemma X17_load_range_witness :
  wf_config (_config (snd (load fs_partial (manager_of default_config)
                             "/a_config.txt"))).
Proof.
  apply X17_load_keeps_members_in_range. exact wf_default_config.
Defined.
